(** * BalancedBSTSet: a weight-balanced binary search tree with subtree rebuilds

    Shallow embedding of [src/BalancedBSTSet.py].  Python objects live in a
    store indexed by references; every method is a state-passing function
    over the tree object (which owns its nodes), with Python exceptions as
    explicit outcomes and [while] loops / recursion driven by fuel. *)

From stdpp Require Import base option numbers list gmap strings.
From stdpp Require Import sorting.
From Stdlib Require Import ZArith Lia Sorted.

Local Open Scope Z_scope.

(** ** Outcomes and the method monad *)

(** The Python exceptions the module can raise. *)
Inductive exn :=
  AttributeError | IndexError | StopIteration | TypeError | RecursionError.

(** Outcome of a call: a value, a raised exception, or fuel exhausted. *)
Inductive res (A : Type) : Type :=
| Ret (a : A)
| Raise (e : exn)
| Diverge.
Arguments Ret {A} a.
Arguments Raise {A} e.
Arguments Diverge {A}.

(** References to node objects. *)
Abbreviation ref := positive.

(** [BalancedBSTSet.Node]: [data], [left], [right], [parent] come from
    [BSTSet.Node.__init__]; [counter] is added by the subclass. *)
Record Node := mkNode {
  data : Z;
  left : option ref;
  right : option ref;
  parent : option ref;
  counter : Z
}.

#[global] Instance Node_inhabited : Inhabited Node :=
  populate (mkNode 0 None None None 0).

(** The tree object together with the node objects it owns.  [next_ref] is
    the allocator of node identities. *)
Record Tree := mkTree {
  heap : gmap positive Node;
  next_ref : positive;
  root : option ref;
  size : Z;
  top : Z;
  bottom : Z;
  self_balancing : bool
}.

(** Methods are state-passing functions; the state [S] is the tree object
    (with its nodes), or a tree together with an iterator over it. *)
Definition M (S A : Type) : Type := S -> res A * S.

Definition ret {S A} (a : A) : M S A := fun s => (Ret a, s).
Definition raise {S A} (e : exn) : M S A := fun s => (Raise e, s).
Definition diverge {S A} : M S A := fun s => (Diverge, s).
Definition bind {S A B} (m : M S A) (k : A -> M S B) : M S B :=
  fun s =>
    match m s with
    | (Ret a, s') => k a s'
    | (Raise e, s') => (Raise e, s')
    | (Diverge, s') => (Diverge, s')
    end.

#[global] Instance M_ret {S} : MRet (M S) := @ret S.
#[global] Instance M_bind {S} : MBind (M S) := fun A B k m => bind m k.

(** Methods of the tree. *)
Abbreviation TM := (M Tree).

(** ** Field access *)

Definition set_heap (h : gmap positive Node) (t : Tree) : Tree :=
  mkTree h (next_ref t) (root t) (size t) (top t) (bottom t) (self_balancing t).
Definition set_root (r : option ref) (t : Tree) : Tree :=
  mkTree (heap t) (next_ref t) r (size t) (top t) (bottom t) (self_balancing t).
Definition set_size (s : Z) (t : Tree) : Tree :=
  mkTree (heap t) (next_ref t) (root t) s (top t) (bottom t) (self_balancing t).

Definition with_data (v : Z) (n : Node) : Node :=
  mkNode v (left n) (right n) (parent n) (counter n).
Definition with_left (v : option ref) (n : Node) : Node :=
  mkNode (data n) v (right n) (parent n) (counter n).
Definition with_right (v : option ref) (n : Node) : Node :=
  mkNode (data n) (left n) v (parent n) (counter n).
Definition with_parent (v : option ref) (n : Node) : Node :=
  mkNode (data n) (left n) (right n) v (counter n).
Definition with_counter (v : Z) (n : Node) : Node :=
  mkNode (data n) (left n) (right n) (parent n) v.

(** [n.f] for a node reference [n]. *)
Definition field {A} (f : Node -> A) (n : ref) : TM A :=
  fun t => (Ret (f (heap t !!! n)), t).

(** [n.f] where [n] may be [None]: Python raises [AttributeError] then. *)
Definition attr {A} (f : Node -> A) (n : option ref) : TM A :=
  match n with
  | Some i => field f i
  | None => raise AttributeError
  end.

(** [n.f = v], as a store update. *)
Definition update (n : ref) (g : Node -> Node) : TM unit :=
  fun t => (Ret tt, set_heap (<[n := g (heap t !!! n)]> (heap t)) t).

Definition get_root : TM (option ref) := fun t => (Ret (root t), t).
Definition put_root (r : option ref) : TM unit := fun t => (Ret tt, set_root r t).
Definition add_size (d : Z) : TM unit := fun t => (Ret tt, set_size (size t + d) t).

(** [self.Node(key, parent)]: a fresh node object with no children and
    [counter = 0]. *)
Definition new_node (key : Z) (p : option ref) : TM ref :=
  fun t =>
    let i := next_ref t in
    (Ret i,
     mkTree (<[i := mkNode key None None p 0]> (heap t)) (Pos.succ i)
            (root t) (size t) (top t) (bottom t) (self_balancing t)).

(** [BalancedBSTSet.__init__(isSelfBalancing, top, bottom)]. *)
Definition init (isSelfBalancing : bool) (top0 bottom0 : Z) : Tree :=
  if decide (bottom0 = 0)
  then mkTree ∅ 1%positive None 0 2 3 isSelfBalancing
  else mkTree ∅ 1%positive None 0 top0 bottom0 isSelfBalancing.

(** [isEmpty], [__len__]. *)
Definition isEmpty (t : Tree) : bool := bool_decide (root t = None).
Definition len (t : Tree) : Z := size t.

(** Modelled from the spec: [Node.compareTo] of the base class [BSTSet.Node]
    is the three-way comparison of the node's key with the given key. *)
Definition compareTo (n : Node) (key : Z) : comparison := data n ?= key.

(** ** Counters and the balance test *)

(** [count_node]: recomputes every counter of the subtree of [current]. *)
Fixpoint count_node (fuel : nat) (current : option ref) : TM Z :=
  match fuel with
  | O => diverge
  | S fuel =>
    match current with
    | None => ret 0
    | Some c =>
      l ← field left c;
      a ← count_node fuel l;
      r ← field right c;
      b ← count_node fuel r;
      update c (with_counter (a + b + 1));;
      field counter c
    end
  end.

(** [is_balanced]. *)
Definition is_balanced (node : option ref) : TM bool :=
  match node with
  | None => ret true
  | Some n =>
    sz ← field counter n;
    ln ← field left n;
    l ← (match ln with Some x => field counter x | None => ret 0 end);
    rn ← field right n;
    r ← (match rn with Some x => field counter x | None => ret 0 end);
    tp ← (fun t => (Ret (top t), t));
    bt ← (fun t => (Ret (bottom t), t));
    if decide (l * bt > sz * tp) then ret false
    else if decide (r * bt > sz * tp) then ret false
    else ret true
  end.

(** [find_unbalanced]: climbs from [n] while the node is balanced. *)
Fixpoint find_unbalanced (fuel : nat) (n : option ref) : TM (option ref) :=
  match fuel with
  | O => diverge
  | S fuel =>
    b ← is_balanced n;
    if b : bool then
      r ← get_root;
      if decide (n = r) then ret None
      else p ← attr parent n; find_unbalanced fuel p
    else ret n
  end.

(** Fuel for a loop or recursion over the nodes of a tree: one more than the
    number of node objects ever created for it. *)
Definition fuel_of (t : Tree) : nat := Pos.to_nat (next_ref t).
Definition with_fuel {A} (f : nat -> TM A) : TM A := fun t => f (fuel_of t) t.

(** ** Traversal and rebuild *)

(** [__inOrder]: appends the nodes of the subtree of [node] to [arr]. *)
Fixpoint inOrder (fuel : nat) (node : option ref) (arr : list ref) : TM (list ref) :=
  match fuel with
  | O => diverge
  | S fuel =>
    match node with
    | None => ret arr
    | Some n =>
      l ← field left n;
      arr1 ← inOrder fuel l arr;
      r ← field right n;
      inOrder fuel r (arr1 ++ [n])
    end
  end.

(** [int(math.ceil(start + (end - start) / 2.0))] on integers. *)
Definition midpoint (start end_ : Z) : Z := start + (end_ - start + 1) `div` 2.

(** The nested function [rebuild_tree] of [rebalance]. *)
Fixpoint rebuild_tree (fuel : nat) (nodes : list ref) (start end_ : Z)
    (par : option ref) : TM (option ref) :=
  match fuel with
  | O => diverge
  | S fuel =>
    if decide (start > end_) then ret None
    else
      let mid := midpoint start end_ in
      match nodes !! Z.to_nat mid with
      | None => raise IndexError
      | Some node =>
        update node (with_parent par);;
        l ← rebuild_tree fuel nodes start (mid - 1) (Some node);
        update node (with_left l);;
        r ← rebuild_tree fuel nodes (mid + 1) end_ (Some node);
        update node (with_right r);;
        ret (Some node)
      end
  end.

(** [rebalance]. *)
Definition rebalance (bstNode : option ref) : TM unit :=
  match bstNode with
  | None => ret tt
  | Some b =>
    node_parent ← field parent b;
    node_list ← with_fuel (fun fuel => inOrder fuel (Some b) []);
    subtree_root ← with_fuel (fun fuel =>
      rebuild_tree fuel node_list 0 (Z.of_nat (length node_list) - 1) node_parent);
    sp ← attr parent subtree_root;
    match sp with
    | None => put_root subtree_root
    | Some _ =>
      npl ← attr left node_parent;
      if decide (npl = Some b)
      then (match node_parent with
            | Some np => update np (with_left subtree_root)
            | None => raise AttributeError end)
      else (match node_parent with
            | Some np => update np (with_right subtree_root)
            | None => raise AttributeError end)
    end;;
    rt ← get_root;
    with_fuel (fun fuel => count_node fuel rt);;
    ret tt
  end.

(** The tail shared by [add], [remove] and the iterator's [remove]:
    [if self.self_balancing: u = self.find_unbalanced(start);
     if u is not None: self.rebalance(u)]. *)
Definition fix_balance (start : option ref) : TM unit :=
  sb ← (fun t => (Ret (self_balancing t), t));
  if sb : bool then
    u ← with_fuel (fun fuel => find_unbalanced fuel start);
    match u with
    | Some _ => rebalance u
    | None => ret tt
    end
  else ret tt.

(** ** add *)

(** What [add] does once the free slot under [current] is found; [setter]
    is [with_left] or [with_right]. *)
Definition attach (key : Z) (current : ref)
    (setter : option ref -> Node -> Node) : TM bool :=
  i ← new_node key (Some current);
  update current (setter (Some i));;
  add_size 1;;
  rt ← get_root;
  with_fuel (fun fuel => count_node fuel rt);;
  fix_balance (Some current);;
  ret true.

(** The [while True] loop of [add]. *)
Fixpoint add_loop (fuel : nat) (key : Z) (current : ref) : TM bool :=
  match fuel with
  | O => diverge
  | S fuel =>
    n ← field id current;
    match compareTo n key with
    | Eq => ret false
    | Gt =>
      match left n with
      | Some l => add_loop fuel key l
      | None => attach key current with_left
      end
    | Lt =>
      match right n with
      | Some r => add_loop fuel key r
      | None => attach key current with_right
      end
    end
  end.

Definition add (key : Z) : TM bool :=
  r ← get_root;
  match r with
  | None =>
    i ← new_node key None;
    put_root (Some i);;
    add_size 1;;
    rt ← get_root;
    with_fuel (fun fuel => count_node fuel rt);;
    ret true
  | Some c => with_fuel (fun fuel => add_loop fuel key c)
  end.

(** ** findEntry, successor, unlinkNode, remove *)

Fixpoint findEntry (fuel : nat) (key : Z) (current : option ref) : TM (option ref) :=
  match fuel with
  | O => diverge
  | S fuel =>
    match current with
    | None => ret None
    | Some c =>
      n ← field id c;
      match compareTo n key with
      | Eq => ret (Some c)
      | Gt => findEntry fuel key (left n)
      | Lt => findEntry fuel key (right n)
      end
    end
  end.

(** [getSmallestValue] (also the descent of [successor]):
    [while n.left is not None: n = n.left]. *)
Fixpoint leftmost (fuel : nat) (n : ref) : TM ref :=
  match fuel with
  | O => diverge
  | S fuel =>
    l ← field left n;
    match l with
    | Some x => leftmost fuel x
    | None => ret n
    end
  end.

Definition getSmallestValue (n : option ref) : TM (option ref) :=
  match n with
  | None => ret None
  | Some i => m ← with_fuel (fun fuel => leftmost fuel i); ret (Some m)
  end.

(** The upward part of [successor]: climb parent links until an ancestor
    is reached from its left side. *)
Fixpoint climb (fuel : nat) (child : ref) (p : option ref) : TM (option ref) :=
  match fuel with
  | O => diverge
  | S fuel =>
    match p with
    | None => ret None
    | Some q =>
      l ← field left q;
      if decide (l = Some child) then ret (Some q)
      else pp ← field parent q; climb fuel q pp
    end
  end.

(** Modelled from the spec: [successor] is inherited from the base class
    [BSTSet], which is not part of the sources.  "If a right child exists,
    descend to its minimum; otherwise climb parent links until finding an
    ancestor reached from its left side." *)
Definition successor (n : option ref) : TM (option ref) :=
  match n with
  | None => ret None
  | Some i =>
    r ← field right i;
    match r with
    | Some x => m ← with_fuel (fun fuel => leftmost fuel x); ret (Some m)
    | None => p ← field parent i; with_fuel (fun fuel => climb fuel i p)
    end
  end.

(** The second half of [unlinkNode], from the comment "n has at most one
    child" on: link the replacement in place of [n] and decrement the size. *)
Definition splice_out (n : ref) : TM unit :=
  l ← field left n;
  r ← field right n;
  let replacement :=
    match l with
    | Some _ => l
    | None => r
    end in
  p ← field parent n;
  match p with
  | None => put_root replacement
  | Some q =>
    ql ← field left q;
    if decide (Some n = ql) then update q (with_left replacement)
    else update q (with_right replacement)
  end;;
  match replacement with
  | Some x => update x (with_parent p)
  | None => mret tt
  end;;
  add_size (-1).

(** [unlinkNode].  The local [startNode] of the source is assigned and never
    read; it has no counterpart here. *)
Definition unlinkNode (n0 : ref) : TM unit :=
  l0 ← field left n0;
  r0 ← field right n0;
  n ← (if bool_decide (l0 <> None) && bool_decide (r0 <> None) then
         s ← successor (Some n0);
         d ← attr data s;
         update n0 (with_data d);;
         match s with
         | Some s' => mret s'
         | None => raise AttributeError
         end
       else mret n0);
  splice_out n.

Definition remove (obj : Z) : TM bool :=
  rt ← get_root;
  n ← with_fuel (fun fuel => findEntry fuel obj rt);
  match n with
  | None => ret false
  | Some n' =>
    p ← field parent n';
    unlinkNode n';;
    rt' ← get_root;
    with_fuel (fun fuel => count_node fuel rt');;
    fix_balance p;;
    ret true
  end.

(** ** height *)

Fixpoint getHeight (fuel : nat) (h : gmap positive Node) (r : option ref) : res Z :=
  match fuel with
  | O => Diverge
  | S fuel =>
    match r with
    | None => Ret (-1)
    | Some n =>
      match getHeight fuel h (left (h !!! n)), getHeight fuel h (right (h !!! n)) with
      | Ret a, Ret b => Ret (1 + Z.max a b)
      | Raise e, _ => Raise e
      | Diverge, _ => Diverge
      | _, Raise e => Raise e
      | _, Diverge => Diverge
      end
    end
  end.

Definition height (t : Tree) : res Z := getHeight (fuel_of t) (heap t) (root t).

(** ** The ordered iterator *)

(** [BSTIterator]: [pending] is the node returned by the last [next()],
    [current] the node the next call returns.  The iterator's tree is the
    first component of the state its methods run in. *)
Record BSTIterator := mkIter {
  pending : option ref;
  current : option ref
}.

Abbreviation IM := (M (Tree * BSTIterator)).

(** A tree method called through [self.__tree]. *)
Definition on_tree {A} (m : TM A) : IM A :=
  fun s =>
    match m (fst s) with
    | (r, t') => (r, (t', snd s))
    end.

Definition get_iter : IM BSTIterator := fun s => (Ret (snd s), s).
Definition set_pending (v : option ref) : IM unit :=
  fun s => (Ret tt, (fst s, mkIter v (current (snd s)))).
Definition set_current (v : option ref) : IM unit :=
  fun s => (Ret tt, (fst s, mkIter (pending (snd s)) v)).

(** [BSTIterator.__init__] and [BalancedBSTSet.iterator]. *)
Definition iterator (t : Tree) : res BSTIterator :=
  match getSmallestValue (root t) t with
  | (Ret c, _) => Ret (mkIter None c)
  | (Raise e, _) => Raise e
  | (Diverge, _) => Diverge
  end.

(** [BSTIterator.__iter__]: restart at the smallest value. *)
Definition it_iter : IM unit :=
  rt ← on_tree get_root;
  c ← on_tree (getSmallestValue rt);
  set_current c.

Definition hasNext (it : BSTIterator) : bool := bool_decide (current it <> None).

(** [peek]: the key of [current], or [None]. *)
Definition peek (t : Tree) (it : BSTIterator) : option Z :=
  match current it with
  | None => None
  | Some c => Some (data (heap t !!! c))
  end.

(** [__next__]. *)
Definition it_next : IM Z :=
  it ← get_iter;
  if hasNext it then
    set_pending (current it);;
    c ← on_tree (successor (current it));
    set_current c;;
    it' ← get_iter;
    on_tree (attr data (pending it'))
  else raise StopIteration.

(** Private-name mangling: inside [class C] the identifier [__x] denotes
    the attribute [_C__x]. *)
Definition mangle (cls name : string) : string := String.append "_" (String.append cls name).

(** Reading a node-valued attribute of a tree object by its (mangled) name.
    [BalancedBSTSet.__init__] binds [self.__root], that is
    [_BalancedBSTSet__root]; a name the object does not have raises
    [AttributeError]. *)
Definition tree_getattr (name : string) : TM (option ref) :=
  if decide (name = mangle "BalancedBSTSet" "__root") then get_root
  else raise AttributeError.

(** [BSTIterator.remove].  The source reads [self.__tree.__root] inside
    [class BSTIterator]. *)
Definition it_remove : IM unit :=
  it ← get_iter;
  match pending it with
  | None => raise IndexError
  | Some p =>
    par ← on_tree (field parent p);
    l ← on_tree (field left p);
    r ← on_tree (field right p);
    (if bool_decide (l <> None) && bool_decide (r <> None)
     then set_current (Some p) else ret tt);;
    on_tree (unlinkNode p);;
    set_pending None;;
    rt ← on_tree (tree_getattr (mangle "BSTIterator" "__root"));
    on_tree (with_fuel (fun fuel => count_node fuel rt));;
    on_tree (fix_balance par)
  end.

(** [for n in self.iterator(): yield n], collected into a list: the loop
    restarts the cursor with [__iter__] and calls [__next__] until
    [StopIteration]. *)
Fixpoint drain (fuel : nat) (acc : list Z) : IM (list Z) :=
  match fuel with
  | O => diverge
  | S fuel =>
    fun s =>
      match it_next s with
      | (Ret k, s') => drain fuel (acc ++ [k]) s'
      | (Raise StopIteration, s') => (Ret acc, s')
      | (Raise e, s') => (Raise e, s')
      | (Diverge, s') => (Diverge, s')
      end
  end.

Definition to_list (t : Tree) : res (list Z) :=
  match iterator t with
  | Ret it => fst ((it_iter;; drain (fuel_of t) []) (t, it))
  | Raise e => Raise e
  | Diverge => Diverge
  end.

(** ** Set algebra over lookahead cursors *)




(** Modelled from the spec: [append] of the result collection is inherited
    from [BSTSet]; results are "accumulated by ordered insertion of emitted
    values", that is by [add]. *)
Definition append (key : Z) (result : Tree) : res Tree :=
  match add key result with
  | (Ret _, t') => Ret t'
  | (Raise e, _) => Raise e
  | (Diverge, _) => Diverge
  end.











(** Building a tree by successive [add]s, as the callers do. *)
Definition add_all (keys : list Z) (t : Tree) : Tree :=
  foldl (fun t k => snd (add k t)) t keys.

(** * Abstract view of a tree *)

(** The link structure of a (sub)tree, by node identity. *)
Inductive bt :=
| Lf
| Br (l : bt) (i : ref) (r : bt).

(** Nodes in ascending (in-order) position. *)
Fixpoint ids (t : bt) : list ref :=
  match t with
  | Lf => []
  | Br l i r => ids l ++ i :: ids r
  end.

Definition top_of (t : bt) : option ref :=
  match t with
  | Lf => None
  | Br _ i _ => Some i
  end.

(** Number of nodes on the longest root-to-leaf path. *)
Fixpoint depth (t : bt) : nat :=
  match t with
  | Lf => O
  | Br l _ r => S (Nat.max (depth l) (depth r))
  end.

(** The store [h] holds the link structure [t] below a node (or root slot)
    [par]: the subtree is entered through the pointer [top_of t]. *)
Fixpoint shape (h : gmap positive Node) (par : option ref) (t : bt) : Prop :=
  match t with
  | Lf => True
  | Br l i r =>
    parent (h !!! i) = par /\ left (h !!! i) = top_of l /\ right (h !!! i) = top_of r /\
    shape h (Some i) l /\ shape h (Some i) r
  end.

(** Every counter of [t] is the number of nodes of its subtree. *)
Fixpoint counted (h : gmap positive Node) (t : bt) : Prop :=
  match t with
  | Lf => True
  | Br l i r =>
    counter (h !!! i) = Z.of_nat (length (ids (Br l i r))) /\ counted h l /\ counted h r
  end.

(** One step of the path from a node up to the root: the node above, and
    the sibling subtree. *)
Inductive frame :=
| FL (i : ref) (r : bt)
| FR (l : bt) (i : ref).

Definition fid (f : frame) : ref :=
  match f with
  | FL i _ => i
  | FR _ i => i
  end.

(** A path is a list of frames, nearest ancestor first. *)
Fixpoint plug (fs : list frame) (s : bt) : bt :=
  match fs with
  | [] => s
  | FL i r :: fs => plug fs (Br s i r)
  | FR l i :: fs => plug fs (Br l i s)
  end.

Definition par_of (fs : list frame) : option ref :=
  match fs with
  | [] => None
  | f :: _ => Some (fid f)
  end.

Fixpoint lefts (fs : list frame) : list ref :=
  match fs with
  | [] => []
  | FL _ _ :: fs => lefts fs
  | FR l i :: fs => lefts fs ++ ids l ++ [i]
  end.

Fixpoint rights (fs : list frame) : list ref :=
  match fs with
  | [] => []
  | FL i r :: fs => i :: ids r ++ rights fs
  | FR _ _ :: fs => rights fs
  end.

(** The store holds the path [fs] above a subtree entered through [hole]. *)
Fixpoint cshape (h : gmap positive Node) (fs : list frame) (hole : option ref) : Prop :=
  match fs with
  | [] => True
  | FL i r :: fs' =>
    left (h !!! i) = hole /\ right (h !!! i) = top_of r /\
    parent (h !!! i) = par_of fs' /\ shape h (Some i) r /\ cshape h fs' (Some i)
  | FR l i :: fs' =>
    left (h !!! i) = top_of l /\ right (h !!! i) = hole /\
    parent (h !!! i) = par_of fs' /\ shape h (Some i) l /\ cshape h fs' (Some i)
  end.

(** Keys in ascending position. *)
Definition keys (h : gmap positive Node) (t : bt) : list Z :=
  (fun i => data (h !!! i)) <$> ids t.

(** The tree object [st] represents the link structure [t]. *)
Record rep (st : Tree) (t : bt) : Prop := mkRep {
  rep_root : root st = top_of t;
  rep_shape : shape (heap st) None t;
  rep_nodup : NoDup (ids t);
  rep_fresh : forall i, i ∈ ids t -> (i < next_ref st)%positive;
  rep_fuel : (length (ids t) < fuel_of st)%nat;
  rep_size : size st = Z.of_nat (length (ids t));
  rep_counted : counted (heap st) t
}.

(** The binary-search-tree invariant. *)
Definition bst (st : Tree) (t : bt) : Prop :=
  rep st t /\ StronglySorted Z.lt (keys (heap st) t).

(** The pure shadow of [rebuild_tree]: the link structure it installs. *)
Fixpoint build (fuel : nat) (nodes : list ref) (start end_ : Z) : bt :=
  match fuel with
  | O => Lf
  | S fuel =>
    if decide (start > end_) then Lf
    else
      let mid := midpoint start end_ in
      match nodes !! Z.to_nat mid with
      | None => Lf
      | Some node =>
        Br (build fuel nodes start (mid - 1)) node (build fuel nodes (mid + 1) end_)
      end
  end.

Definition rebuilt (nodes : list ref) : bt :=
  build (S (length nodes)) nodes 0 (Z.of_nat (length nodes) - 1).

(** The nodes of the subtree of [u], as [__inOrder] lists them. *)
Definition subtree_nodes (st : Tree) (u : option ref) : list ref :=
  match inOrder (fuel_of st) u [] st with
  | (Ret l, _) => l
  | _ => []
  end.

Definition tree_nodes (st : Tree) : list ref := subtree_nodes st (root st).

(** The nodes at positions [start..end_] of the flattened subtree. *)
Definition slice (nodes : list ref) (start end_ : Z) : list ref :=
  take (Z.to_nat (end_ - start + 1)) (drop (Z.to_nat start) nodes).

(** Links are all that [shape] reads; [data] and [counter] are the payload. *)
Definition same_links (n n' : Node) : Prop :=
  left n = left n' /\ right n = right n' /\ parent n = parent n'.

Definition same_payload (n n' : Node) : Prop :=
  data n = data n' /\ counter n = counter n'.

(** Redirecting the child pointer through which a path is entered. *)
Definition set_hole (f : frame) (v : option ref) : Node -> Node :=
  match f with
  | FL _ _ => with_left v
  | FR _ _ => with_right v
  end.

(** What the conditional rebalance leaves alone. *)
Definition same_params (st st' : Tree) : Prop :=
  top st' = top st /\ bottom st' = bottom st /\
  self_balancing st' = self_balancing st /\ next_ref st' = next_ref st.

Definition leaf (i : ref) : bt := Br Lf i Lf.

(** All keys of the listed nodes are below (above) [key]. *)
Definition below (h : gmap positive Node) (key : Z) (l : list ref) : Prop :=
  Forall (fun i => data (h !!! i) < key) l.
Definition above (h : gmap positive Node) (key : Z) (l : list ref) : Prop :=
  Forall (fun i => key < data (h !!! i)) l.

(** The node after [a] in the sequence [l], or [x] after the last one. *)
Fixpoint next_of (l : list ref) (x : option ref) (a : ref) : option ref :=
  match l with
  | [] => x
  | b :: l' =>
    if decide (a = b) then
      match l' with
      | c :: _ => Some c
      | [] => x
      end
    else next_of l' x a
  end.

Definition head_or (l : list ref) (x : option ref) : option ref :=
  match l with
  | c :: _ => Some c
  | [] => x
  end.

(** A cursor over [st] that has [rest] left to yield. *)
Definition at_pos (T : bt) (it : BSTIterator) (rest : list ref) : Prop :=
  (exists pre, ids T = pre ++ rest) /\ current it = head rest.

(** [rep] without the counters, which [unlinkNode] leaves stale. *)
Record linked (st : Tree) (t : bt) : Prop := mkLinked {
  lk_root : root st = top_of t;
  lk_shape : shape (heap st) None t;
  lk_nodup : NoDup (ids t);
  lk_fresh : forall i, i ∈ ids t -> (i < next_ref st)%positive;
  lk_fuel : (length (ids t) < fuel_of st)%nat;
  lk_size : size st = Z.of_nat (length (ids t))
}.

(** Re-parenting the top of a subtree (if there is one). *)
Definition reparent (c : bt) (p : option ref) (h : gmap positive Node) : gmap positive Node :=
  match top_of c with
  | Some x => <[x := with_parent p (h !!! x)]> h
  | None => h
  end.

(** The public mutators. *)
Inductive op := Add (k : Z) | Remove (k : Z).

Definition run_op (o : op) (st : Tree) : Tree :=
  match o with
  | Add k => snd (add k st)
  | Remove k => snd (remove k st)
  end.

Definition run_ops (ops : list op) (st : Tree) : Tree :=
  foldl (fun st o => run_op o st) st ops.

(** The counter of a child slot: [0] for an absent child. *)
Definition counter_of (h : gmap positive Node) (c : option ref) : Z :=
  match c with
  | Some x => counter (h !!! x)
  | None => 0
  end.

(** Neither child holds more than half of the nodes. *)
Fixpoint halved (t : bt) : Prop :=
  match t with
  | Lf => True
  | Br l i r =>
    (2 * length (ids l) <= length (ids t))%nat /\
    (2 * length (ids r) <= length (ids t))%nat /\
    halved l /\ halved r
  end.

(** ** Concrete trees used as examples *)

(** The integers [1..n]. *)
Definition upto (n : nat) : list Z := (fun i => Z.of_nat i + 1) <$> seq 0 n.

(** A right chain, built without balancing. *)
Definition chain4 : Tree := add_all [1; 2; 3; 4] (init false 0 0).
Definition chain4_bt : bt := Br Lf 1 (Br Lf 2 (Br Lf 3 (Br Lf 4 Lf)))%positive.

(** The same chain with the self-balancing flag set: the state [add] is in
    when the fourth ascending key has been attached and counted. *)
Definition chain4_balancing : Tree :=
  mkTree (heap chain4) (next_ref chain4) (root chain4) (size chain4) 2 3 true.

(** Nine keys in level order: every node is weight-balanced for 2/3. *)
Definition nine : Tree :=
  add_all [100; 50; 110; 30; 60; 120; 20; 40; 10] (init true 0 0).

(** Twelve keys in level order; the node holding 50 has two children and
    its in-order successor 60 hangs below the node holding 80. *)
Definition twelve : Tree :=
  add_all [100; 50; 150; 30; 80; 120; 170; 20; 60; 90; 85; 95] (init true 0 0).

Definition second7 : Tree := add_all [6; 7; 8; 9; 10; 11; 12] (init false 0 0).
Definition second7_bt : bt :=
  Br Lf 1 (Br Lf 2 (Br Lf 3 (Br Lf 4 (Br Lf 5 (Br Lf 6 (Br Lf 7 Lf))))))%positive.

(** The claim of a weight-balanced tree: every node weighs at most
    [top/bottom] of its parent. *)
Definition weight_balanced (st : Tree) : Prop :=
  forall n p, n ∈ tree_nodes st -> parent (heap st !!! n) = Some p ->
    counter (heap st !!! n) * bottom st <= counter (heap st !!! p) * top st.

(** * The pure shadow of [add] *)

(** One frame put back around a subtree. *)
Definition plug1 (f : frame) (s : bt) : bt :=
  match f with
  | FL i r => Br s i r
  | FR l i => Br l i s
  end.

(** The descent of [add] on the link structure, with the keys read through
    [kf]: the path to the free slot, or [None] when the key is met. *)
Fixpoint find_slot (kf : positive -> Z) (key : Z) (s : bt) (fs : list frame)
  : option (list frame) :=
  match s with
  | Lf => Some fs
  | Br l i r =>
    match kf i ?= key with
    | Eq => None
    | Gt => find_slot kf key l (FL i r :: fs)
    | Lt => find_slot kf key r (FR l i :: fs)
    end
  end.

(** [is_balanced] when every counter is the size of its subtree. *)
Definition balanced_abs (tp bo : Z) (s : bt) : bool :=
  match s with
  | Lf => true
  | Br l i r =>
    let sz := Z.of_nat (length (ids s)) in
    if decide (Z.of_nat (length (ids l)) * bo > sz * tp) then false
    else if decide (Z.of_nat (length (ids r)) * bo > sz * tp) then false
    else true
  end.

(** [find_unbalanced]: the nearest unbalanced subtree on the way up, with
    the path above it. *)
Fixpoint first_unbalanced (tp bo : Z) (s : bt) (fs : list frame)
  : option (list frame * bt) :=
  match fs with
  | [] => if balanced_abs tp bo s then None else Some ([], s)
  | f :: fs' =>
    if balanced_abs tp bo s then first_unbalanced tp bo (plug1 f s) fs'
    else Some (fs, s)
  end.

(** The conditional rebalance, started at the top of [s] below [fs]. *)
Definition fix_abs (tp bo : Z) (s : bt) (fs : list frame) : bt :=
  match first_unbalanced tp bo s fs with
  | None => plug fs s
  | Some (fs_u, s_u) => plug fs_u (rebuilt (ids s_u))
  end.

(** [add]: [None] when the key is already there. *)
Definition add_abs (kf : positive -> Z) (tp bo : Z) (sb : bool) (new : positive)
    (T : bt) (key : Z) : option bt :=
  match find_slot kf key T [] with
  | None => None
  | Some [] => Some (leaf new)
  | Some (f :: fs') =>
    Some (if sb then fix_abs tp bo (plug1 f (leaf new)) fs'
          else plug (f :: fs') (leaf new))
  end.

(** The link structure after inserting [1..n] in ascending order: the
    [k]-th node object holds the key [k]. *)
Fixpoint asc_abs (tp bo : Z) (sb : bool) (n : nat) : bt :=
  match n with
  | O => Lf
  | S n' =>
    let T := asc_abs tp bo sb n' in
    match add_abs Z.pos tp bo sb (Pos.of_succ_nat n') T (Z.of_nat n' + 1) with
    | Some T' => T'
    | None => T
    end
  end.

(** * Further operations and pure shadows *)

(** The loop of [__getitem__]: [for i, n in enumerate(...)], returning the
    first [n] whose position is [ind]; falling off the loop returns [None]. *)
Fixpoint getitem_loop (fuel : nat) (i ind : Z) : IM (option Z) :=
  match fuel with
  | O => diverge
  | S fuel =>
    fun s =>
      match it_next s with
      | (Ret n, s') =>
        if decide (i = ind) then (Ret (Some n), s')
        else getitem_loop fuel (i + 1) ind s'
      | (Raise StopIteration, s') => (Ret None, s')
      | (Raise e, s') => (Raise e, s')
      | (Diverge, s') => (Diverge, s')
      end
  end.

(** [__getitem__]. *)
Definition getitem (ind : Z) (t : Tree) : res (option Z) :=
  if decide (ind < 0 \/ ind >= size t) then Raise IndexError
  else
    match iterator t with
    | Ret it => fst ((it_iter;; getitem_loop (fuel_of t) 0 ind) (t, it))
    | Raise e => Raise e
    | Diverge => Diverge
    end.


(** Reading the key of a node object. *)
Abbreviation key_at st := (fun i => data (heap st !!! i)).

(** A right chain of [n] nodes numbered from [k], ending in [s]. *)
Fixpoint rchain (k : positive) (n : nat) (s : bt) : bt :=
  match n with
  | O => s
  | S n' => Br Lf k (rchain (Pos.succ k) n' s)
  end.

(** The key held by the root node, if there is one. *)
Definition root_key (st : Tree) : option Z :=
  (fun r => data (heap st !!! r)) <$> root st.

(** The set a sequence of mutators denotes. *)
Definition set_of (ops : list op) : gset Z :=
  foldl (fun s o => match o with
                    | Add k => {[k]} ∪ s
                    | Remove k => s ∖ {[k]}
                    end) ∅ ops.



(** Three keys in a self-balancing tree, the middle one at the root. *)
Definition three : Tree := add_all [2; 1; 3] (init true 0 0).

(** Its link structure: node 1 holds 2, node 2 holds 1, node 3 holds 3. *)
Definition three_bt : bt := Br (Br Lf 2 Lf) 1 (Br Lf 3 Lf)%positive.

(** The nodes met by following [parent] from [n] up to the root. *)
Fixpoint path_up (fuel : nat) (h : gmap positive Node) (n : option ref) : list ref :=
  match fuel, n with
  | S fuel, Some i => i :: path_up fuel h (parent (h !!! i))
  | _, _ => []
  end.

(** ** Printing *)

(** The loop of [__str__]: [for n in self: st += str(n) + " "], with the
    rendering [str] of a key left open. *)
Fixpoint str_loop (str : Z -> string) (fuel : nat) (acc : string) : IM string :=
  match fuel with
  | O => diverge
  | S fuel =>
    fun s =>
      match it_next s with
      | (Ret n, s') => str_loop str fuel (acc +:+ str n +:+ " ") s'
      | (Raise StopIteration, s') => (Ret acc, s')
      | (Raise e, s') => (Raise e, s')
      | (Diverge, s') => (Diverge, s')
      end
  end.

(** [__str__], through the generator [__iter__]. *)
Definition str_tree (str : Z -> string) (t : Tree) : res string :=
  match iterator t with
  | Ret it => fst ((it_iter;; str_loop str (fuel_of t) "") (t, it))
  | Raise e => Raise e
  | Diverge => Diverge
  end.

(** The line feed. *)
Definition newline : string := String (Ascii.ascii_of_nat 10) EmptyString.

(** ["  " * depth]. *)
Definition indent (depth : nat) : string := String.concat "" (replicate depth "  ").

(** [__toStringRec]: the pieces appended to [sb]; [str] renders a node
    object. *)
Fixpoint toStringRec (str : ref -> Node -> string) (fuel : nat) (n : option ref)
    (sb : list string) (depth : nat) : TM (list string) :=
  match fuel with
  | O => diverge
  | S fuel =>
    let sb := sb ++ [indent depth] in
    match n with
    | None => ret (sb ++ ["-" +:+ newline])
    | Some i =>
      l ← field left i;
      r ← field right i;
      let inner := bool_decide (l <> None) || bool_decide (r <> None) in
      let sb := sb ++ [if inner then "+ " else "- "] in
      nd ← field id i;
      let sb := (sb ++ [str i nd]) ++ [newline] in
      if inner then
        sb1 ← toStringRec str fuel l sb (S depth);
        toStringRec str fuel r sb1 (S depth)
      else ret sb
    end
  end.

(** [__repr__]. *)
Definition repr (str : ref -> Node -> string) : TM string :=
  rt ← get_root;
  sb ← with_fuel (fun fuel => toStringRec str fuel rt [] 0);
  ret (String.concat "" sb).

(** The drawing of a link structure: the root at the left, children below
    their parent and one level to the right, [+] for a node with a child
    and [-] for a leaf or an absent child. *)
Fixpoint draw (str : ref -> Node -> string) (h : gmap positive Node) (t : bt)
    (depth : nat) : list string :=
  match t with
  | Lf => [indent depth; "-" +:+ newline]
  | Br l i r =>
    match l, r with
    | Lf, Lf => [indent depth; "- "; str i (h !!! i); newline]
    | _, _ =>
      [indent depth; "+ "; str i (h !!! i); newline] ++
      draw str h l (S depth) ++ draw str h r (S depth)
    end
  end.

(** * The interpreter's recursion limit *)

(** Calling a Python function from a frame at depth [depth] enters a frame
    at depth [depth + 1]; when that would exceed the recursion limit the
    call raises [RecursionError] instead.  Builtins ([len], [max], [int],
    [math.ceil], [list.append]) enter no Python frame.  The functions below
    are those of the tree with every call counted: [depth] is always the
    depth of the calling frame. *)
Definition call {St A} (limit depth : nat) (body : nat -> M St A) : M St A :=
  if decide (depth < limit)%nat then body (S depth) else raise RecursionError.

(** [count_node]: one frame per node on the way down, and one for the
    [None] below a leaf. *)
Fixpoint count_node_at (fuel limit depth : nat) (current : option ref) : TM Z :=
  match fuel with
  | O => diverge
  | S fuel =>
    call limit depth (fun d =>
      match current with
      | None => ret 0
      | Some c =>
        l ← field left c;
        a ← count_node_at fuel limit d l;
        r ← field right c;
        b ← count_node_at fuel limit d r;
        update c (with_counter (a + b + 1));;
        field counter c
      end)
  end.

Definition is_balanced_at (limit depth : nat) (node : option ref) : TM bool :=
  call limit depth (fun _ => is_balanced node).

(** The [while] loop of [find_unbalanced], inside its frame [d]. *)
Fixpoint find_unbalanced_loop (fuel limit d : nat) (n : option ref) : TM (option ref) :=
  match fuel with
  | O => diverge
  | S fuel =>
    b ← is_balanced_at limit d n;
    if b : bool then
      r ← get_root;
      if decide (n = r) then ret None
      else p ← attr parent n; find_unbalanced_loop fuel limit d p
    else ret n
  end.

Definition find_unbalanced_at (fuel limit depth : nat) (n : option ref) : TM (option ref) :=
  call limit depth (fun d => find_unbalanced_loop fuel limit d n).

Fixpoint inOrder_at (fuel limit depth : nat) (node : option ref) (arr : list ref)
  : TM (list ref) :=
  match fuel with
  | O => diverge
  | S fuel =>
    call limit depth (fun d =>
      match node with
      | None => ret arr
      | Some n =>
        l ← field left n;
        arr1 ← inOrder_at fuel limit d l arr;
        r ← field right n;
        inOrder_at fuel limit d r (arr1 ++ [n])
      end)
  end.

Fixpoint rebuild_tree_at (fuel limit depth : nat) (nodes : list ref) (start end_ : Z)
    (par : option ref) : TM (option ref) :=
  match fuel with
  | O => diverge
  | S fuel =>
    call limit depth (fun d =>
      if decide (start > end_) then ret None
      else
        let mid := midpoint start end_ in
        match nodes !! Z.to_nat mid with
        | None => raise IndexError
        | Some node =>
          update node (with_parent par);;
          l ← rebuild_tree_at fuel limit d nodes start (mid - 1) (Some node);
          update node (with_left l);;
          r ← rebuild_tree_at fuel limit d nodes (mid + 1) end_ (Some node);
          update node (with_right r);;
          ret (Some node)
        end)
  end.

Definition rebalance_at (limit depth : nat) (bstNode : option ref) : TM unit :=
  call limit depth (fun d =>
    match bstNode with
    | None => ret tt
    | Some b =>
      node_parent ← field parent b;
      node_list ← with_fuel (fun fuel => inOrder_at fuel limit d (Some b) []);
      subtree_root ← with_fuel (fun fuel =>
        rebuild_tree_at fuel limit d node_list 0 (Z.of_nat (length node_list) - 1)
          node_parent);
      sp ← attr parent subtree_root;
      match sp with
      | None => put_root subtree_root
      | Some _ =>
        npl ← attr left node_parent;
        if decide (npl = Some b)
        then (match node_parent with
              | Some np => update np (with_left subtree_root)
              | None => raise AttributeError end)
        else (match node_parent with
              | Some np => update np (with_right subtree_root)
              | None => raise AttributeError end)
      end;;
      rt ← get_root;
      with_fuel (fun fuel => count_node_at fuel limit d rt);;
      ret tt
    end).

(** The conditional rebalance at the end of [add], in the frame [d] of
    [add]. *)
Definition fix_balance_at (limit d : nat) (start : option ref) : TM unit :=
  sb ← (fun t => (Ret (self_balancing t), t));
  if sb : bool then
    u ← with_fuel (fun fuel => find_unbalanced_at fuel limit d start);
    match u with
    | Some _ => rebalance_at limit d u
    | None => ret tt
    end
  else ret tt.

(** [self.Node(key, parent)]: [Node.__init__] of the sources is entered; it
    sets [counter] and calls [super().__init__(key, parent)].  That body
    belongs to the base class [BSTSet.Node], which is not among the sources;
    it is taken to call nothing further. *)
Definition new_node_at (limit depth : nat) (key : Z) (p : option ref) : TM ref :=
  call limit depth (fun d => call limit d (fun _ => new_node key p)).

(** [current.compareTo(key)]: one frame; the body (base class) is taken to
    call nothing further. *)
Definition compareTo_at (limit depth : nat) (n : Node) (key : Z) : TM comparison :=
  call limit depth (fun _ => ret (compareTo n key)).

Definition attach_at (limit d : nat) (key : Z) (current : ref)
    (setter : option ref -> Node -> Node) : TM bool :=
  i ← new_node_at limit d key (Some current);
  update current (setter (Some i));;
  add_size 1;;
  rt ← get_root;
  with_fuel (fun fuel => count_node_at fuel limit d rt);;
  fix_balance_at limit d (Some current);;
  ret true.

Fixpoint add_loop_at (fuel limit d : nat) (key : Z) (current : ref) : TM bool :=
  match fuel with
  | O => diverge
  | S fuel =>
    n ← field id current;
    comp ← compareTo_at limit d n key;
    match comp with
    | Eq => ret false
    | Gt =>
      match left n with
      | Some l => add_loop_at fuel limit d key l
      | None => attach_at limit d key current with_left
      end
    | Lt =>
      match right n with
      | Some r => add_loop_at fuel limit d key r
      | None => attach_at limit d key current with_right
      end
    end
  end.

(** [add], called from a frame at depth [depth]. *)
Definition add_at (limit depth : nat) (key : Z) : TM bool :=
  call limit depth (fun d =>
    r ← get_root;
    match r with
    | None =>
      i ← new_node_at limit d key None;
      put_root (Some i);;
      add_size 1;;
      rt ← get_root;
      with_fuel (fun fuel => count_node_at fuel limit d rt);;
      ret true
    | Some c => with_fuel (fun fuel => add_loop_at fuel limit d key c)
    end).

(** [for k in keys: t.add(k)], run in a frame at depth [depth]. *)
Fixpoint add_all_at (limit depth : nat) (keys : list Z) : TM unit :=
  match keys with
  | [] => ret tt
  | k :: ks => add_at limit depth k;; add_all_at limit depth ks
  end.

(** [getHeight], called from a frame at depth [depth]. *)
Fixpoint getHeight_at (fuel limit depth : nat) (h : gmap positive Node) (r : option ref)
  : res Z :=
  match fuel with
  | O => Diverge
  | S fuel =>
    if decide (depth < limit)%nat then
      match r with
      | None => Ret (-1)
      | Some n =>
        match getHeight_at fuel limit (S depth) h (left (h !!! n)),
              getHeight_at fuel limit (S depth) h (right (h !!! n)) with
        | Ret a, Ret b => Ret (1 + Z.max a b)
        | Raise e, _ => Raise e
        | Diverge, _ => Diverge
        | _, Raise e => Raise e
        | _, Diverge => Diverge
        end
      end
    else Raise RecursionError
  end.

(** [height], called from a frame at depth [depth]. *)
Definition height_at (limit depth : nat) (t : Tree) : res Z :=
  if decide (depth < limit)%nat
  then getHeight_at (fuel_of t) limit (S depth) (heap t) (root t)
  else Raise RecursionError.

(** The tree object once [add] has created the new node and linked it
    below [q] through [setter], before the recount. *)
Definition hang (key : Z) (q : ref) (setter : option ref -> Node -> Node)
    (st : Tree) : Tree :=
  let new := next_ref st in
  let h1 := <[new := mkNode key None None (Some q) 0]> (heap st) in
  let h2 := <[q := setter (Some new) (h1 !!! q)]> h1 in
  mkTree h2 (Pos.succ new) (root st) (size st + 1) (top st) (bottom st)
         (self_balancing st).

(** A counted run agrees with the uncounted one unless it raises
    [RecursionError]. *)
Definition agrees {A} (counted plain : res A * Tree) : Prop :=
  counted = plain \/ exists st', counted = (Raise RecursionError, st').

(** * Basic facts *)

#[local] Set Warnings "-clear-no-such-hyp".

Section monad_facts.
Context {S A B : Type}.

Lemma bind_Ret (m : M S A) (k : A -> M S B) s a s' :
  m s = (Ret a, s') -> (m ≫= k) s = k a s'.
Proof. intros H. unfold mbind, M_bind, bind. now rewrite H. Qed.

Lemma bind_Raise (m : M S A) (k : A -> M S B) s e s' :
  m s = (Raise e, s') -> (m ≫= k) s = (Raise e, s').
Proof. intros H. unfold mbind, M_bind, bind. now rewrite H. Qed.
End monad_facts.

Lemma depth_le_length t : (depth t <= length (ids t))%nat.
Proof.
  induction t as [|l IHl i r IHr]; simpl; [lia|].
  rewrite length_app. simpl. lia.
Qed.

Lemma heap_set_heap h st : heap (set_heap h st) = h.
Proof. reflexivity. Qed.

Lemma set_heap_set_heap h h' st : set_heap h (set_heap h' st) = set_heap h st.
Proof. reflexivity. Qed.

Lemma set_heap_id st : set_heap (heap st) st = st.
Proof. now destruct st. Qed.

Lemma shape_ext h h' par t :
  (forall i, i ∈ ids t -> same_links (h' !!! i) (h !!! i)) ->
  shape h par t -> shape h' par t.
Proof.
  revert par. induction t as [|l IHl i r IHr]; simpl; [tauto|].
  intros par Hs (Hp & Hl & Hr & Sl & Sr).
  destruct (Hs i) as (El & Er & Ep); [set_solver|].
  repeat split; try congruence.
  - apply IHl; [|assumption]. intros j Hj. apply Hs. set_solver.
  - apply IHr; [|assumption]. intros j Hj. apply Hs. set_solver.
Qed.

Lemma field_eq {A} (f : Node -> A) n st : field f n st = (Ret (f (heap st !!! n)), st).
Proof. reflexivity. Qed.

Lemma update_eq n g st :
  update n g st = (Ret tt, set_heap (<[n := g (heap st !!! n)]> (heap st)) st).
Proof. reflexivity. Qed.

Lemma counted_ext h h' t :
  (forall i, i ∈ ids t -> counter (h' !!! i) = counter (h !!! i)) ->
  counted h t -> counted h' t.
Proof.
  induction t as [|l IHl i r IHr]; simpl; [tauto|].
  intros Hs (Hc & Cl & Cr).
  split; [rewrite Hs by set_solver; exact Hc|].
  split; [apply IHl | apply IHr]; try assumption; intros j Hj; apply Hs; set_solver.
Qed.

Lemma NoDup_ids_Br l i r :
  NoDup (ids (Br l i r)) ->
  NoDup (ids l) /\ NoDup (ids r) /\ (i ∉ ids l) /\ (i ∉ ids r) /\
  (forall j, j ∈ ids l -> j ∉ ids r).
Proof.
  simpl. rewrite NoDup_app, NoDup_cons. intros (Hl & Hd & Hi & Hr).
  repeat split; try assumption; set_solver.
Qed.

Lemma count_node_spec t :
  forall fuel st par,
    shape (heap st) par t -> NoDup (ids t) -> (depth t < fuel)%nat ->
    exists h',
      count_node fuel (top_of t) st = (Ret (Z.of_nat (length (ids t))), set_heap h' st) /\
      (forall i, i ∉ ids t -> h' !!! i = heap st !!! i) /\
      (forall i, same_links (h' !!! i) (heap st !!! i) /\ data (h' !!! i) = data (heap st !!! i)) /\
      counted h' t.
Proof.
  induction t as [|l IHl i r IHr]; intros fuel st par Hs Hnd Hf.
  - destruct fuel as [|fuel]; [simpl in Hf; lia|].
    exists (heap st). simpl. rewrite set_heap_id. unfold same_links. repeat split.
  - destruct fuel as [|fuel]; [simpl in Hf; lia|].
    simpl in Hs. destruct Hs as (Hp & Hl & Hr & Sl & Sr).
    destruct (NoDup_ids_Br _ _ _ Hnd) as (Nl & Nr & Il & Ir & Hdisj).
    simpl in Hf.
    destruct (IHl fuel st (Some i) Sl Nl ltac:(lia)) as (h1 & E1 & O1 & L1 & C1).
    assert (Sr1 : shape h1 (Some i) r).
    { eapply shape_ext; [|exact Sr]. intros j _. apply L1. }
    destruct (IHr fuel (set_heap h1 st) (Some i) Sr1 Nr ltac:(lia)) as (h2 & E2 & O2 & L2 & C2).
    simpl in E2, O2, L2.
    exists (<[i := with_counter (Z.of_nat (length (ids l)) + Z.of_nat (length (ids r)) + 1) (h2 !!! i)]> h2).
    split.
    { cbn [count_node top_of].
      erewrite bind_Ret by apply field_eq. rewrite Hl.
      erewrite bind_Ret by apply E1.
      erewrite bind_Ret by apply field_eq. rewrite heap_set_heap.
      destruct (L1 i) as ((_ & R1 & _) & _). rewrite R1, Hr.
      erewrite bind_Ret by apply E2.
      erewrite bind_Ret by apply update_eq.
      rewrite field_eq. rewrite !heap_set_heap, !set_heap_set_heap.
      rewrite lookup_total_insert_eq. cbn [counter with_counter].
      f_equal. f_equal. cbn [ids]. rewrite length_app. cbn [length]. lia. }
    split.
    { intros j Hj. rewrite lookup_total_insert_ne by set_solver.
      rewrite O2, O1 by set_solver. reflexivity. }
    split.
    { intros j. destruct (decide (i = j)) as [->|Hne].
      - rewrite lookup_total_insert_eq. unfold same_links; simpl.
        destruct (L2 j) as ((? & ? & ?) & ?), (L1 j) as ((? & ? & ?) & ?).
        repeat split; congruence.
      - rewrite lookup_total_insert_ne by assumption.
        destruct (L2 j) as ((? & ? & ?) & ?), (L1 j) as ((? & ? & ?) & ?).
        unfold same_links. repeat split; congruence. }
    simpl. rewrite lookup_total_insert_eq. simpl.
    split; [rewrite length_app; simpl; lia|].
    split.
    + eapply counted_ext; [|exact C1]. intros j Hj.
      rewrite lookup_total_insert_ne by set_solver.
      rewrite O2 by (apply Hdisj; assumption). reflexivity.
    + eapply counted_ext; [|exact C2]. intros j Hj.
      rewrite lookup_total_insert_ne by set_solver. reflexivity.
Qed.
(** ** Paths *)

Lemma ids_plug fs : forall s, ids (plug fs s) = lefts fs ++ ids s ++ rights fs.
Proof.
  induction fs as [|[i r|l i] fs IH]; intros s; simpl.
  - now rewrite app_nil_r.
  - rewrite IH. simpl. now rewrite <- !app_assoc.
  - rewrite IH. simpl. now rewrite <- !app_assoc.
Qed.

Lemma shape_plug h fs :
  forall s, shape h None (plug fs s) <-> shape h (par_of fs) s /\ cshape h fs (top_of s).
Proof.
  induction fs as [|[i r|l i] fs IH]; intros s; simpl.
  - tauto.
  - rewrite IH. simpl. tauto.
  - rewrite IH. simpl. tauto.
Qed.

Lemma cshape_ext h h' fs hole :
  (forall i, i ∈ lefts fs ++ rights fs -> same_links (h' !!! i) (h !!! i)) ->
  cshape h fs hole -> cshape h' fs hole.
Proof.
  revert hole. induction fs as [|[i r|l i] fs IH]; intros hole Hs; simpl; [tauto| |].
  - intros (Hl & Hr & Hp & Sr & C).
    destruct (Hs i) as (El & Er & Ep); [simpl; set_solver|].
    repeat split; try congruence.
    + eapply shape_ext; [|exact Sr]. intros j Hj. apply Hs. simpl. set_solver.
    + apply IH; [|exact C]. intros j Hj. apply Hs. simpl. set_solver.
  - intros (Hl & Hr & Hp & Sl & C).
    destruct (Hs i) as (El & Er & Ep); [simpl; set_solver|].
    repeat split; try congruence.
    + eapply shape_ext; [|exact Sl]. intros j Hj. apply Hs. simpl. set_solver.
    + apply IH; [|exact C]. intros j Hj. apply Hs. simpl. set_solver.
Qed.

(** Every node of a tree is the top of a subtree at the end of a path. *)
Lemma decompose t :
  forall u, u ∈ ids t -> exists fs s, t = plug fs s /\ top_of s = Some u.
Proof.
  assert (G : forall s fs u, u ∈ ids s ->
            exists fs' s', plug fs s = plug fs' s' /\ top_of s' = Some u).
  { induction s as [|l IHl i r IHr]; intros fs u Hu; simpl in Hu; [set_solver|].
    apply elem_of_app in Hu. destruct Hu as [Hu|Hu].
    - destruct (IHl (FL i r :: fs) u Hu) as (fs' & s' & E & T).
      exists fs', s'. split; [exact E|exact T].
    - apply elem_of_cons in Hu. destruct Hu as [->|Hu].
      + exists fs, (Br l i r). split; reflexivity.
      + destruct (IHr (FR l i :: fs) u Hu) as (fs' & s' & E & T).
        exists fs', s'. split; [exact E|exact T]. }
  intros u Hu. exact (G t [] u Hu).
Qed.

Lemma top_of_in s u : top_of s = Some u -> u ∈ ids s.
Proof. destruct s; simpl; [discriminate|]. intros [= ->]. set_solver. Qed.

Lemma top_of_Some s u : top_of s = Some u -> exists l r, s = Br l u r.
Proof. destruct s; simpl; [discriminate|]. intros [= ->]. eauto. Qed.

Lemma fid_in fs f fs' : fs = f :: fs' -> fid f ∈ lefts fs ++ rights fs.
Proof. intros ->. destruct f; simpl; set_solver. Qed.

Lemma length_plug fs s s' :
  length (ids s') = length (ids s) ->
  length (ids (plug fs s')) = length (ids (plug fs s)).
Proof. intros H. rewrite !ids_plug, !length_app. lia. Qed.
(** ** Traversal *)

Lemma inOrder_spec t :
  forall fuel st par arr,
    shape (heap st) par t -> (depth t < fuel)%nat ->
    inOrder fuel (top_of t) arr st = (Ret (arr ++ ids t), st).
Proof.
  induction t as [|l IHl i r IHr]; intros fuel st par arr Hs Hf;
    (destruct fuel as [|fuel]; [simpl in Hf; lia|]).
  - simpl. now rewrite app_nil_r.
  - simpl in Hs, Hf. destruct Hs as (Hp & Hl & Hr & Sl & Sr).
    cbn [inOrder top_of].
    erewrite bind_Ret by apply field_eq. rewrite Hl.
    erewrite bind_Ret by (eapply IHl; [exact Sl|lia]).
    erewrite bind_Ret by apply field_eq. rewrite Hr.
    erewrite IHr by (first [exact Sr|lia]).
    cbn [ids]. now rewrite <- !app_assoc.
Qed.

(** ** The balance test and the climb to the nearest unbalanced node *)

Lemma is_balanced_pure n st : exists b, is_balanced n st = (Ret b, st).
Proof.
  destruct n as [n|]; [|now exists true].
  unfold is_balanced, mbind, M_bind, bind, field, ret.
  destruct (left (heap st !!! n)), (right (heap st !!! n));
    repeat case_decide; eexists; reflexivity.
Qed.

Lemma top_of_plug fs :
  fs <> [] -> forall s, exists j, top_of (plug fs s) = Some j /\ j ∈ lefts fs ++ rights fs.
Proof.
  induction fs as [|f fs IH]; [congruence|]. intros _ s.
  destruct fs as [|g fs].
  - destruct f; simpl; eexists; (split; [reflexivity|set_solver]).
  - destruct f as [i r|l i].
    + destruct (IH ltac:(congruence) (Br s i r)) as (j & E & Hj).
      exists j. split; [exact E|]. simpl in *. set_solver.
    + destruct (IH ltac:(congruence) (Br l i s)) as (j & E & Hj).
      exists j. split; [exact E|]. simpl in *. set_solver.
Qed.

Lemma find_unbalanced_spec fs :
  forall s st fuel i,
    top_of s = Some i ->
    root st = top_of (plug fs s) ->
    shape (heap st) None (plug fs s) ->
    NoDup (ids (plug fs s)) ->
    (length fs < fuel)%nat ->
    exists r, find_unbalanced fuel (Some i) st = (Ret r, st) /\
      match r with
      | None => True
      | Some u => u ∈ ids (plug fs s) /\ is_balanced (Some u) st = (Ret false, st)
      end.
Proof.
  induction fs as [|f fs IH]; intros s st fuel i Ht Hroot Hs Hnd Hf;
    (destruct fuel as [|fuel]; [simpl in Hf; lia|]);
    cbn [find_unbalanced];
    destruct (is_balanced_pure (Some i) st) as ([|] & Eb);
    erewrite bind_Ret by apply Eb; cbv beta iota.
  - erewrite bind_Ret by reflexivity. simpl in Hroot. rewrite Hroot, Ht.
    rewrite decide_True by reflexivity. exists None. split; reflexivity.
  - exists (Some i). split; [reflexivity|]. split; [|exact Eb].
    apply top_of_in. exact Ht.
  - erewrite bind_Ret by reflexivity.
    destruct (top_of_plug (f :: fs) ltac:(congruence) s) as (j & Ej & Hj).
    rewrite Hroot, Ej.
    assert (Hij : i <> j).
    { intros ->. rewrite ids_plug in Hnd. apply top_of_in in Ht.
      apply NoDup_app in Hnd. destruct Hnd as (_ & Hd & Hnd).
      apply NoDup_app in Hnd. destruct Hnd as (_ & Hd' & _).
      apply elem_of_app in Hj. destruct Hj as [Hj|Hj]; [|now apply (Hd' j)].
      apply (Hd j Hj). set_solver. }
    rewrite decide_False by congruence.
    apply shape_plug in Hs as Hs'. destruct Hs' as (Ss & Cs).
    destruct (top_of_Some _ _ Ht) as (sl & sr & ->). simpl in Ss.
    destruct Ss as (Hp & _).
    cbn [attr]. erewrite bind_Ret by apply field_eq. rewrite Hp. cbn [par_of].
    destruct f as [q r|l q]; cbn [fid plug] in *.
    + destruct (IH (Br (Br sl i sr) q r) st fuel q eq_refl Hroot Hs Hnd ltac:(simpl in Hf; lia))
        as (res & E & Hres).
      exists res. split; [exact E|exact Hres].
    + destruct (IH (Br l q (Br sl i sr)) st fuel q eq_refl Hroot Hs Hnd ltac:(simpl in Hf; lia))
        as (res & E & Hres).
      exists res. split; [exact E|exact Hres].
  - exists (Some i). split; [reflexivity|]. split; [|exact Eb].
    rewrite ids_plug. apply top_of_in in Ht. set_solver.
Qed.

(** ** Rebuilding a subtree *)

Lemma midpoint_bounds start end_ :
  start <= end_ -> start <= midpoint start end_ <= end_.
Proof.
  intros H. unfold midpoint. Z.div_mod_to_equations. lia.
Qed.

Lemma slice_empty nodes start end_ : start > end_ -> slice nodes start end_ = [].
Proof. intros H. unfold slice. replace (Z.to_nat (end_ - start + 1)) with O by lia. reflexivity. Qed.

Lemma slice_split nodes start end_ mid node :
  0 <= start -> start <= mid <= end_ ->
  nodes !! Z.to_nat mid = Some node ->
  slice nodes start end_ =
  slice nodes start (mid - 1) ++ node :: slice nodes (mid + 1) end_.
Proof.
  intros H0 Hm Hn. unfold slice.
  set (L := drop (Z.to_nat start) nodes).
  set (a := Z.to_nat (mid - start)).
  assert (HL : L !! a = Some node).
  { unfold L, a. rewrite lookup_drop. rewrite <- Hn. f_equal. lia. }
  replace (Z.to_nat (mid - 1 - start + 1)) with a by lia.
  replace (Z.to_nat (end_ - start + 1)) with (a + S (Z.to_nat (end_ - mid)))%nat by lia.
  replace (Z.to_nat (end_ - (mid + 1) + 1)) with (Z.to_nat (end_ - mid)) by lia.
  replace (drop (Z.to_nat (mid + 1)) nodes) with (drop (S a) L).
  2:{ unfold L. rewrite drop_drop. f_equal. lia. }
  rewrite <- take_take_drop. f_equal.
  rewrite (drop_S _ _ _ HL). reflexivity.
Qed.

Lemma slice_full nodes :
  slice nodes 0 (Z.of_nat (length nodes) - 1) = nodes.
Proof.
  unfold slice. simpl. rewrite drop_0.
  replace (Z.to_nat (Z.of_nat (length nodes) - 1 - 0 + 1)) with (length nodes) by lia.
  apply firstn_all.
Qed.

Lemma slice_sublist nodes start end_ : sublist (slice nodes start end_) nodes.
Proof.
  unfold slice. etrans; [apply sublist_take|apply sublist_drop].
Qed.

Lemma slice_length nodes start end_ :
  0 <= start -> start <= end_ + 1 -> end_ < Z.of_nat (length nodes) ->
  length (slice nodes start end_) = Z.to_nat (end_ - start + 1).
Proof.
  intros. unfold slice. rewrite length_take, length_drop. lia.
Qed.

Lemma build_ids nodes :
  forall fuel start end_,
    0 <= start -> end_ < Z.of_nat (length nodes) ->
    (Z.to_nat (end_ - start + 1) < fuel)%nat ->
    ids (build fuel nodes start end_) = slice nodes start end_.
Proof.
  induction fuel as [|fuel IH]; intros start end_ H0 He Hf; [lia|].
  cbn [build]. case_decide as Hc.
  - now rewrite slice_empty.
  - pose proof (midpoint_bounds start end_ ltac:(lia)) as Hm.
    cbv zeta.
    destruct (lookup_lt_is_Some_2 nodes (Z.to_nat (midpoint start end_)) ltac:(lia))
      as (node & Hn).
    rewrite Hn. cbn [ids].
    rewrite !IH by lia.
    symmetry. apply slice_split; [lia|lia|exact Hn].
Qed.

Lemma build_fuel nodes :
  forall fuel fuel' start end_,
    (Z.to_nat (end_ - start + 1) < fuel)%nat ->
    (Z.to_nat (end_ - start + 1) < fuel')%nat ->
    build fuel nodes start end_ = build fuel' nodes start end_.
Proof.
  induction fuel as [|fuel IH]; intros fuel' start end_ Hf Hf'; [lia|].
  destruct fuel' as [|fuel']; [lia|].
  cbn [build]. case_decide as Hc; [reflexivity|].
  pose proof (midpoint_bounds start end_ ltac:(lia)) as Hm.
  cbv zeta. destruct (nodes !! Z.to_nat (midpoint start end_)); [|reflexivity].
  f_equal; apply IH; lia.
Qed.

Lemma rebuild_tree_spec nodes :
  NoDup nodes ->
  forall fuel start end_ par st,
    0 <= start -> end_ < Z.of_nat (length nodes) ->
    (Z.to_nat (end_ - start + 1) < fuel)%nat ->
    exists h',
      rebuild_tree fuel nodes start end_ par st =
        (Ret (top_of (build fuel nodes start end_)), set_heap h' st) /\
      shape h' par (build fuel nodes start end_) /\
      (forall i, i ∉ slice nodes start end_ -> h' !!! i = heap st !!! i) /\
      (forall i, same_payload (h' !!! i) (heap st !!! i)).
Proof.
  intros Hnd.
  induction fuel as [|fuel IH]; intros start end_ par st H0 He Hf; [lia|].
  cbn [rebuild_tree build]. case_decide as Hc.
  - exists (heap st). rewrite set_heap_id. unfold same_payload. simpl. auto.
  - pose proof (midpoint_bounds start end_ ltac:(lia)) as Hm.
    cbv zeta. set (mid := midpoint start end_) in *.
    destruct (lookup_lt_is_Some_2 nodes (Z.to_nat mid) ltac:(lia)) as (node & Hn).
    rewrite Hn.
    pose proof (slice_split nodes start end_ mid node H0 Hm Hn) as Hsp.
    assert (Hnds : NoDup (slice nodes start end_)).
    { eapply sublist_NoDup; [exact Hnd|apply slice_sublist]. }
    rewrite Hsp in Hnds. apply NoDup_app in Hnds.
    destruct Hnds as (_ & Hd & Hnds). apply NoDup_cons in Hnds.
    destruct Hnds as (Hnr & _).
    assert (Hnl : node ∉ slice nodes start (mid - 1)) by (intros X; apply (Hd _ X); set_solver).
    assert (Hlr : forall j, j ∈ slice nodes start (mid - 1) -> j ∉ slice nodes (mid + 1) end_)
      by (intros j X Y; apply (Hd _ X); set_solver).
    erewrite bind_Ret by apply update_eq.
    set (h1 := <[node := with_parent par (heap st !!! node)]> (heap st)).
    destruct (IH start (mid - 1) (Some node) (set_heap h1 st) H0 ltac:(lia) ltac:(lia))
      as (h2 & E2 & S2 & O2 & P2).
    rewrite heap_set_heap in O2, P2. rewrite set_heap_set_heap in E2.
    erewrite bind_Ret by apply E2.
    erewrite bind_Ret by apply update_eq.
    rewrite heap_set_heap, set_heap_set_heap.
    set (bl := build fuel nodes start (mid - 1)) in *.
    set (h3 := <[node := with_left (top_of bl) (h2 !!! node)]> h2).
    destruct (IH (mid + 1) end_ (Some node) (set_heap h3 st) ltac:(lia) He ltac:(lia))
      as (h4 & E4 & S4 & O4 & P4).
    rewrite heap_set_heap in O4, P4. rewrite set_heap_set_heap in E4.
    erewrite bind_Ret by apply E4.
    erewrite bind_Ret by apply update_eq.
    rewrite heap_set_heap, set_heap_set_heap.
    set (br := build fuel nodes (mid + 1) end_) in *.
    set (h5 := <[node := with_right (top_of br) (h4 !!! node)]> h4).
    assert (Ibl : ids bl = slice nodes start (mid - 1)) by (apply build_ids; lia).
    assert (Ibr : ids br = slice nodes (mid + 1) end_) by (apply build_ids; lia).
    assert (E5 : h5 !!! node =
                 mkNode (data (heap st !!! node)) (top_of bl) (top_of br) par
                   (counter (heap st !!! node))).
    { unfold h5. rewrite lookup_total_insert_eq. rewrite (O4 node Hnr).
      unfold h3. rewrite lookup_total_insert_eq. rewrite (O2 node Hnl).
      unfold h1. rewrite lookup_total_insert_eq. reflexivity. }
    exists h5. split; [reflexivity|]. split; [|split].
    + cbn [shape]. rewrite E5. cbn [parent left right]. repeat split.
      * eapply shape_ext; [|exact S2]. intros j Hj. rewrite Ibl in Hj.
        assert (j <> node) by (intros ->; contradiction).
        unfold h5. rewrite lookup_total_insert_ne by congruence.
        rewrite (O4 j (Hlr j Hj)). unfold h3.
        rewrite lookup_total_insert_ne by congruence. unfold same_links. auto.
      * eapply shape_ext; [|exact S4]. intros j Hj. rewrite Ibr in Hj.
        assert (j <> node) by (intros ->; contradiction).
        unfold h5. rewrite lookup_total_insert_ne by congruence.
        unfold same_links. auto.
    + intros j Hj. rewrite Hsp in Hj.
      assert (j <> node) by set_solver.
      unfold h5. rewrite lookup_total_insert_ne by congruence.
      rewrite O4 by set_solver. unfold h3.
      rewrite lookup_total_insert_ne by congruence.
      rewrite O2 by set_solver. unfold h1.
      rewrite lookup_total_insert_ne by congruence. reflexivity.
    + intros j. destruct (decide (j = node)) as [->|Hne].
      * rewrite E5. unfold same_payload. auto.
      * unfold h5. rewrite lookup_total_insert_ne by congruence.
        destruct (P4 j) as (? & ?). unfold h3 in *.
        rewrite lookup_total_insert_ne in * by congruence.
        destruct (P2 j) as (? & ?). unfold h1 in *.
        rewrite lookup_total_insert_ne in * by congruence.
        unfold same_payload. split; congruence.
Qed.

(** ** rebalance *)

Lemma with_fuel_eq {A} (f : nat -> TM A) st : with_fuel f st = f (fuel_of st) st.
Proof. reflexivity. Qed.

Lemma top_of_plug_indep fs :
  fs <> [] -> forall s s', top_of (plug fs s) = top_of (plug fs s').
Proof.
  induction fs as [|f fs IH]; [congruence|]. intros _ s s'.
  destruct fs as [|g fs].
  - destruct f; reflexivity.
  - destruct f as [i r|l i]; cbn [plug]; apply IH; congruence.
Qed.

Lemma cshape_set_hole h f fs hole v :
  NoDup (lefts (f :: fs) ++ rights (f :: fs)) ->
  cshape h (f :: fs) hole ->
  cshape (<[fid f := set_hole f v (h !!! fid f)]> h) (f :: fs) v.
Proof.
  intros Hnd Hc. destruct f as [q r|l q]; cbn [cshape fid set_hole lefts rights] in *.
  - destruct Hc as (Hl & Hr & Hp & Sr & C).
    rewrite NoDup_app in Hnd. destruct Hnd as (Nl & Hd & Nr).
    rewrite NoDup_cons, NoDup_app in Nr. destruct Nr as (Hq & Nr & Hd' & Nrs).
    rewrite lookup_total_insert_eq. cbn [left right parent with_left].
    repeat split; try assumption.
    + eapply shape_ext; [|exact Sr]. intros j Hj.
      rewrite lookup_total_insert_ne by set_solver. unfold same_links; auto.
    + eapply cshape_ext; [|exact C]. intros j Hj.
      rewrite lookup_total_insert_ne; [unfold same_links; auto|].
      intros ->. apply elem_of_app in Hj. destruct Hj as [Hj|Hj]; [|set_solver].
      apply (Hd _ Hj). set_solver.
  - destruct Hc as (Hl & Hr & Hp & Sl & C).
    rewrite NoDup_app in Hnd. destruct Hnd as (Nl & Hd & Nr).
    rewrite !NoDup_app in Nl. destruct Nl as (Nls & Hd' & Nl & Hd'' & _).
    rewrite lookup_total_insert_eq. cbn [left right parent with_right].
    repeat split; try assumption.
    + eapply shape_ext; [|exact Sl]. intros j Hj.
      rewrite lookup_total_insert_ne by set_solver. unfold same_links; auto.
    + eapply cshape_ext; [|exact C]. intros j Hj.
      rewrite lookup_total_insert_ne; [unfold same_links; auto|].
      intros ->. apply elem_of_app in Hj. destruct Hj as [Hj|Hj].
      * apply (Hd' _ Hj). set_solver.
      * apply (Hd j); set_solver.
Qed.

Lemma NoDup_plug fs s :
  NoDup (ids (plug fs s)) ->
  NoDup (ids s) /\ NoDup (lefts fs ++ rights fs) /\
  (forall i, i ∈ ids s -> i ∉ lefts fs ++ rights fs).
Proof.
  rewrite ids_plug. rewrite !NoDup_app.
  intros (Nl & Hd & Ns & Hd' & Nr).
  repeat split; try assumption; set_solver.
Qed.

Lemma rebuilt_ids nodes : ids (rebuilt nodes) = nodes.
Proof.
  unfold rebuilt. rewrite build_ids by lia. apply slice_full.
Qed.

Lemma counted_plug h fs : forall s, counted h (plug fs s) -> counted h s.
Proof.
  induction fs as [|[i r|l i] fs IH]; intros s H; cbn [plug] in H; [exact H| |].
  - apply IH in H. cbn [counted] in H. tauto.
  - apply IH in H. cbn [counted] in H. tauto.
Qed.

Lemma rebalance_spec st fs s u :
  rep st (plug fs s) -> top_of s = Some u ->
  exists h',
    let s' := rebuilt (ids s) in
    let st' := set_root (top_of (plug fs s')) (set_heap h' st) in
    rebalance (Some u) st = (Ret tt, st') /\
    rep st' (plug fs s') /\
    (forall i, data (h' !!! i) = data (heap st !!! i)).
Proof.
  intros [Hroot Hshape Hnd Hfresh Hfuel Hsize _] Ht.
  apply shape_plug in Hshape as Hsh. destruct Hsh as (Ss & Cs).
  destruct (NoDup_plug _ _ Hnd) as (Ns & Nc & Hdisj).
  destruct (top_of_Some _ _ Ht) as (sl & sr & Es).
  assert (Hp : parent (heap st !!! u) = par_of fs).
  { rewrite Es in Ss. cbn [shape] in Ss. tauto. }
  assert (Hlen : (length (ids s) <= length (ids (plug fs s)))%nat).
  { rewrite ids_plug, !length_app. lia. }
  pose proof (depth_le_length s) as Hdep.
  set (nodes := ids s) in *.
  destruct (rebuild_tree_spec nodes Ns (fuel_of st) 0 (Z.of_nat (length nodes) - 1)
              (par_of fs) st ltac:(lia) ltac:(lia) ltac:(lia))
    as (h1 & E1 & S1 & O1 & P1).
  rewrite (build_fuel nodes (fuel_of st) (S (length nodes))) in E1, S1 by lia.
  fold (rebuilt nodes) in E1, S1. rewrite slice_full in O1.
  set (s' := rebuilt nodes) in *.
  assert (Is' : ids s' = nodes) by apply rebuilt_ids.
  assert (exists m, top_of s' = Some m) as (m & Tm).
  { destruct s' as [|l' m r']; [|eexists; reflexivity].
    simpl in Is'. apply top_of_in in Ht. fold nodes in Ht. rewrite <- Is' in Ht. set_solver. }
  destruct (top_of_Some _ _ Tm) as (sl' & sr' & Es').
  assert (Hpm : parent (h1 !!! m) = par_of fs).
  { rewrite Es' in S1. cbn [shape] in S1. tauto. }
  assert (Cs1 : cshape h1 fs (Some u)).
  { rewrite <- Ht. eapply cshape_ext; [|exact Cs]. intros j Hj.
    rewrite O1; [unfold same_links; auto|]. intros X. now apply (Hdisj j). }
  (* the store after the splice *)
  set (h2 := match fs with
             | [] => h1
             | f :: _ => <[fid f := set_hole f (Some m) (h1 !!! fid f)]> h1
             end).
  set (r2 := top_of (plug fs s')).
  assert (S2 : shape h2 None (plug fs s')).
  { apply shape_plug. unfold h2. destruct fs as [|f fs'].
    - split; [exact S1|exact I].
    - split.
      + eapply shape_ext; [|exact S1]. intros j Hj.
        rewrite lookup_total_insert_ne; [unfold same_links; auto|].
        intros <-. rewrite Is' in Hj. apply (Hdisj _ Hj).
        eapply fid_in; reflexivity.
      + rewrite Tm. eapply cshape_set_hole; [exact Nc|exact Cs1]. }
  assert (Ids2 : ids (plug fs s') = ids (plug fs s)).
  { rewrite !ids_plug, Is'. reflexivity. }
  assert (Hd2 : forall i, data (h2 !!! i) = data (heap st !!! i)).
  { intros i. unfold h2. destruct fs as [|f fs']; [apply P1|].
    destruct (decide (fid f = i)) as [<-|Hne].
    - rewrite lookup_total_insert_eq.
      destruct f; cbn [set_hole fid with_left with_right data]; apply P1.
    - rewrite lookup_total_insert_ne by assumption. apply P1. }
  destruct (count_node_spec (plug fs s') (fuel_of st) (set_root r2 (set_heap h2 st)) None)
    as (h3 & E3 & O3 & L3 & C3).
  { exact S2. }
  { rewrite Ids2. exact Hnd. }
  { pose proof (depth_le_length (plug fs s')). rewrite Ids2 in *. lia. }
  assert (Hfin :
    (rt ← get_root; with_fuel (fun fuel => count_node fuel rt);; mret tt)
      (set_root r2 (set_heap h2 st)) =
    (Ret tt, set_root r2 (set_heap h3 st))).
  { erewrite bind_Ret by reflexivity.
    erewrite bind_Ret.
    2:{ rewrite with_fuel_eq. cbn [root set_root]. exact E3. }
    reflexivity. }
  exists h3. cbv zeta. fold nodes. fold s'. fold r2.
  split; [|split].
  - unfold rebalance.
    erewrite bind_Ret by apply field_eq. rewrite Hp.
    erewrite bind_Ret.
    2:{ rewrite with_fuel_eq, <- Ht. eapply inOrder_spec; [exact Ss|lia]. }
    cbn [app]. fold nodes.
    erewrite bind_Ret by (rewrite with_fuel_eq; exact E1).
    rewrite Tm. cbn [attr].
    erewrite bind_Ret by apply field_eq. rewrite heap_set_heap, Hpm.
    unfold r2, h2 in *. destruct fs as [|f fs']; cbn [par_of].
    + erewrite bind_Ret by reflexivity.
      cbn [plug] in *. rewrite Tm in *. exact Hfin.
    + assert (Hup :
        (npl ← attr left (Some (fid f));
         if decide (npl = Some u)
         then update (fid f) (with_left (Some m))
         else update (fid f) (with_right (Some m))) (set_heap h1 st) =
        (Ret tt, set_heap (<[fid f := set_hole f (Some m) (h1 !!! fid f)]> h1) st)).
      { cbn [attr]. erewrite bind_Ret by apply field_eq. rewrite heap_set_heap.
        assert (Oq : h1 !!! fid f = heap st !!! fid f).
        { apply O1. intros X. apply (Hdisj _ X). eapply fid_in; reflexivity. }
        rewrite Oq.
        destruct f as [q r|l q]; cbn [fid set_hole cshape] in *.
        - destruct Cs as (Hl & _). rewrite Hl, Ht, decide_True by reflexivity.
          rewrite update_eq, heap_set_heap, set_heap_set_heap, Oq. reflexivity.
        - destruct Cs as (Hl & _). rewrite Hl, decide_False.
          + rewrite update_eq, heap_set_heap, set_heap_set_heap, Oq. reflexivity.
          + intros X. apply top_of_in in X. apply top_of_in in Ht.
            apply (Hdisj u Ht). cbn [lefts]. set_solver. }
      erewrite bind_Ret by exact Hup.
      rewrite (top_of_plug_indep (f :: fs') ltac:(congruence) s' s), <- Hroot in Hfin.
      replace (set_root (root st) (set_heap
                 (<[fid f:=set_hole f (Some m) (h1 !!! fid f)]> h1) st))
        with (set_heap (<[fid f:=set_hole f (Some m) (h1 !!! fid f)]> h1) st) in Hfin
        by (now destruct st).
      rewrite (top_of_plug_indep (f :: fs') ltac:(congruence) s' s), <- Hroot.
      exact Hfin.
  - constructor; cbn [root heap set_root set_heap next_ref size fuel_of].
    + reflexivity.
    + eapply shape_ext; [|exact S2]. intros j _. apply L3.
    + rewrite Ids2. exact Hnd.
    + intros i Hi. apply Hfresh. now rewrite <- Ids2.
    + rewrite Ids2. exact Hfuel.
    + rewrite Ids2. exact Hsize.
    + exact C3.
  - intros i. destruct (L3 i) as (_ & Hd3). rewrite Hd3.
    cbn [heap set_root set_heap]. apply Hd2.
Qed.

(** ** The conditional rebalance that ends every mutation *)

Lemma length_frames fs : (length fs <= length (lefts fs ++ rights fs))%nat.
Proof.
  induction fs as [|[i r|l i] fs IH]; cbn [lefts rights length]; [lia| |];
    rewrite ?length_app in *; cbn [length]; rewrite ?length_app; cbn [length]; lia.
Qed.

Lemma length_frames_plug fs s : (length fs + length (ids s) <= length (ids (plug fs s)))%nat.
Proof.
  pose proof (length_frames fs). rewrite ids_plug, !length_app in *. lia.
Qed.

Lemma fix_balance_spec st T start :
  rep st T -> start ∈ ids T ->
  exists st' T',
    fix_balance (Some start) st = (Ret tt, st') /\
    rep st' T' /\ ids T' = ids T /\
    (forall i, data (heap st' !!! i) = data (heap st !!! i)) /\
    same_params st st'.
Proof.
  intros Hrep Hin. unfold fix_balance.
  erewrite bind_Ret by reflexivity.
  destruct (self_balancing st) eqn:Hsb.
  2:{ exists st, T. unfold same_params. auto 10. }
  destruct (decompose T start Hin) as (fs & s & -> & Ht).
  destruct (find_unbalanced_spec fs s st (fuel_of st) start Ht)
    as (r & Er & Hr).
  { apply Hrep. } { apply Hrep. } { apply Hrep. }
  { pose proof (length_frames_plug fs s). pose proof (rep_fuel _ _ Hrep). lia. }
  erewrite bind_Ret by (rewrite with_fuel_eq; exact Er).
  destruct r as [u|].
  2:{ exists st, (plug fs s). unfold same_params. auto 10. }
  destruct Hr as (Hu & _).
  destruct (decompose _ u Hu) as (fs2 & s2 & E2 & Ht2).
  rewrite E2 in Hrep.
  destruct (rebalance_spec st fs2 s2 u Hrep Ht2) as (h' & Hreb).
  cbv zeta in Hreb. destruct Hreb as (Ereb & Hrep' & Hdata).
  eexists _, _. split; [exact Ereb|]. split; [exact Hrep'|].
  split; [rewrite E2, !ids_plug, rebuilt_ids; reflexivity|].
  split; [exact Hdata|]. unfold same_params. auto.
Qed.

(** ** add *)

Lemma new_node_eq key p st :
  new_node key p st =
  (Ret (next_ref st),
   mkTree (<[next_ref st := mkNode key None None p 0]> (heap st)) (Pos.succ (next_ref st))
          (root st) (size st) (top st) (bottom st) (self_balancing st)).
Proof. reflexivity. Qed.

Lemma attach_spec key st f fs :
  rep st (plug (f :: fs) Lf) ->
  exists st' T',
    attach key (fid f) (set_hole f) st = (Ret true, st') /\
    rep st' T' /\
    ids T' = lefts (f :: fs) ++ [next_ref st] ++ rights (f :: fs) /\
    data (heap st' !!! next_ref st) = key /\
    (forall i, i <> next_ref st -> data (heap st' !!! i) = data (heap st !!! i)) /\
    top st' = top st /\ bottom st' = bottom st /\
    self_balancing st' = self_balancing st.
Proof.
  intros [Hroot Hshape Hnd Hfresh Hfuel Hsize _].
  set (new := next_ref st). set (q := fid f).
  set (T1 := plug (f :: fs) (leaf new)).
  assert (Iq : q ∈ ids (plug (f :: fs) Lf)).
  { rewrite ids_plug. cbn [ids app]. eapply fid_in. reflexivity. }
  assert (Hqn : q <> new).
  { intros X. pose proof (Hfresh q Iq). unfold new in X. lia. }
  assert (Hnew : new ∉ ids (plug (f :: fs) Lf)).
  { intros X. pose proof (Hfresh new X). unfold new in *. lia. }
  apply shape_plug in Hshape as Hsh. destruct Hsh as (_ & Cs).
  destruct (NoDup_plug _ _ Hnd) as (_ & Nc & _).
  rewrite ids_plug in Hnew. cbn [ids app] in Hnew.
  set (h1 := <[new := mkNode key None None (Some q) 0]> (heap st)).
  set (h2 := <[q := set_hole f (Some new) (h1 !!! q)]> h1).
  assert (S2 : shape h2 None T1).
  { apply shape_plug. split.
    - cbn [shape leaf par_of]. unfold h2. rewrite lookup_total_insert_ne by exact Hqn.
      unfold h1. rewrite lookup_total_insert_eq. cbn. auto.
    - cbn [top_of leaf]. eapply cshape_set_hole; [exact Nc|].
      eapply cshape_ext; [|exact Cs]. intros j Hj. unfold h1.
      rewrite lookup_total_insert_ne; [unfold same_links; auto|].
      intros <-. contradiction. }
  assert (I1 : ids T1 = lefts (f :: fs) ++ [new] ++ rights (f :: fs)).
  { unfold T1. rewrite ids_plug. reflexivity. }
  assert (L1 : length (ids T1) = S (length (ids (plug (f :: fs) Lf)))).
  { rewrite I1, ids_plug, !length_app. cbn [length ids]. lia. }
  assert (N1 : NoDup (ids T1)).
  { rewrite I1. rewrite ids_plug in Hnd. cbn [ids app] in Hnd.
    apply NoDup_app in Hnd. destruct Hnd as (A & B & C).
    apply NoDup_app. split; [exact A|]. split.
    - intros x Hx Hx'. apply elem_of_app in Hx'. destruct Hx' as [Hx'|Hx'].
      + apply list_elem_of_singleton in Hx'. subst x. apply Hnew. set_solver.
      + now apply (B x).
    - cbn [app]. apply NoDup_cons. split; [|exact C]. set_solver. }
  set (st1 := mkTree h2 (Pos.succ new) (root st) (size st + 1) (top st) (bottom st)
                (self_balancing st)).
  assert (Hr1 : root st = top_of T1).
  { rewrite Hroot. unfold T1. apply top_of_plug_indep. congruence. }
  destruct (count_node_spec T1 (fuel_of st1) st1 None S2 N1) as (h3 & E3 & O3 & L3 & C3).
  { pose proof (depth_le_length T1). unfold st1, fuel_of in *. cbn [next_ref] in *. fold new in Hfuel. lia. }
  set (st2 := set_heap h3 st1) in *.
  assert (R2 : rep st2 T1).
  { constructor; unfold st2, st1; cbn [root heap set_heap next_ref size fuel_of].
    - exact Hr1.
    - eapply shape_ext; [|exact S2]. intros j _. apply L3.
    - exact N1.
    - intros i Hi. rewrite I1 in Hi. fold new.
      assert (i = new \/ i ∈ ids (plug (f :: fs) Lf)) as [->|Hi'].
      { rewrite ids_plug. cbn [ids app]. set_solver. }
      + lia.
      + pose proof (Hfresh i Hi'). fold new in H. lia.
    - rewrite L1. unfold fuel_of in *. cbn [next_ref set_heap]. fold new in Hfuel. lia.
    - rewrite L1, Hsize. lia.
    - exact C3. }
  destruct (fix_balance_spec st2 T1 q R2) as (st3 & T3 & E4 & R3 & I3 & D3 & P3).
  { rewrite I1. rewrite ids_plug in Iq. cbn [ids app] in Iq. set_solver. }
  exists st3, T3. split.
  { unfold attach.
    erewrite bind_Ret by apply new_node_eq. fold new q.
    erewrite bind_Ret by apply update_eq. cbn [heap]. fold h1 h2.
    erewrite bind_Ret by reflexivity.
    erewrite bind_Ret by reflexivity.
    rewrite <- Hr1 in E3.
    erewrite bind_Ret by (rewrite with_fuel_eq; exact E3).
    erewrite bind_Ret by exact E4. reflexivity. }
  split; [exact R3|]. split; [now rewrite I3|].
  assert (D2 : forall i, data (heap st2 !!! i) =
                         if decide (i = new) then key else data (heap st !!! i)).
  { intros i. unfold st2. cbn [heap set_heap]. destruct (L3 i) as (_ & ->).
    unfold st1. cbn [heap]. unfold h2.
    destruct (decide (q = i)) as [<-|Hne].
    - rewrite lookup_total_insert_eq, decide_False by exact Hqn.
      unfold h1. rewrite lookup_total_insert_ne by congruence.
      destruct f; reflexivity.
    - rewrite lookup_total_insert_ne by exact Hne. unfold h1.
      case_decide as Hi.
      + subst i. now rewrite lookup_total_insert_eq.
      + now rewrite lookup_total_insert_ne by congruence. }
  destruct P3 as (? & ? & ? & ?).
  repeat split.
  - rewrite D3, D2, decide_True; reflexivity.
  - intros i Hi. rewrite D3, D2, decide_False; [reflexivity|exact Hi].
  - assumption.
  - assumption.
  - assumption.
Qed.

Lemma keys_Br h l i r : keys h (Br l i r) = keys h l ++ data (h !!! i) :: keys h r.
Proof. unfold keys. cbn [ids]. now rewrite fmap_app. Qed.

Lemma keys_plug h fs s :
  keys h (plug fs s) =
  ((fun i => data (h !!! i)) <$> lefts fs) ++ keys h s ++
  ((fun i => data (h !!! i)) <$> rights fs).
Proof. unfold keys. now rewrite ids_plug, !fmap_app. Qed.

Lemma keys_ext h h' t :
  (forall i, i ∈ ids t -> data (h' !!! i) = data (h !!! i)) -> keys h' t = keys h t.
Proof.
  intros H. unfold keys. apply list_fmap_ext. intros k i Hi. apply H.
  eapply list_elem_of_lookup_2. exact Hi.
Qed.

(** The descent of [add]: either the key is met, or the loop ends at a free
    slot, reached along a path that keeps smaller keys to the left and larger
    keys to the right. *)
Lemma add_loop_descend key s :
  forall fs st fuel c,
    top_of s = Some c ->
    shape (heap st) (par_of fs) s ->
    (depth s <= fuel)%nat ->
    (add_loop fuel key c st = (Ret false, st) /\ key ∈ keys (heap st) s) \/
    (exists f fs',
        plug fs s = plug (f :: fs') Lf /\
        add_loop fuel key c st = attach key (fid f) (set_hole f) st /\
        (StronglySorted Z.lt (keys (heap st) s) ->
         below (heap st) key (lefts fs) -> above (heap st) key (rights fs) ->
         below (heap st) key (lefts (f :: fs')) /\
         above (heap st) key (rights (f :: fs')))).
Proof.
  induction s as [|l IHl i r IHr]; intros fs st fuel c Ht Hs Hf; [discriminate|].
  cbn [top_of] in Ht. injection Ht as <-.
  destruct fuel as [|fuel]; [cbn [depth] in Hf; lia|]. cbn [depth] in Hf.
  cbn [shape] in Hs. destruct Hs as (Hp & Hl & Hr & Sl & Sr).
  cbn [add_loop]. erewrite bind_Ret by apply field_eq. unfold id, compareTo.
  rewrite keys_Br.
  destruct (Z.compare_spec (data (heap st !!! i)) key) as [Heq|Hlt|Hgt].
  - left. split; [reflexivity|]. set_solver.
  - (* data < key: go right *)
    rewrite Hr. destruct r as [|rl j rr].
    + right. exists (FR l i), fs. cbn [top_of set_hole fid plug].
      split; [reflexivity|]. split; [reflexivity|].
      intros Hsort Hb Ha. cbn [lefts rights]. split; [|exact Ha].
      unfold below in *. rewrite !Forall_app. split; [exact Hb|]. split.
      * apply StronglySorted_app in Hsort. destruct Hsort as (H1 & _).
        rewrite Forall_forall. intros x Hx.
        assert (data (heap st !!! x) < data (heap st !!! i)); [|lia].
        apply H1; [|set_solver]. unfold keys. apply list_elem_of_fmap. eauto.
      * apply Forall_singleton. exact Hlt.
    + destruct (IHr (FR l i :: fs) st fuel j eq_refl Sr ltac:(lia))
        as [(E & Hin)|(f & fs' & Ep & E & Hb)].
      * left. split; [exact E|]. set_solver.
      * right. exists f, fs'. split; [exact Ep|]. split; [exact E|].
        intros Hsort Hbl Hab. apply Hb.
        -- apply StronglySorted_app in Hsort. destruct Hsort as (_ & _ & H3).
           apply StronglySorted_cons in H3. tauto.
        -- cbn [lefts]. unfold below in *. rewrite !Forall_app.
           split; [exact Hbl|]. split; [|apply Forall_singleton; exact Hlt].
           apply StronglySorted_app in Hsort. destruct Hsort as (H1 & _).
           rewrite Forall_forall. intros x Hx.
           assert (data (heap st !!! x) < data (heap st !!! i)); [|lia].
           apply H1; [|set_solver]. unfold keys. apply list_elem_of_fmap. eauto.
        -- exact Hab.
  - (* key < data: go left *)
    rewrite Hl.
    assert (Habove : StronglySorted Z.lt
                       (keys (heap st) l ++ data (heap st !!! i) :: keys (heap st) (r)) ->
                     above (heap st) key (rights fs) ->
                     above (heap st) key (rights (FL i r :: fs))).
    { intros Hsort Hab. cbn [rights]. unfold above in *.
      apply Forall_cons. split; [lia|]. rewrite Forall_app. split; [|exact Hab].
      apply StronglySorted_app in Hsort. destruct Hsort as (_ & _ & H3).
      apply StronglySorted_cons in H3. destruct H3 as (H3 & _).
      rewrite Forall_forall in H3. rewrite Forall_forall. intros x Hx.
      assert (data (heap st !!! i) < data (heap st !!! x)); [|lia].
      apply H3. unfold keys. apply list_elem_of_fmap. eauto. }
    destruct l as [|ll j lr].
    + right. exists (FL i r), fs. cbn [top_of set_hole fid plug].
      split; [reflexivity|]. split; [reflexivity|].
      intros Hsort Hb Ha. split; [exact Hb|]. now apply Habove.
    + destruct (IHl (FL i r :: fs) st fuel j eq_refl Sl ltac:(lia))
        as [(E & Hin)|(f & fs' & Ep & E & Hb)].
      * left. split; [exact E|]. set_solver.
      * right. exists f, fs'. split; [exact Ep|]. split; [exact E|].
        intros Hsort Hbl Hab. apply Hb.
        -- apply StronglySorted_app in Hsort. tauto.
        -- exact Hbl.
        -- now apply Habove.
Qed.

Lemma rep_Lf st T : rep st T -> root st = None -> T = Lf.
Proof. intros H E. destruct T; [reflexivity|]. rewrite (rep_root _ _ H) in E. discriminate. Qed.

Lemma add_spec key st T :
  rep st T ->
  exists st' T' b,
    add key st = (Ret b, st') /\ rep st' T' /\
    top st' = top st /\ bottom st' = bottom st /\
    self_balancing st' = self_balancing st /\
    (StronglySorted Z.lt (keys (heap st) T) ->
     StronglySorted Z.lt (keys (heap st') T') /\
     if b : bool
     then (key ∉ keys (heap st) T) /\ keys (heap st') T' ≡ₚ key :: keys (heap st) T
     else key ∈ keys (heap st) T /\ st' = st).
Proof.
  intros Hrep. unfold add. erewrite bind_Ret by reflexivity.
  destruct (root st) as [c|] eqn:Hroot.
  - (* descent *)
    rewrite (rep_root _ _ Hrep) in Hroot.
    destruct (add_loop_descend key T [] st (fuel_of st) c Hroot)
      as [(E & Hin)|(f & fs' & Ep & E & Hb)].
    { apply Hrep. }
    { pose proof (depth_le_length T). pose proof (rep_fuel _ _ Hrep). lia. }
    + exists st, T, false. rewrite with_fuel_eq. split; [exact E|].
      split; [exact Hrep|]. do 3 (split; [reflexivity|]). intros Hs. auto.
    + change (T = plug (f :: fs') Lf) in Ep. subst T.
      destruct (attach_spec key st f fs' Hrep)
        as (st' & T' & Ea & Hrep' & Hids & Hnew & Hold & Ht & Hbo & Hsb).
      exists st', T', true. rewrite with_fuel_eq, E.
      split; [exact Ea|]. split; [exact Hrep'|]. repeat split; try assumption.
      * (* sorted *)
        specialize (Hb H (Forall_nil_2 _) (Forall_nil_2 _)).
        destruct Hb as (Hbl & Hab).
        assert (Hfr : next_ref st ∉ ids (plug (f :: fs') Lf)).
        { intros X. pose proof (rep_fresh _ _ Hrep _ X). lia. }
        rewrite ids_plug in Hfr. cbn [ids app] in Hfr.
        unfold keys in *. rewrite Hids, !fmap_app. cbn [fmap list_fmap].
        rewrite Hnew. rewrite ids_plug in H. cbn [ids app] in H.
        rewrite fmap_app in H.
        rewrite (list_fmap_ext _ (fun i => data (heap st !!! i)) (lefts (f :: fs')))
          by (intros ? x Hx; apply Hold; intros ->;
              apply Hfr; apply list_elem_of_lookup_2 in Hx; set_solver).
        rewrite (list_fmap_ext _ (fun i => data (heap st !!! i)) (rights (f :: fs')))
          by (intros ? x Hx; apply Hold; intros ->;
              apply Hfr; apply list_elem_of_lookup_2 in Hx; set_solver).
        apply StronglySorted_app in H. destruct H as (H1 & H2 & H3).
        apply StronglySorted_app. split; [|split].
        -- intros x1 x2 Hx1 Hx2. apply elem_of_cons in Hx2. destruct Hx2 as [->|Hx2].
           ++ apply list_elem_of_fmap in Hx1. destruct Hx1 as (y & -> & Hy).
              unfold below in Hbl. rewrite Forall_forall in Hbl. now apply Hbl.
           ++ now apply H1.
        -- exact H2.
        -- apply StronglySorted_cons. split; [|exact H3].
           unfold above in Hab. rewrite Forall_forall in Hab. rewrite Forall_forall.
           intros x Hx. apply list_elem_of_fmap in Hx. destruct Hx as (y & -> & Hy).
           now apply Hab.
      * (* key is new *)
        specialize (Hb H (Forall_nil_2 _) (Forall_nil_2 _)).
        destruct Hb as (Hbl & Hab).
        unfold keys. rewrite ids_plug. cbn [ids app]. rewrite fmap_app.
        intros X. apply elem_of_app in X. destruct X as [X|X];
          apply list_elem_of_fmap in X; destruct X as (y & Ey & Hy).
        -- unfold below in Hbl. rewrite Forall_forall in Hbl.
           specialize (Hbl y Hy). cbv beta in Hbl. lia.
        -- unfold above in Hab. rewrite Forall_forall in Hab.
           specialize (Hab y Hy). cbv beta in Hab. lia.
      * (* the keys afterwards *)
        assert (Hfr : next_ref st ∉ ids (plug (f :: fs') Lf)).
        { intros X. pose proof (rep_fresh _ _ Hrep _ X). lia. }
        rewrite ids_plug in Hfr. cbn [ids app] in Hfr.
        unfold keys. rewrite Hids, ids_plug, !fmap_app. cbn [fmap list_fmap ids app].
        rewrite Hnew.
        rewrite (list_fmap_ext _ (fun i => data (heap st !!! i)) (lefts (f :: fs')))
          by (intros ? x Hx; apply Hold; intros ->;
              apply Hfr; apply list_elem_of_lookup_2 in Hx; set_solver).
        rewrite (list_fmap_ext _ (fun i => data (heap st !!! i)) (rights (f :: fs')))
          by (intros ? x Hx; apply Hold; intros ->;
              apply Hfr; apply list_elem_of_lookup_2 in Hx; set_solver).
        symmetry. apply Permutation_middle.
  - (* empty tree *)
    pose proof (rep_Lf _ _ Hrep Hroot) as ->.
    set (new := next_ref st).
    set (h1 := <[new := mkNode key None None None 0]> (heap st)).
    set (st1 := mkTree h1 (Pos.succ new) (Some new) (size st + 1) (top st) (bottom st)
                  (self_balancing st)).
    destruct (count_node_spec (leaf new) (fuel_of st1) st1 None) as (h2 & E2 & O2 & L2 & C2).
    { unfold leaf. cbn [shape]. unfold st1, h1. cbn [heap]. rewrite lookup_total_insert_eq. cbn. auto. }
    { cbn. apply NoDup_singleton. }
    { unfold st1, fuel_of. cbn [next_ref depth leaf]. lia. }
    exists (set_heap h2 st1), (leaf new), true. split.
    { erewrite bind_Ret by apply new_node_eq.
      erewrite bind_Ret by reflexivity.
      erewrite bind_Ret by reflexivity.
      erewrite bind_Ret by reflexivity.
      erewrite bind_Ret by (rewrite with_fuel_eq; exact E2). reflexivity. }
    split.
    { constructor; unfold st1; cbn [root heap set_heap next_ref size fuel_of leaf ids app top_of length].
      - reflexivity.
      - eapply shape_ext; [intros j _; apply L2|]. unfold leaf. cbn [shape].
        unfold st1, h1. cbn [heap]. rewrite lookup_total_insert_eq. cbn. auto.
      - apply NoDup_singleton.
      - intros i Hi. apply list_elem_of_singleton in Hi. subst. lia.
      - unfold fuel_of, leaf. cbn [next_ref set_heap ids app length]. lia.
      - rewrite (rep_size _ _ Hrep). unfold leaf. cbn [ids app length]. lia.
      - exact C2. }
    repeat split; try reflexivity.
    + unfold keys. cbn. repeat constructor.
    + unfold keys. cbn. set_solver.
    + unfold keys. cbn. destruct (L2 new) as (_ & ->).
      unfold st1, h1. cbn [heap]. rewrite lookup_total_insert_eq. reflexivity.
Qed.

(** ** Ascending iteration *)

Lemma next_of_app_l l1 l2 x a :
  a ∈ l1 -> next_of (l1 ++ l2) x a = next_of l1 (head_or l2 x) a.
Proof.
  induction l1 as [|b l1 IH]; intros Ha; [set_solver|].
  cbn [app next_of]. case_decide as Hab.
  - destruct l1; reflexivity.
  - apply IH. set_solver.
Qed.

Lemma next_of_app_r l1 l2 x a :
  a ∉ l1 -> next_of (l1 ++ l2) x a = next_of l2 x a.
Proof.
  induction l1 as [|b l1 IH]; intros Ha; [reflexivity|].
  cbn [app next_of]. rewrite decide_False by set_solver. apply IH. set_solver.
Qed.

Lemma next_of_mid pre a rest x :
  a ∉ pre -> next_of (pre ++ a :: rest) x a = head_or rest x.
Proof.
  intros Ha. rewrite next_of_app_r by exact Ha.
  cbn [next_of]. rewrite decide_True by reflexivity. reflexivity.
Qed.

Lemma leftmost_spec s :
  forall fuel st par c,
    top_of s = Some c -> shape (heap st) par s -> (depth s <= fuel)%nat ->
    exists m rest, ids s = m :: rest /\ leftmost fuel c st = (Ret m, st).
Proof.
  induction s as [|l IHl i r _]; intros fuel st par c Ht Hs Hf; [discriminate|].
  injection Ht as <-. cbn [depth] in Hf.
  destruct fuel as [|fuel]; [lia|].
  cbn [shape] in Hs. destruct Hs as (_ & Hl & _ & Sl & _).
  cbn [leftmost]. erewrite bind_Ret by apply field_eq. rewrite Hl.
  destruct l as [|ll j lr].
  - exists i, (ids r). split; reflexivity.
  - destruct (IHl fuel st (Some i) j eq_refl Sl ltac:(lia)) as (m & rest & E & El).
    exists m, (rest ++ i :: ids r). split; [|exact El].
    cbn [ids] in *. rewrite E. reflexivity.
Qed.

Lemma successor_spec s :
  forall st par k x,
    shape (heap st) par s -> NoDup (ids s) ->
    (forall c, top_of s = Some c ->
       forall fuel, (k < fuel)%nat -> climb fuel c par st = (Ret x, st)) ->
    (k + depth s <= fuel_of st)%nat ->
    forall a, a ∈ ids s ->
      successor (Some a) st = (Ret (next_of (ids s) x a), st).
Proof.
  induction s as [|l IHl i r IHr]; intros st par k x Hs Hnd Hexit Hk a Ha;
    [set_solver|].
  cbn [shape] in Hs. destruct Hs as (Hp & Hl & Hr & Sl & Sr).
  destruct (NoDup_ids_Br _ _ _ Hnd) as (Nl & Nr & Il & Ir & Hdisj).
  cbn [depth] in Hk. cbn [ids] in *.
  apply elem_of_app in Ha. destruct Ha as [Ha|Ha].
  - (* in the left subtree *)
    rewrite next_of_app_l by exact Ha. cbn [head_or].
    apply (IHl st (Some i) (S k) (Some i) Sl Nl); [|lia|exact Ha].
    intros c Hc fuel Hfuel. destruct fuel as [|fuel]; [lia|].
    cbn [climb]. erewrite bind_Ret by apply field_eq.
    rewrite Hl, Hc, decide_True by reflexivity. reflexivity.
  - rewrite next_of_app_r by (intros X; apply elem_of_cons in Ha;
      destruct Ha as [->|Ha]; [contradiction|now apply (Hdisj a)]).
    apply elem_of_cons in Ha. destruct Ha as [->|Ha].
    + (* the top node itself *)
      cbn [next_of]. rewrite decide_True by reflexivity.
      unfold successor. erewrite bind_Ret by apply field_eq. rewrite Hr.
      destruct r as [|rl j rr].
      * cbn [top_of ids].
        erewrite bind_Ret by apply field_eq. rewrite Hp, with_fuel_eq.
        apply (Hexit i eq_refl). lia.
      * destruct (leftmost_spec (Br rl j rr) (fuel_of st) st (Some i) j eq_refl Sr
                    ltac:(lia)) as (m & rest & E & El).
        cbn [top_of]. erewrite bind_Ret by (rewrite with_fuel_eq; exact El).
        rewrite E. reflexivity.
    + (* in the right subtree *)
      cbn [next_of]. rewrite decide_False by (intros ->; contradiction).
      apply (IHr st (Some i) (S k) x Sr Nr); [|lia|exact Ha].
      intros c Hc fuel Hfuel. destruct fuel as [|fuel]; [lia|].
      cbn [climb]. erewrite bind_Ret by apply field_eq.
      rewrite Hl, decide_False.
      * erewrite bind_Ret by apply field_eq. rewrite Hp.
        apply (Hexit i eq_refl). lia.
      * intros X. apply top_of_in in X. apply top_of_in in Hc.
        now apply (Hdisj c).
Qed.

Lemma successor_in_tree st T pre a rest :
  rep st T -> ids T = pre ++ a :: rest ->
  successor (Some a) st = (Ret (head rest), st).
Proof.
  intros Hrep E.
  pose proof (rep_nodup _ _ Hrep) as Hnd.
  rewrite (successor_spec T st None O None (rep_shape _ _ Hrep) Hnd).
  - rewrite E, next_of_mid; [destruct rest; reflexivity|].
    rewrite E in Hnd. apply NoDup_app in Hnd. destruct Hnd as (_ & Hd & Hnd).
    intros X. apply (Hd a X). set_solver.
  - intros c _ fuel Hf. destruct fuel as [|fuel]; [lia|]. reflexivity.
  - pose proof (depth_le_length T). pose proof (rep_fuel _ _ Hrep). lia.
  - rewrite E. set_solver.
Qed.

Lemma it_next_spec st T it a rest :
  rep st T -> at_pos T it (a :: rest) ->
  it_next (st, it) = (Ret (data (heap st !!! a)), (st, mkIter (Some a) (head rest))).
Proof.
  intros Hrep ((pre & E) & Hc). cbn [head] in Hc.
  unfold it_next. erewrite bind_Ret by reflexivity. cbn [snd].
  unfold hasNext. rewrite Hc, bool_decide_true by congruence.
  erewrite bind_Ret by reflexivity.
  erewrite bind_Ret.
  2:{ unfold on_tree. cbn [fst snd]. now rewrite (successor_in_tree st T pre a rest Hrep E). }
  erewrite bind_Ret by reflexivity.
  erewrite bind_Ret by reflexivity.
  reflexivity.
Qed.

Lemma it_next_stop st it :
  current it = None -> it_next (st, it) = (Raise StopIteration, (st, it)).
Proof.
  intros Hc. unfold it_next. erewrite bind_Ret by reflexivity. cbn [snd].
  unfold hasNext. rewrite Hc. reflexivity.
Qed.

Lemma at_pos_next T it a rest p :
  at_pos T it (a :: rest) -> at_pos T (mkIter p (head rest)) rest.
Proof.
  intros ((pre & E) & _). split; [|reflexivity].
  exists (pre ++ [a]). now rewrite <- app_assoc.
Qed.

Lemma drain_spec st T :
  rep st T ->
  forall rest it acc fuel,
    at_pos T it rest -> (length rest < fuel)%nat ->
    exists it',
      drain fuel acc (st, it) =
      (Ret (acc ++ ((fun i => data (heap st !!! i)) <$> rest)), (st, it')).
Proof.
  intros Hrep. induction rest as [|a rest IH]; intros it acc fuel Hpos Hf;
    (destruct fuel as [|fuel]; [cbn [length] in Hf; lia|]); cbn [drain].
  - destruct Hpos as (_ & Hc). cbn [head] in Hc.
    rewrite (it_next_stop st it Hc). exists it. cbn. now rewrite app_nil_r.
  - rewrite (it_next_spec st T it a rest Hrep Hpos).
    destruct (IH (mkIter (Some a) (head rest)) (acc ++ [data (heap st !!! a)]) fuel)
      as (it' & E).
    { eapply at_pos_next. exact Hpos. }
    { cbn [length] in Hf. lia. }
    exists it'. rewrite E. cbn [fmap list_fmap]. now rewrite <- app_assoc.
Qed.

Lemma getSmallestValue_spec st T :
  rep st T -> getSmallestValue (root st) st = (Ret (head (ids T)), st).
Proof.
  intros Hrep. rewrite (rep_root _ _ Hrep).
  destruct T as [|l i r]; [reflexivity|].
  destruct (leftmost_spec (Br l i r) (fuel_of st) st None i eq_refl (rep_shape _ _ Hrep))
    as (m & rest & E & El).
  { pose proof (depth_le_length (Br l i r)). pose proof (rep_fuel _ _ Hrep). lia. }
  cbn [top_of getSmallestValue].
  erewrite bind_Ret by (rewrite with_fuel_eq; exact El).
  rewrite E. reflexivity.
Qed.

Lemma iterator_spec st T :
  rep st T -> exists it, iterator st = Ret it /\ at_pos T it (ids T).
Proof.
  intros Hrep. unfold iterator. rewrite (getSmallestValue_spec st T Hrep).
  eexists. split; [reflexivity|]. split; [exists []; reflexivity|reflexivity].
Qed.

Lemma to_list_spec st T : rep st T -> to_list st = Ret (keys (heap st) T).
Proof.
  intros Hrep. unfold to_list.
  destruct (iterator_spec st T Hrep) as (it & -> & Hpos).
  erewrite bind_Ret.
  2:{ unfold it_iter. erewrite bind_Ret by reflexivity.
      erewrite bind_Ret.
      2:{ unfold on_tree. cbn [fst snd]. now rewrite (getSmallestValue_spec st T Hrep). }
      reflexivity. }
  cbn [fst snd].
  destruct (drain_spec st T Hrep (ids T) (mkIter (pending it) (head (ids T))) [] (fuel_of st))
    as (it' & E).
  { split; [exists []; reflexivity|reflexivity]. }
  { apply Hrep. }
  rewrite E. reflexivity.
Qed.

(** ** remove *)

Lemma rep_linked st t : rep st t -> linked st t.
Proof. intros []. now constructor. Qed.

(** Recomputing the counters from the root restores [rep]. *)
Lemma recount st t :
  linked st t ->
  exists h',
    count_node (fuel_of st) (root st) st = (Ret (Z.of_nat (length (ids t))), set_heap h' st) /\
    rep (set_heap h' st) t /\
    (forall i, data (h' !!! i) = data (heap st !!! i)).
Proof.
  intros [Hroot Hshape Hnd Hfresh Hfuel Hsize].
  destruct (count_node_spec t (fuel_of st) st None Hshape Hnd) as (h' & E & O & L & C).
  { pose proof (depth_le_length t). lia. }
  exists h'. rewrite Hroot. split; [exact E|]. split; [|intros i; apply L].
  constructor; cbn [root heap set_heap size]; try assumption.
  eapply shape_ext; [|exact Hshape]. intros j _. apply L.
Qed.

Lemma shape_set_parent h cl x cr p p' :
  NoDup (ids (Br cl x cr)) -> shape h p (Br cl x cr) ->
  shape (<[x := with_parent p' (h !!! x)]> h) p' (Br cl x cr).
Proof.
  intros Hnd Hs. destruct (NoDup_ids_Br _ _ _ Hnd) as (_ & _ & Il & Ir & _).
  cbn [shape] in *. destruct Hs as (_ & Hl & Hr & Sl & Sr).
  rewrite lookup_total_insert_eq. cbn [parent left right with_parent].
  repeat split; try assumption.
  - eapply shape_ext; [|exact Sl]. intros j Hj.
    rewrite lookup_total_insert_ne by (intros ->; contradiction). unfold same_links; auto.
  - eapply shape_ext; [|exact Sr]. intros j Hj.
    rewrite lookup_total_insert_ne by (intros ->; contradiction). unfold same_links; auto.
Qed.

Lemma shape_reparent h c p p' :
  NoDup (ids c) -> shape h p c -> shape (reparent c p' h) p' c.
Proof.
  destruct c as [|cl x cr]; [intros; exact I|]. apply shape_set_parent.
Qed.

Lemma reparent_other h c p i : i ∉ ids c -> reparent c p h !!! i = h !!! i.
Proof.
  unfold reparent. destruct c as [|cl x cr]; [reflexivity|]. cbn [top_of ids].
  intros Hi. rewrite lookup_total_insert_ne by set_solver. reflexivity.
Qed.

Lemma reparent_payload h c p i : same_payload (reparent c p h !!! i) (h !!! i).
Proof.
  unfold reparent. destruct c as [|cl x cr]; [split; reflexivity|]. cbn [top_of].
  destruct (decide (x = i)) as [->|Hne].
  - rewrite lookup_total_insert_eq. split; reflexivity.
  - rewrite lookup_total_insert_ne by exact Hne. split; reflexivity.
Qed.

Lemma set_hole_payload f v n : same_payload (set_hole f v n) n.
Proof. destruct f; split; reflexivity. Qed.

Lemma splice_out_spec st F l n r :
  root st = top_of (plug F (Br l n r)) ->
  shape (heap st) None (plug F (Br l n r)) ->
  NoDup (ids (plug F (Br l n r))) ->
  l = Lf \/ r = Lf ->
  let c := match l with Lf => r | _ => l end in
  exists h',
    splice_out n st =
      (Ret tt, set_size (size st + -1) (set_root (top_of (plug F c)) (set_heap h' st))) /\
    shape h' None (plug F c) /\
    (forall i, same_payload (h' !!! i) (heap st !!! i)).
Proof.
  intros Hroot Hshape Hnd Hone c.
  apply shape_plug in Hshape as Hsh. destruct Hsh as (Ss & Cs).
  destruct (NoDup_plug _ _ Hnd) as (Ns & Nc & Hdisj).
  cbn [shape] in Ss. destruct Ss as (Hp & Hl & Hr & Sl & Sr).
  destruct (NoDup_ids_Br _ _ _ Ns) as (Nl & Nr & Il & Ir & _).
  assert (Hc : (match top_of l with Some _ => top_of l | None => top_of r end) = top_of c).
  { unfold c. destruct l; reflexivity. }
  assert (Sc : shape (heap st) (Some n) c) by (unfold c; destruct l; assumption).
  assert (Nc' : NoDup (ids c)) by (unfold c; destruct l; assumption).
  assert (Ic : forall i, i ∈ ids c -> i ∈ ids (Br l n r)).
  { unfold c. intros i Hi. cbn [ids]. destruct l; set_solver. }
  assert (Inc : n ∉ ids c) by (unfold c; destruct l; assumption).
  unfold splice_out.
  erewrite bind_Ret by apply field_eq. rewrite Hl.
  erewrite bind_Ret by apply field_eq. rewrite Hr. cbv zeta. rewrite Hc.
  erewrite bind_Ret by apply field_eq. rewrite Hp.
  destruct F as [|f F']; cbn [par_of].
  - exists (reparent c None (heap st)).
    split; [|split].
    + erewrite bind_Ret by reflexivity.
      rewrite (bind_Ret _ _ _ tt
                 (set_heap (reparent c None (heap st)) (set_root (top_of c) st))).
      2:{ unfold reparent. destruct (top_of c); [reflexivity|].
          now destruct st. }
      reflexivity.
    + cbn [plug]. eapply shape_reparent; eassumption.
    + intros i. apply reparent_payload.
  - set (q := fid f).
    assert (Hq : q ∈ lefts (f :: F') ++ rights (f :: F')) by (eapply fid_in; reflexivity).
    set (h1 := <[q := set_hole f (top_of c) (heap st !!! q)]> (heap st)).
    assert (Hup :
      (ql ← field left q;
       if decide (Some n = ql) then update q (with_left (top_of c))
       else update q (with_right (top_of c))) st = (Ret tt, set_heap h1 st)).
    { erewrite bind_Ret by apply field_eq. unfold h1, q.
      destruct f as [q' rr|ll q']; cbn [fid set_hole cshape top_of] in *.
      - destruct Cs as (Hql & _). rewrite Hql, decide_True by reflexivity. apply update_eq.
      - destruct Cs as (Hql & _). rewrite Hql, decide_False; [apply update_eq|].
        intros X. symmetry in X. apply top_of_in in X.
        apply (Hdisj n); [set_solver|]. cbn [lefts]. set_solver. }
    exists (reparent c (Some q) h1). split; [|split].
    + erewrite bind_Ret by exact Hup.
      rewrite (bind_Ret _ _ _ tt (set_heap (reparent c (Some q) h1) st)).
      2:{ unfold reparent. destruct (top_of c); reflexivity. }
      rewrite (top_of_plug_indep (f :: F') ltac:(congruence) c (Br l n r)), <- Hroot.
      now destruct st.
    + apply shape_plug. split.
      * cbn [par_of]. fold q. eapply shape_reparent; [exact Nc'|].
        eapply shape_ext; [|exact Sc]. intros j Hj. unfold h1.
        rewrite lookup_total_insert_ne; [unfold same_links; auto|].
        intros <-. apply (Hdisj q); [apply Ic; exact Hj|exact Hq].
      * eapply cshape_ext.
        2:{ eapply cshape_set_hole; [exact Nc|exact Cs]. }
        intros j Hj. fold q. fold h1. rewrite reparent_other; [unfold same_links; auto|].
        intros X. apply (Hdisj j); [apply Ic; exact X|exact Hj].
    + intros i. destruct (reparent_payload h1 c (Some q) i) as (A & B).
      unfold same_payload. rewrite A, B. unfold h1.
      destruct (decide (q = i)) as [<-|Hne].
      * rewrite lookup_total_insert_eq. apply set_hole_payload.
      * rewrite lookup_total_insert_ne by exact Hne. split; reflexivity.
Qed.

Lemma plug_app a b s : plug (a ++ b) s = plug b (plug a s).
Proof.
  revert s. induction a as [|[i r|l i] a IH]; intros s; cbn [app plug]; [reflexivity| |];
    apply IH.
Qed.

(** The leftmost node of a subtree, with the path that leads down to it. *)
Lemma leftmost_path s :
  s <> Lf ->
  exists fsm m rm,
    plug fsm (Br Lf m rm) = s /\ head (ids s) = Some m.
Proof.
  induction s as [|l IHl i r _]; [congruence|]. intros _.
  destruct l as [|ll j lr].
  - exists [], i, r. split; reflexivity.
  - destruct (IHl ltac:(congruence)) as (fsm & m & rm & E & Hh).
    exists (fsm ++ [FL i r]), m, rm. split.
    + rewrite plug_app, E. reflexivity.
    + cbn [ids] in *. destruct (ids ll ++ j :: ids lr); [discriminate|]. exact Hh.
Qed.

(** Removing one node from the in-order sequence. *)
Lemma ids_splice F l n r :
  l = Lf \/ r = Lf ->
  exists A B,
    ids (plug F (Br l n r)) = A ++ n :: B /\
    ids (plug F (match l with Lf => r | _ => l end)) = A ++ B.
Proof.
  intros [->| ->].
  - exists (lefts F), (ids r ++ rights F). rewrite !ids_plug. split; reflexivity.
  - exists (lefts F ++ ids l), (rights F).
    destruct l; rewrite !ids_plug; cbn [ids app]; rewrite <- ?app_assoc;
      split; reflexivity.
Qed.

Lemma linked_splice st F l n r h' :
  linked st (plug F (Br l n r)) ->
  l = Lf \/ r = Lf ->
  let c := match l with Lf => r | _ => l end in
  shape h' None (plug F c) ->
  linked (set_size (size st + -1) (set_root (top_of (plug F c)) (set_heap h' st)))
         (plug F c) /\
  (forall i, i ∈ ids (plug F c) -> i ∈ ids (plug F (Br l n r))) /\
  (forall i, i ∈ lefts F ++ rights F -> i ∈ ids (plug F c)) /\
  S (length (ids (plug F c))) = length (ids (plug F (Br l n r))).
Proof.
  intros [Hroot Hshape Hnd Hfresh Hfuel Hsize] Hone c Hs.
  destruct (ids_splice F l n r Hone) as (A & B & E1 & E2). fold c in E2.
  assert (Hsub : forall i, i ∈ ids (plug F c) -> i ∈ ids (plug F (Br l n r))).
  { intros i. rewrite E1, E2. set_solver. }
  assert (Hlen : S (length (ids (plug F c))) = length (ids (plug F (Br l n r)))).
  { rewrite E1, E2, !length_app. cbn [length]. lia. }
  split; [|split; [exact Hsub|split; [|exact Hlen]]].
  - constructor; cbn [root heap next_ref size set_size set_root set_heap fuel_of].
    + reflexivity.
    + exact Hs.
    + rewrite E1 in Hnd. rewrite E2.
      apply NoDup_app in Hnd. destruct Hnd as (NA & Hd & NB).
      apply NoDup_cons in NB. destruct NB as (HnB & NB).
      apply NoDup_app. split; [exact NA|]. split; [|exact NB].
      intros x Hx HxB. apply (Hd x Hx). set_solver.
    + intros i Hi. apply Hfresh, Hsub, Hi.
    + unfold fuel_of in *. cbn [next_ref set_size set_root set_heap]. lia.
    + rewrite Hsize. lia.
  - intros i Hi. rewrite ids_plug. set_solver.
Qed.

Lemma unlinkNode_spec st T n0 :
  linked st T -> n0 ∈ ids T ->
  exists h' T',
    unlinkNode n0 st =
      (Ret tt, set_size (size st + -1) (set_root (top_of T') (set_heap h' st))) /\
    linked (set_size (size st + -1) (set_root (top_of T') (set_heap h' st))) T' /\
    (forall q, parent (heap st !!! n0) = Some q -> q ∈ ids T') /\
    (forall i, i ∈ ids T' -> i ∈ ids T) /\
    S (length (ids T')) = length (ids T).
Proof.
  intros Hlk Hin.
  destruct (decompose T n0 Hin) as (fs & s & -> & Ht).
  destruct (top_of_Some _ _ Ht) as (l & r & ->).
  pose proof (lk_shape _ _ Hlk) as Hshape.
  apply shape_plug in Hshape as Hsh. destruct Hsh as (Ss & Cs).
  cbn [shape] in Ss. destruct Ss as (Hp & Hl & Hr & Sl & Sr).
  assert (Hpar : forall F q, par_of fs = Some q -> q ∈ lefts (F ++ fs) ++ rights (F ++ fs)).
  { intros F q Hq. destruct fs as [|f fs']; [discriminate|]. injection Hq as <-.
    pose proof (ids_plug (F ++ f :: fs') Lf) as E. rewrite plug_app, ids_plug in E.
    cbn [ids app] in E.
    assert (X : fid f ∈ ids (plug F Lf) ++ lefts (f :: fs') ++ rights (f :: fs')).
    { apply elem_of_app. right. eapply fid_in. reflexivity. }
    assert (Y : fid f ∈ lefts (f :: fs') ++ ids (plug F Lf) ++ rights (f :: fs')) by set_solver.
    rewrite E in Y. exact Y. }
  unfold unlinkNode.
  erewrite bind_Ret by apply field_eq. rewrite Hl.
  erewrite bind_Ret by apply field_eq. rewrite Hr.
  destruct l as [|ll lj lr]; [|destruct r as [|rl rj rr]].
  - (* no left child *)
    cbn [top_of]. rewrite bool_decide_false by congruence. cbn [andb].
    erewrite bind_Ret by reflexivity.
    destruct (splice_out_spec st fs Lf n0 r (lk_root _ _ Hlk) (lk_shape _ _ Hlk)
                (lk_nodup _ _ Hlk) (or_introl eq_refl)) as (h' & E & Hs' & _).
    cbv zeta in *.
    destruct (linked_splice st fs Lf n0 r h' Hlk (or_introl eq_refl) Hs')
      as (L' & Hsub & Hfr & Hlen).
    exists h', (plug fs r). split; [exact E|]. split; [exact L'|].
    split; [|split; assumption].
    intros q Hq. apply Hfr. rewrite Hp in Hq. apply (Hpar [] q Hq).
  - (* no right child *)
    cbn [top_of]. rewrite (bool_decide_false (None <> None)) by congruence.
    rewrite andb_false_r.
    erewrite bind_Ret by reflexivity.
    destruct (splice_out_spec st fs (Br ll lj lr) n0 Lf (lk_root _ _ Hlk) (lk_shape _ _ Hlk)
                (lk_nodup _ _ Hlk) (or_intror eq_refl)) as (h' & E & Hs' & _).
    cbv zeta in *.
    destruct (linked_splice st fs (Br ll lj lr) n0 Lf h' Hlk (or_intror eq_refl) Hs')
      as (L' & Hsub & Hfr & Hlen).
    exists h', (plug fs (Br ll lj lr)). split; [exact E|]. split; [exact L'|].
    split; [|split; assumption].
    intros q Hq. apply Hfr. rewrite Hp in Hq. apply (Hpar [] q Hq).
  - (* two children: the successor is unlinked instead *)
    cbn [top_of]. rewrite !bool_decide_true by congruence. cbn [andb].
    set (R := Br rl rj rr) in *.
    destruct (leftmost_spec R (fuel_of st) st (Some n0) rj eq_refl Sr) as (m & rest & Em & El).
    { pose proof (depth_le_length R). pose proof (lk_fuel _ _ Hlk) as Hf.
      pose proof (length_frames_plug fs (Br (Br ll lj lr) n0 R)) as Hx.
      cbn [ids] in Hx. rewrite ?length_app in Hx. cbn [length] in Hx.
      rewrite ?length_app in Hx. lia. }
    destruct (leftmost_path R ltac:(discriminate)) as (fsm & m' & rm & Ep & Hh).
    rewrite Em in Hh. injection Hh as <-.
    set (F := fsm ++ FR (Br ll lj lr) n0 :: fs).
    assert (EF : plug fs (Br (Br ll lj lr) n0 R) = plug F (Br Lf m rm)).
    { unfold F. rewrite plug_app, Ep. reflexivity. }
    rewrite EF in *.
    set (d := data (heap st !!! m)).
    set (h1 := <[n0 := with_data d (heap st !!! n0)]> (heap st)).
    assert (L1 : forall i, same_links (h1 !!! i) (heap st !!! i)).
    { intros i. unfold h1. destruct (decide (n0 = i)) as [<-|Hne].
      - rewrite lookup_total_insert_eq. unfold same_links. auto.
      - rewrite lookup_total_insert_ne by exact Hne. unfold same_links. auto. }
    assert (Lk1 : linked (set_heap h1 st) (plug F (Br Lf m rm))).
    { destruct Hlk. constructor; cbn [root heap next_ref size set_heap fuel_of]; try assumption.
      eapply shape_ext; [|eassumption]. intros j _. apply L1. }
    destruct (splice_out_spec (set_heap h1 st) F Lf m rm (lk_root _ _ Lk1) (lk_shape _ _ Lk1)
                (lk_nodup _ _ Lk1) (or_introl eq_refl)) as (h' & E & Hs' & _).
    cbv zeta in *.
    destruct (linked_splice (set_heap h1 st) F Lf m rm h' Lk1 (or_introl eq_refl) Hs')
      as (L' & Hsub & Hfr & Hlen).
    exists h', (plug F rm). split; [|split; [exact L'|]].
    + erewrite bind_Ret.
      2:{ erewrite bind_Ret.
          2:{ unfold successor. erewrite bind_Ret by apply field_eq. rewrite Hr.
              cbn [top_of R]. erewrite bind_Ret by (rewrite with_fuel_eq; exact El).
              reflexivity. }
          cbn [attr]. erewrite bind_Ret by apply field_eq. fold d.
          erewrite bind_Ret by apply update_eq. fold h1. reflexivity. }
      exact E.
    + split; [|split; assumption].
      intros q Hq. apply Hfr. rewrite Hp in Hq. unfold F.
      change (FR (Br ll lj lr) n0 :: fs) with ([FR (Br ll lj lr) n0] ++ fs).
      rewrite app_assoc. apply (Hpar _ q Hq).
Qed.

Lemma findEntry_spec key s :
  forall fuel st par,
    shape (heap st) par s -> (depth s < fuel)%nat ->
    exists r, findEntry fuel key (top_of s) st = (Ret r, st) /\
      match r with
      | None => key ∉ keys (heap st) s \/ ~ StronglySorted Z.lt (keys (heap st) s)
      | Some n => n ∈ ids s /\ data (heap st !!! n) = key
      end.
Proof.
  induction s as [|l IHl i r IHr]; intros fuel st par Hs Hf;
    (destruct fuel as [|fuel]; [lia|]); cbn [findEntry top_of].
  - exists None. split; [reflexivity|]. left. unfold keys. cbn. set_solver.
  - cbn [shape] in Hs. destruct Hs as (_ & Hl & Hr & Sl & Sr). cbn [depth] in Hf.
    erewrite bind_Ret by apply field_eq. unfold id, compareTo. rewrite keys_Br.
    destruct (Z.compare_spec (data (heap st !!! i)) key) as [Heq|Hlt|Hgt].
    + exists (Some i). split; [reflexivity|]. split; [set_solver|exact Heq].
    + rewrite Hr. destruct (IHr fuel st (Some i) Sr ltac:(lia)) as (res & E & Hres).
      exists res. split; [exact E|]. destruct res as [n|].
      * split; [set_solver|apply Hres].
      * destruct Hres as [Hres|Hres].
        -- destruct (decide (key ∈ keys (heap st) l)) as [Hk|Hk].
           ++ right. intros Hsort. apply StronglySorted_app in Hsort.
              destruct Hsort as (H1 & _).
              specialize (H1 key (data (heap st !!! i)) Hk ltac:(set_solver)). lia.
           ++ left. intros X. apply elem_of_app in X. destruct X as [X|X]; [contradiction|].
              apply elem_of_cons in X. destruct X as [X|X]; [lia|contradiction].
        -- right. intros Hsort. apply Hres. apply StronglySorted_app in Hsort.
           destruct Hsort as (_ & _ & H3). apply StronglySorted_cons in H3. tauto.
    + rewrite Hl. destruct (IHl fuel st (Some i) Sl ltac:(lia)) as (res & E & Hres).
      exists res. split; [exact E|]. destruct res as [n|].
      * split; [set_solver|apply Hres].
      * destruct Hres as [Hres|Hres].
        -- destruct (decide (key ∈ keys (heap st) r)) as [Hk|Hk].
           ++ right. intros Hsort. apply StronglySorted_app in Hsort.
              destruct Hsort as (_ & _ & H3). apply StronglySorted_cons in H3.
              destruct H3 as (H3 & _). rewrite Forall_forall in H3.
              specialize (H3 key Hk). lia.
           ++ left. intros X. apply elem_of_app in X. destruct X as [X|X]; [contradiction|].
              apply elem_of_cons in X. destruct X as [X|X]; [lia|contradiction].
        -- right. intros Hsort. apply Hres. apply StronglySorted_app in Hsort. tauto.
Qed.

(** With no parent to start from, the search for an unbalanced ancestor
    dereferences [None] unless the tree has just become empty. *)
Lemma fix_balance_None st :
  fix_balance None st =
  (if self_balancing st
   then match root st with
        | None => Ret tt
        | Some _ => Raise AttributeError
        end
   else Ret tt, st).
Proof.
  unfold fix_balance. erewrite bind_Ret by reflexivity.
  destruct (self_balancing st); [|reflexivity].
  assert (E : with_fuel (fun fuel => find_unbalanced fuel None) st =
              (match root st with
               | None => Ret None
               | Some _ => Raise AttributeError
               end, st)).
  { rewrite with_fuel_eq.
    destruct (fuel_of st) as [|fuel] eqn:Ef; [unfold fuel_of in Ef; lia|].
    cbn [find_unbalanced]. unfold mbind, M_bind, bind. cbn [is_balanced ret].
    unfold get_root. destruct (root st) as [c|].
    - rewrite decide_False by congruence. reflexivity.
    - rewrite decide_True by reflexivity. reflexivity. }
  destruct (root st).
  - erewrite bind_Raise by exact E. reflexivity.
  - erewrite bind_Ret by exact E. reflexivity.
Qed.

Lemma remove_spec key st T :
  rep st T ->
  exists st' T' o,
    remove key st = (o, st') /\ rep st' T' /\
    top st' = top st /\ bottom st' = bottom st /\
    self_balancing st' = self_balancing st /\
    ((o = Ret false /\ st' = st) \/
     ((o = Ret true \/ o = Raise AttributeError) /\
      S (length (ids T')) = length (ids T))).
Proof.
  intros Hrep. unfold remove. erewrite bind_Ret by reflexivity.
  destruct (findEntry_spec key T (fuel_of st) st None (rep_shape _ _ Hrep)) as (r & E & Hr).
  { pose proof (depth_le_length T). pose proof (rep_fuel _ _ Hrep). lia. }
  rewrite <- (rep_root _ _ Hrep) in E.
  erewrite bind_Ret by (rewrite with_fuel_eq; exact E).
  destruct r as [n|].
  2:{ exists st, T, (Ret false). split; [reflexivity|]. split; [exact Hrep|]. auto 10. }
  destruct Hr as (Hn & _).
  erewrite bind_Ret by apply field_eq.
  destruct (unlinkNode_spec st T n (rep_linked _ _ Hrep) Hn)
    as (h1 & T' & E1 & Lk1 & Hpar & Hsub & Hlen).
  erewrite bind_Ret by exact E1.
  set (st1 := set_size (size st + -1) (set_root (top_of T') (set_heap h1 st))) in *.
  destruct (recount st1 T' Lk1) as (h2 & E2 & R2 & D2).
  erewrite bind_Ret by reflexivity.
  erewrite bind_Ret by (rewrite with_fuel_eq; exact E2).
  set (st2 := set_heap h2 st1) in *.
  destruct (parent (heap st !!! n)) as [q|] eqn:Hq.
  - destruct (fix_balance_spec st2 T' q R2 (Hpar q eq_refl))
      as (st3 & T3 & E3 & R3 & I3 & D3 & (P1 & P2 & P3 & P4)).
    erewrite bind_Ret by exact E3.
    exists st3, T3, (Ret true). split; [reflexivity|]. split; [exact R3|].
    rewrite P1, P2, P3. do 3 (split; [reflexivity|]).
    right. split; [auto|]. rewrite I3. exact Hlen.
  - unfold mbind, M_bind, bind. rewrite (fix_balance_None st2).
    exists st2, T'.
    assert (Q1 : top st2 = top st) by reflexivity.
    assert (Q2 : bottom st2 = bottom st) by reflexivity.
    assert (Q3 : self_balancing st2 = self_balancing st) by reflexivity.
    destruct (self_balancing st2); [destruct (root st2)|];
      eexists; (split; [reflexivity|]); (split; [exact R2|]);
      (do 3 (split; [assumption|])); right; (split; [auto|exact Hlen]).
Qed.

(** ** Trees built by public operations *)

Lemma rep_init sb tp bt : rep (init sb tp bt) Lf.
Proof.
  unfold init. case_decide;
    (constructor; cbn;
     [reflexivity | exact I | apply NoDup_nil_2 | intros i Hi; set_solver
     | unfold fuel_of; cbn; lia | reflexivity | exact I]).
Qed.

Lemma rep_run_op o st T : rep st T -> exists T', rep (run_op o st) T'.
Proof.
  intros Hrep. destruct o as [k|k]; cbn [run_op].
  - destruct (add_spec k st T Hrep) as (st' & T' & b & E & R & _).
    rewrite E. eauto.
  - destruct (remove_spec k st T Hrep) as (st' & T' & o & E & R & _).
    rewrite E. eauto.
Qed.

Lemma rep_run_ops ops : forall st T, rep st T -> exists T', rep (run_ops ops st) T'.
Proof.
  induction ops as [|o ops IH]; intros st T Hrep; cbn [run_ops foldl]; [eauto|].
  destruct (rep_run_op o st T Hrep) as (T1 & R1). exact (IH _ _ R1).
Qed.

(** Adding distinct new keys keeps the search-tree order and adds exactly
    those keys. *)
Lemma bst_add_all ks :
  forall st T,
    rep st T -> StronglySorted Z.lt (keys (heap st) T) ->
    NoDup ks -> (forall k, k ∈ ks -> k ∉ keys (heap st) T) ->
    exists T',
      rep (add_all ks st) T' /\
      StronglySorted Z.lt (keys (heap (add_all ks st)) T') /\
      keys (heap (add_all ks st)) T' ≡ₚ ks ++ keys (heap st) T /\
      top (add_all ks st) = top st /\ bottom (add_all ks st) = bottom st /\
      self_balancing (add_all ks st) = self_balancing st.
Proof.
  induction ks as [|k ks IH]; intros st T Hrep Hs Hnd Hnew; cbn [add_all foldl].
  - exists T. auto 10.
  - destruct (add_spec k st T Hrep) as (st' & T1 & b & E & R1 & P1 & P2 & P3 & Hb).
    rewrite E. cbn [snd]. destruct (Hb Hs) as (Hs1 & Hb1).
    destruct b.
    2:{ destruct Hb1 as (Hin & _). exfalso. apply (Hnew k); [set_solver|exact Hin]. }
    destruct Hb1 as (_ & Hperm).
    apply NoDup_cons in Hnd. destruct Hnd as (Hk & Hnd).
    destruct (IH st' T1 R1 Hs1 Hnd) as (T' & R' & S' & Pm & Q1 & Q2 & Q3).
    { intros x Hx. rewrite Hperm. intros X. apply elem_of_cons in X.
      destruct X as [->|X]; [contradiction|]. apply (Hnew x); [set_solver|exact X]. }
    exists T'. fold (add_all ks st'). split; [exact R'|]. split; [exact S'|].
    split.
    + rewrite Pm, Hperm. cbn [app]. symmetry. apply Permutation_middle.
    + rewrite Q1, Q2, Q3. auto.
Qed.

(** ** What the observers read *)

Lemma subtree_nodes_spec st fs s :
  rep st (plug fs s) -> subtree_nodes st (top_of s) = ids s.
Proof.
  intros Hrep. unfold subtree_nodes.
  pose proof (rep_shape _ _ Hrep) as Hs. apply shape_plug in Hs. destruct Hs as (Hs & _).
  rewrite (inOrder_spec s (fuel_of st) st (par_of fs) [] Hs); [reflexivity|].
  pose proof (depth_le_length s). pose proof (rep_fuel _ _ Hrep).
  pose proof (length_frames_plug fs s). lia.
Qed.

Lemma tree_nodes_spec st T : rep st T -> tree_nodes st = ids T.
Proof.
  intros Hrep. unfold tree_nodes. rewrite (rep_root _ _ Hrep).
  apply (subtree_nodes_spec st [] T Hrep).
Qed.

Lemma counted_top h t : counted h t -> counter_of h (top_of t) = Z.of_nat (length (ids t)).
Proof. destruct t; cbn; [reflexivity|tauto]. Qed.

Lemma counted_local h par t :
  shape h par t -> counted h t ->
  forall i, i ∈ ids t ->
    counter (h !!! i) = 1 + counter_of h (left (h !!! i)) + counter_of h (right (h !!! i)).
Proof.
  revert par. induction t as [|l IHl j r IHr]; intros par Hs Hc i Hi; [set_solver|].
  cbn [shape counted ids] in *. destruct Hs as (_ & Hl & Hr & Sl & Sr).
  destruct Hc as (Hj & Cl & Cr).
  apply elem_of_app in Hi. destruct Hi as [Hi|Hi]; [now apply (IHl (Some j))|].
  apply elem_of_cons in Hi. destruct Hi as [->|Hi]; [|now apply (IHr (Some j))].
  rewrite Hj, Hl, Hr, (counted_top _ _ Cl), (counted_top _ _ Cr), length_app.
  cbn [length]. lia.
Qed.

(** ** Heights *)

Lemma getHeight_spec h t :
  forall fuel par, shape h par t -> (depth t < fuel)%nat ->
    getHeight fuel h (top_of t) = Ret (Z.of_nat (depth t) - 1).
Proof.
  induction t as [|l IHl i r IHr]; intros fuel par Hs Hf;
    (destruct fuel as [|fuel]; [lia|]); cbn [getHeight top_of depth].
  - reflexivity.
  - cbn [shape depth] in *. destruct Hs as (_ & Hl & Hr & Sl & Sr).
    rewrite Hl, Hr, (IHl fuel (Some i) Sl), (IHr fuel (Some i) Sr) by lia.
    f_equal. lia.
Qed.

(** A tree of depth [d] has fewer than [2^d] nodes. *)
Lemma size_lt_pow t : (length (ids t) < 2 ^ depth t)%nat.
Proof.
  induction t as [|l IHl i r IHr]; cbn [ids depth length]; [cbn; lia|].
  rewrite length_app. cbn [length].
  assert (2 ^ depth l <= 2 ^ Nat.max (depth l) (depth r))%nat
    by (apply Nat.pow_le_mono_r; lia).
  assert (2 ^ depth r <= 2 ^ Nat.max (depth l) (depth r))%nat
    by (apply Nat.pow_le_mono_r; lia).
  rewrite Nat.pow_succ_r'. lia.
Qed.

(** The midpoint rebuild wastes no level: [2^depth <= 2 * size]. *)
Lemma build_depth nodes :
  forall fuel start end_,
    0 <= start -> end_ < Z.of_nat (length nodes) -> start <= end_ ->
    (Z.to_nat (end_ - start + 1) < fuel)%nat ->
    (2 ^ depth (build fuel nodes start end_) <= 2 * Z.to_nat (end_ - start + 1))%nat.
Proof.
  induction fuel as [|fuel IH]; intros start end_ H0 He Hse Hf; [lia|].
  cbn [build]. rewrite decide_False by lia. cbv zeta.
  pose proof (midpoint_bounds start end_ Hse) as Hm.
  set (mid := midpoint start end_) in *.
  assert (Hmid : mid = start + (end_ - start + 1) `div` 2) by reflexivity.
  destruct (lookup_lt_is_Some_2 nodes (Z.to_nat mid) ltac:(lia)) as (node & Hn).
  rewrite Hn. cbn [depth]. rewrite Nat.pow_succ_r'.
  assert (HL : (2 ^ depth (build fuel nodes start (mid - 1)) <= Z.to_nat (end_ - start + 1))%nat).
  { destruct (decide (start <= mid - 1)) as [Hle|Hgt].
    - pose proof (IH start (mid - 1) H0 ltac:(lia) Hle ltac:(lia)) as X.
      assert (2 * (mid - 1 - start + 1) <= end_ - start + 1)
        by (rewrite Hmid; Z.div_mod_to_equations; lia).
      revert X. generalize (2 ^ depth (build fuel nodes start (mid - 1)))%nat. lia.
    - destruct fuel as [|fuel']; [lia|]. cbn [build].
      rewrite decide_True by lia. cbn [depth Nat.pow]. lia. }
  assert (HR : (2 ^ depth (build fuel nodes (mid + 1) end_) <= Z.to_nat (end_ - start + 1))%nat).
  { destruct (decide (mid + 1 <= end_)) as [Hle|Hgt].
    - pose proof (IH (mid + 1) end_ ltac:(lia) He Hle ltac:(lia)) as X.
      assert (2 * (end_ - (mid + 1) + 1) <= end_ - start + 1)
        by (rewrite Hmid; Z.div_mod_to_equations; lia).
      revert X. generalize (2 ^ depth (build fuel nodes (mid + 1) end_))%nat. lia.
    - destruct fuel as [|fuel']; [lia|]. cbn [build].
      rewrite decide_True by lia. cbn [depth Nat.pow]. lia. }
  revert HL HR.
  generalize (build fuel nodes start (mid - 1)) (build fuel nodes (mid + 1) end_).
  intros b1 b2 HL HR.
  destruct (Nat.max_spec (depth b1) (depth b2)) as [(_ & ->)|(_ & ->)];
    revert HL HR; generalize (2 ^ depth b1)%nat (2 ^ depth b2)%nat; lia.
Qed.

(** No binary tree over as many nodes is shallower than the rebuilt one. *)
Lemma rebuilt_min_depth nodes t :
  length (ids t) = length nodes -> (depth (rebuilt nodes) <= depth t)%nat.
Proof.
  intros Hlen. destruct nodes as [|x nodes].
  - unfold rebuilt. cbn [build length]. rewrite decide_True by lia. cbn [depth]. lia.
  - pose proof (size_lt_pow t) as Hs.
    pose proof (build_depth (x :: nodes) (S (length (x :: nodes))) 0
                  (Z.of_nat (length (x :: nodes)) - 1) ltac:(lia) ltac:(lia)
                  ltac:(cbn [length]; lia) ltac:(lia)) as Hb.
    fold (rebuilt (x :: nodes)) in Hb.
    replace (Z.to_nat (Z.of_nat (length (x :: nodes)) - 1 - 0 + 1))
      with (length (x :: nodes)) in Hb by lia.
    rewrite Hlen in Hs.
    destruct (Nat.le_gt_cases (depth (rebuilt (x :: nodes))) (depth t)) as [|Hgt]; [assumption|].
    assert (2 ^ S (depth t) <= 2 ^ depth (rebuilt (x :: nodes)))%nat
      by (apply Nat.pow_le_mono_r; lia).
    rewrite Nat.pow_succ_r' in *. lia.
Qed.

(** ** Weights inside a rebuilt subtree *)

Lemma build_halved nodes :
  forall fuel start end_,
    0 <= start -> end_ < Z.of_nat (length nodes) ->
    (Z.to_nat (end_ - start + 1) < fuel)%nat ->
    halved (build fuel nodes start end_).
Proof.
  induction fuel as [|fuel IH]; intros start end_ H0 He Hf; [lia|].
  pose proof (build_ids nodes (S fuel) start end_ H0 He Hf) as Hids.
  cbn [build] in *. case_decide as Hc; [exact I|]. cbv zeta in *.
  pose proof (midpoint_bounds start end_ ltac:(lia)) as Hm.
  set (mid := midpoint start end_) in *.
  assert (Hmid : mid = start + (end_ - start + 1) `div` 2) by reflexivity.
  destruct (lookup_lt_is_Some_2 nodes (Z.to_nat mid) ltac:(lia)) as (node & Hn).
  rewrite Hn in *. cbn [halved].
  rewrite Hids, slice_length by lia.
  rewrite !build_ids, !slice_length by lia.
  split; [|split; [|split; apply IH; lia]].
  - assert (2 * (mid - 1 - start + 1) <= end_ - start + 1)
      by (rewrite Hmid; Z.div_mod_to_equations; lia). lia.
  - assert (2 * (end_ - (mid + 1) + 1) <= end_ - start + 1)
      by (rewrite Hmid; Z.div_mod_to_equations; lia). lia.
Qed.

Lemma rebuilt_halved nodes : halved (rebuilt nodes).
Proof. unfold rebuilt. apply build_halved; lia. Qed.

(** Every node below the top of a halved, counted subtree weighs at most
    [top/bottom] of its parent, as soon as [bottom <= 2 * top]. *)
Lemma halved_weights h par t tp bt :
  0 < bt -> bt <= 2 * tp ->
  shape h par t -> counted h t -> halved t ->
  forall n, n ∈ ids t -> top_of t <> Some n ->
    forall p, parent (h !!! n) = Some p ->
      counter (h !!! n) * bt <= counter (h !!! p) * tp.
Proof.
  intros Hb Hbt. revert par.
  induction t as [|l IHl i r IHr]; intros par Hs Hc Hh n Hn Htop p Hp; [set_solver|].
  cbn [shape counted halved ids top_of] in *.
  destruct Hs as (_ & Hl & Hr & Sl & Sr). destruct Hc as (Hi & Cl & Cr).
  destruct Hh as (H1 & H2 & Hhl & Hhr).
  assert (Hchild : forall c, (top_of c = Some n) -> shape h (Some i) c -> counted h c ->
             (2 * length (ids c) <= length (ids l ++ i :: ids r))%nat ->
             counter (h !!! n) * bt <= counter (h !!! p) * tp).
  { intros c Ht Sc Cc Hle. destruct (top_of_Some _ _ Ht) as (cl & cr & ->).
    cbn [shape counted] in Sc, Cc. destruct Sc as (Hpn & _). destruct Cc as (Hcn & _).
    rewrite Hpn in Hp. injection Hp as <-. rewrite Hcn, Hi. nia. }
  apply elem_of_app in Hn. destruct Hn as [Hn|Hn].
  - destruct (decide (top_of l = Some n)) as [Ht|Ht].
    + now apply (Hchild l).
    + now apply (IHl (Some i)).
  - apply elem_of_cons in Hn. destruct Hn as [->|Hn]; [congruence|].
    destruct (decide (top_of r = Some n)) as [Ht|Ht].
    + now apply (Hchild r).
    + now apply (IHr (Some i)).
Qed.
(** ** Cursors and the set difference *)

Lemma hasNext_at T it rest :
  at_pos T it rest -> hasNext it = bool_decide (rest <> []).
Proof.
  intros (_ & Hc). unfold hasNext. rewrite Hc. destruct rest; reflexivity.
Qed.

Lemma peek_at st T it a rest :
  at_pos T it (a :: rest) -> peek st it = Some (data (heap st !!! a)).
Proof. intros (_ & Hc). unfold peek. rewrite Hc. reflexivity. Qed.






Lemma StronglySorted_lt_NoDup (l : list Z) : StronglySorted Z.lt l -> NoDup l.
Proof.
  induction 1 as [|x l Hs IH Hx]; [apply NoDup_nil_2|].
  apply NoDup_cons. split; [|exact IH].
  intros Hin. rewrite Forall_forall in Hx. specialize (Hx x Hin). lia.
Qed.


(** * Exact refinement of [add] *)

(** The part of [attach] before the conditional rebalance: the new leaf is
    linked under its parent and every counter is recomputed. *)
Lemma attach_pre key st f fs :
  rep st (plug (f :: fs) Lf) ->
  exists st2,
    attach key (fid f) (set_hole f) st = (fix_balance (Some (fid f));; mret true) st2 /\
    rep st2 (plug (f :: fs) (leaf (next_ref st))) /\
    (forall i, data (heap st2 !!! i) =
               if decide (i = next_ref st) then key else data (heap st !!! i)) /\
    top st2 = top st /\ bottom st2 = bottom st /\
    self_balancing st2 = self_balancing st /\
    next_ref st2 = Pos.succ (next_ref st).
Proof.
  intros [Hroot Hshape Hnd Hfresh Hfuel Hsize _].
  set (new := next_ref st). set (q := fid f).
  set (T1 := plug (f :: fs) (leaf new)).
  assert (Iq : q ∈ ids (plug (f :: fs) Lf)).
  { rewrite ids_plug. cbn [ids app]. eapply fid_in. reflexivity. }
  assert (Hqn : q <> new).
  { intros X. pose proof (Hfresh q Iq). unfold new in X. lia. }
  assert (Hnew : new ∉ ids (plug (f :: fs) Lf)).
  { intros X. pose proof (Hfresh new X). unfold new in *. lia. }
  apply shape_plug in Hshape as Hsh. destruct Hsh as (_ & Cs).
  destruct (NoDup_plug _ _ Hnd) as (_ & Nc & _).
  rewrite ids_plug in Hnew. cbn [ids app] in Hnew.
  set (h1 := <[new := mkNode key None None (Some q) 0]> (heap st)).
  set (h2 := <[q := set_hole f (Some new) (h1 !!! q)]> h1).
  assert (S2 : shape h2 None T1).
  { apply shape_plug. split.
    - cbn [shape leaf par_of]. unfold h2. rewrite lookup_total_insert_ne by exact Hqn.
      unfold h1. rewrite lookup_total_insert_eq. cbn. auto.
    - cbn [top_of leaf]. eapply cshape_set_hole; [exact Nc|].
      eapply cshape_ext; [|exact Cs]. intros j Hj. unfold h1.
      rewrite lookup_total_insert_ne; [unfold same_links; auto|].
      intros <-. contradiction. }
  assert (I1 : ids T1 = lefts (f :: fs) ++ [new] ++ rights (f :: fs)).
  { unfold T1. rewrite ids_plug. reflexivity. }
  assert (L1 : length (ids T1) = S (length (ids (plug (f :: fs) Lf)))).
  { rewrite I1, ids_plug, !length_app. cbn [length ids]. lia. }
  assert (N1 : NoDup (ids T1)).
  { rewrite I1. rewrite ids_plug in Hnd. cbn [ids app] in Hnd.
    apply NoDup_app in Hnd. destruct Hnd as (A & B & C).
    apply NoDup_app. split; [exact A|]. split.
    - intros x Hx Hx'. apply elem_of_app in Hx'. destruct Hx' as [Hx'|Hx'].
      + apply list_elem_of_singleton in Hx'. subst x. apply Hnew. set_solver.
      + now apply (B x).
    - cbn [app]. apply NoDup_cons. split; [|exact C]. set_solver. }
  set (st1 := mkTree h2 (Pos.succ new) (root st) (size st + 1) (top st) (bottom st)
                (self_balancing st)).
  assert (Hr1 : root st = top_of T1).
  { rewrite Hroot. unfold T1. apply top_of_plug_indep. congruence. }
  destruct (count_node_spec T1 (fuel_of st1) st1 None S2 N1) as (h3 & E3 & O3 & L3 & C3).
  { pose proof (depth_le_length T1). unfold st1, fuel_of in *. cbn [next_ref] in *. fold new in Hfuel. lia. }
  set (st2 := set_heap h3 st1) in *.
  assert (R2 : rep st2 T1).
  { constructor; unfold st2, st1; cbn [root heap set_heap next_ref size fuel_of].
    - exact Hr1.
    - eapply shape_ext; [|exact S2]. intros j _. apply L3.
    - exact N1.
    - intros i Hi. rewrite I1 in Hi. fold new.
      assert (i = new \/ i ∈ ids (plug (f :: fs) Lf)) as [->|Hi'].
      { rewrite ids_plug. cbn [ids app]. set_solver. }
      + lia.
      + pose proof (Hfresh i Hi'). fold new in H. lia.
    - rewrite L1. unfold fuel_of in *. cbn [next_ref set_heap]. fold new in Hfuel. lia.
    - rewrite L1, Hsize. lia.
    - exact C3. }
  assert (D2 : forall i, data (heap st2 !!! i) =
                         if decide (i = new) then key else data (heap st !!! i)).
  { intros i. unfold st2. cbn [heap set_heap]. destruct (L3 i) as (_ & ->).
    unfold st1. cbn [heap]. unfold h2.
    destruct (decide (q = i)) as [<-|Hne].
    - rewrite lookup_total_insert_eq, decide_False by exact Hqn.
      unfold h1. rewrite lookup_total_insert_ne by congruence.
      destruct f; reflexivity.
    - rewrite lookup_total_insert_ne by exact Hne. unfold h1.
      case_decide as Hi.
      + subst i. now rewrite lookup_total_insert_eq.
      + now rewrite lookup_total_insert_ne by congruence. }
  exists st2. split.
  { unfold attach.
    erewrite bind_Ret by apply new_node_eq. fold new q.
    erewrite bind_Ret by apply update_eq. cbn [heap]. fold h1 h2.
    erewrite bind_Ret by reflexivity.
    erewrite bind_Ret by reflexivity.
    rewrite <- Hr1 in E3.
    erewrite bind_Ret by (rewrite with_fuel_eq; exact E3).
    reflexivity. }
  split; [exact R2|]. split; [exact D2|]. repeat split.
Qed.

Lemma plug_cons f fs s : plug (f :: fs) s = plug fs (plug1 f s).
Proof. destruct f; reflexivity. Qed.

Lemma top_of_plug1 f s : top_of (plug1 f s) = Some (fid f).
Proof. destruct f; reflexivity. Qed.

Lemma find_slot_ext kf kf' key s :
  (forall i, i ∈ ids s -> kf i = kf' i) ->
  forall fs, find_slot kf key s fs = find_slot kf' key s fs.
Proof.
  induction s as [|l IHl i r IHr]; intros H fs; cbn [find_slot]; [reflexivity|].
  cbn [ids] in H. rewrite <- (H i) by set_solver.
  destruct (kf i ?= key); [reflexivity| |].
  - apply IHr. intros j Hj. apply H. set_solver.
  - apply IHl. intros j Hj. apply H. set_solver.
Qed.

Lemma find_slot_None kf key s :
  forall fs, find_slot kf key s fs = None -> exists i, i ∈ ids s /\ kf i = key.
Proof.
  induction s as [|l IHl i r IHr]; intros fs H; cbn [find_slot] in H; [discriminate|].
  destruct (Z.compare_spec (kf i) key) as [Heq|Hlt|Hgt].
  - exists i. split; [cbn [ids]; set_solver|exact Heq].
  - destruct (IHr _ H) as (j & Hj & E). exists j. split; [cbn [ids]; set_solver|exact E].
  - destruct (IHl _ H) as (j & Hj & E). exists j. split; [cbn [ids]; set_solver|exact E].
Qed.

(** The descent of [add], exactly. *)
Lemma add_loop_exact key s :
  forall fs st fuel c,
    top_of s = Some c ->
    shape (heap st) (par_of fs) s ->
    (depth s <= fuel)%nat ->
    match find_slot (fun i => data (heap st !!! i)) key s fs with
    | None => add_loop fuel key c st = (Ret false, st)
    | Some F =>
      exists f F', F = f :: F' /\ plug F Lf = plug fs s /\
                   add_loop fuel key c st = attach key (fid f) (set_hole f) st
    end.
Proof.
  induction s as [|l IHl i r IHr]; intros fs st fuel c Ht Hs Hf; [discriminate|].
  cbn [top_of] in Ht. injection Ht as <-.
  destruct fuel as [|fuel]; [cbn [depth] in Hf; lia|]. cbn [depth] in Hf.
  cbn [shape] in Hs. destruct Hs as (Hp & Hl & Hr & Sl & Sr).
  cbn [add_loop find_slot]. erewrite bind_Ret by apply field_eq. unfold id, compareTo.
  destruct (data (heap st !!! i) ?= key).
  - reflexivity.
  - rewrite Hr. destruct r as [|rl j rr].
    + cbn [find_slot top_of]. exists (FR l i), fs. repeat split.
    + apply (IHr (FR l i :: fs) st fuel j eq_refl Sr). lia.
  - rewrite Hl. destruct l as [|ll j lr].
    + cbn [find_slot top_of]. exists (FL i r), fs. repeat split.
    + apply (IHl (FL i r :: fs) st fuel j eq_refl Sl). lia.
Qed.

(** The balance test reads the sizes. *)
Lemma is_balanced_exact st par s i :
  top_of s = Some i -> shape (heap st) par s -> counted (heap st) s ->
  is_balanced (Some i) st = (Ret (balanced_abs (top st) (bottom st) s), st).
Proof.
  intros Ht Hs Hc. destruct (top_of_Some _ _ Ht) as (l & r & ->).
  cbn [shape counted] in Hs, Hc. destruct Hs as (_ & Hl & Hr & _).
  destruct Hc as (Hi & Cl & Cr).
  pose proof (counted_top _ _ Cl) as Tl. pose proof (counted_top _ _ Cr) as Tr.
  unfold is_balanced, mbind, M_bind, bind, field, ret, balanced_abs.
  cbv beta iota. rewrite Hl. unfold counter_of in Tl, Tr.
  destruct (top_of l) as [x|]; cbv beta iota; rewrite Hr;
    (destruct (top_of r) as [y|]; cbv beta iota; rewrite Hi, <- ?Tl, <- ?Tr;
     repeat case_decide; reflexivity).
Qed.

Lemma first_unbalanced_plug tp bo fs :
  forall s fs_u s_u,
    first_unbalanced tp bo s fs = Some (fs_u, s_u) ->
    plug fs_u s_u = plug fs s /\ (s <> Lf -> s_u <> Lf).
Proof.
  induction fs as [|f fs IH]; intros s fs_u s_u H; cbn [first_unbalanced] in H;
    destruct (balanced_abs tp bo s); try discriminate.
  - injection H as <- <-. auto.
  - destruct (IH _ _ _ H) as (E & Hne). rewrite plug_cons. split; [exact E|].
    intros _. apply Hne. destruct f; discriminate.
  - injection H as <- <-. auto.
Qed.

(** The climb to the nearest unbalanced node, exactly. *)
Lemma find_unbalanced_exact fs :
  forall s st fuel i,
    top_of s = Some i ->
    root st = top_of (plug fs s) ->
    shape (heap st) None (plug fs s) ->
    counted (heap st) (plug fs s) ->
    NoDup (ids (plug fs s)) ->
    (length fs < fuel)%nat ->
    find_unbalanced fuel (Some i) st =
    (Ret match first_unbalanced (top st) (bottom st) s fs with
         | None => None
         | Some (_, s_u) => top_of s_u
         end, st).
Proof.
  induction fs as [|f fs IH]; intros s st fuel i Ht Hroot Hs Hc Hnd Hf;
    (destruct fuel as [|fuel]; [simpl in Hf; lia|]);
    cbn [find_unbalanced first_unbalanced];
    apply shape_plug in Hs as Hs'; destruct Hs' as (Ss & Cs);
    pose proof (counted_plug _ _ _ Hc) as Cc;
    erewrite bind_Ret by (eapply is_balanced_exact; eassumption);
    destruct (balanced_abs (top st) (bottom st) s); cbv beta iota.
  - erewrite bind_Ret by reflexivity. simpl in Hroot. rewrite Hroot, Ht.
    rewrite decide_True by reflexivity. reflexivity.
  - rewrite Ht. reflexivity.
  - erewrite bind_Ret by reflexivity.
    destruct (top_of_plug (f :: fs) ltac:(congruence) s) as (j & Ej & Hj).
    rewrite Hroot, Ej.
    assert (Hij : i <> j).
    { intros ->. destruct (NoDup_plug _ _ Hnd) as (_ & _ & Hd).
      apply (Hd j); [apply top_of_in; exact Ht|exact Hj]. }
    rewrite decide_False by congruence.
    destruct (top_of_Some _ _ Ht) as (sl & sr & ->). cbn [shape] in Ss.
    destruct Ss as (Hp & _).
    cbn [attr]. erewrite bind_Ret by apply field_eq. rewrite Hp. cbn [par_of].
    rewrite plug_cons in Hroot, Hs, Hc, Hnd.
    apply (IH (plug1 f (Br sl i sr)) st fuel (fid f)); try assumption.
    + apply top_of_plug1.
    + simpl in Hf. lia.
  - rewrite Ht. reflexivity.
Qed.

(** The conditional rebalance, exactly. *)
Lemma fix_balance_exact st fs s start :
  rep st (plug fs s) -> top_of s = Some start ->
  exists st',
    fix_balance (Some start) st = (Ret tt, st') /\
    rep st' (if self_balancing st then fix_abs (top st) (bottom st) s fs else plug fs s) /\
    (forall i, data (heap st' !!! i) = data (heap st !!! i)) /\
    same_params st st'.
Proof.
  intros Hrep Ht. unfold fix_balance.
  erewrite bind_Ret by reflexivity.
  destruct (self_balancing st) eqn:Hsb.
  2:{ exists st. unfold same_params. auto 10. }
  erewrite bind_Ret.
  2:{ rewrite with_fuel_eq. apply (find_unbalanced_exact fs s st (fuel_of st) start Ht);
        try apply Hrep.
      pose proof (length_frames_plug fs s). pose proof (rep_fuel _ _ Hrep). lia. }
  unfold fix_abs.
  destruct (first_unbalanced (top st) (bottom st) s fs) as [[fs_u s_u]|] eqn:Efu.
  2:{ exists st. unfold same_params. auto 10. }
  destruct (first_unbalanced_plug _ _ _ _ _ _ Efu) as (Ep & Hne).
  destruct s_u as [|ul u ur]; [exfalso; apply Hne; [|reflexivity];
                                intros ->; discriminate|].
  cbn [top_of]. rewrite <- Ep in Hrep.
  destruct (rebalance_spec st fs_u (Br ul u ur) u Hrep eq_refl) as (h' & Hreb).
  cbv zeta in Hreb. destruct Hreb as (Ereb & Hrep' & Hdata).
  eexists. split; [exact Ereb|]. split; [exact Hrep'|].
  split; [exact Hdata|]. unfold same_params. auto.
Qed.

(** What [attach] leaves, exactly. *)
Lemma attach_exact key st f fs :
  rep st (plug (f :: fs) Lf) ->
  exists st',
    attach key (fid f) (set_hole f) st = (Ret true, st') /\
    rep st' (if self_balancing st
             then fix_abs (top st) (bottom st) (plug1 f (leaf (next_ref st))) fs
             else plug (f :: fs) (leaf (next_ref st))) /\
    (forall i, data (heap st' !!! i) =
               if decide (i = next_ref st) then key else data (heap st !!! i)) /\
    top st' = top st /\ bottom st' = bottom st /\
    self_balancing st' = self_balancing st /\
    next_ref st' = Pos.succ (next_ref st).
Proof.
  intros Hrep.
  destruct (attach_pre key st f fs Hrep) as (st2 & E & R2 & D2 & P1 & P2 & P3 & P4).
  rewrite plug_cons in R2.
  destruct (fix_balance_exact st2 fs (plug1 f (leaf (next_ref st))) (fid f) R2
              (top_of_plug1 _ _)) as (st3 & E3 & R3 & D3 & (Q1 & Q2 & Q3 & Q4)).
  exists st3. split.
  { rewrite E. erewrite bind_Ret by exact E3. reflexivity. }
  rewrite P1, P2, P3 in R3. rewrite <- plug_cons in R3.
  split; [exact R3|]. split; [intros i; now rewrite D3, D2|].
  rewrite Q1, Q2, Q3, Q4. auto.
Qed.

Lemma add_empty key st :
  rep st Lf ->
  exists st',
    add key st = (Ret true, st') /\ rep st' (leaf (next_ref st)) /\
    (forall i, data (heap st' !!! i) =
               if decide (i = next_ref st) then key else data (heap st !!! i)) /\
    top st' = top st /\ bottom st' = bottom st /\
    self_balancing st' = self_balancing st /\
    next_ref st' = Pos.succ (next_ref st).
Proof.
  intros Hrep. pose proof (rep_root _ _ Hrep) as Hroot. cbn [top_of] in Hroot.
  unfold add. erewrite bind_Ret by reflexivity. rewrite Hroot.
  set (new := next_ref st).
  set (h1 := <[new := mkNode key None None None 0]> (heap st)).
  set (st1 := mkTree h1 (Pos.succ new) (Some new) (size st + 1) (top st) (bottom st)
                (self_balancing st)).
  destruct (count_node_spec (leaf new) (fuel_of st1) st1 None) as (h2 & E2 & O2 & L2 & C2).
  { unfold leaf. cbn [shape]. unfold st1, h1. cbn [heap].
    rewrite lookup_total_insert_eq. cbn. auto. }
  { cbn. apply NoDup_singleton. }
  { unfold st1, fuel_of. cbn [next_ref depth leaf]. lia. }
  exists (set_heap h2 st1). split.
  { erewrite bind_Ret by apply new_node_eq.
    erewrite bind_Ret by reflexivity.
    erewrite bind_Ret by reflexivity.
    erewrite bind_Ret by reflexivity.
    erewrite bind_Ret by (rewrite with_fuel_eq; exact E2). reflexivity. }
  split.
  { constructor; unfold st1;
      cbn [root heap set_heap next_ref size fuel_of leaf ids app top_of length].
    - reflexivity.
    - eapply shape_ext; [intros j _; apply L2|]. unfold leaf. cbn [shape].
      unfold st1, h1. cbn [heap]. rewrite lookup_total_insert_eq. cbn. auto.
    - apply NoDup_singleton.
    - intros i Hi. apply list_elem_of_singleton in Hi. subst. lia.
    - unfold fuel_of, leaf. cbn [next_ref set_heap ids app length]. lia.
    - rewrite (rep_size _ _ Hrep). unfold leaf. cbn [ids app length]. lia.
    - exact C2. }
  split; [|repeat split].
  intros i. cbn [heap set_heap]. destruct (L2 i) as (_ & ->).
  unfold st1, h1. cbn [heap]. case_decide as Hi.
  - subst i. now rewrite lookup_total_insert_eq.
  - now rewrite lookup_total_insert_ne by congruence.
Qed.

(** [add] refines its pure shadow: the link structure afterwards is
    [add_abs] of the one before, the new key sits in a node object that did
    not exist, and no other key changes. *)
Lemma add_exact key st T kf :
  rep st T -> (forall i, i ∈ ids T -> data (heap st !!! i) = kf i) ->
  match add_abs kf (top st) (bottom st) (self_balancing st) (next_ref st) T key with
  | None => add key st = (Ret false, st)
  | Some T' =>
    exists st',
      add key st = (Ret true, st') /\ rep st' T' /\
      (forall i, data (heap st' !!! i) =
                 if decide (i = next_ref st) then key else data (heap st !!! i)) /\
      top st' = top st /\ bottom st' = bottom st /\
      self_balancing st' = self_balancing st /\
      next_ref st' = Pos.succ (next_ref st)
  end.
Proof.
  intros Hrep Hkf. unfold add_abs.
  rewrite <- (find_slot_ext (fun i => data (heap st !!! i)) kf key T Hkf).
  destruct T as [|l c r].
  - cbn [find_slot]. apply add_empty. exact Hrep.
  - pose proof (add_loop_exact key (Br l c r) [] st (fuel_of st) c eq_refl
                  (rep_shape _ _ Hrep)) as Hloop.
    assert (Hfuel : (depth (Br l c r) <= fuel_of st)%nat).
    { pose proof (depth_le_length (Br l c r)). pose proof (rep_fuel _ _ Hrep). lia. }
    specialize (Hloop Hfuel).
    assert (Hadd : add key st = add_loop (fuel_of st) key c st).
    { unfold add. erewrite bind_Ret by reflexivity.
      rewrite (rep_root _ _ Hrep). reflexivity. }
    destruct (find_slot _ key (Br l c r) []) as [F|].
    + destruct Hloop as (f & F' & -> & Ep & E). cbn [plug] in Ep.
      change (plug (f :: F') Lf = Br l c r) in Ep. rewrite <- Ep in Hrep.
      destruct (attach_exact key st f F' Hrep) as (st' & Ea & R' & Rest).
      exists st'. rewrite Hadd, E. split; [exact Ea|]. split; [|exact Rest].
      destruct (self_balancing st); exact R'.
    + rewrite Hadd. exact Hloop.
Qed.

Lemma upto_S n : upto (S n) = upto n ++ [Z.of_nat n + 1].
Proof. unfold upto. rewrite seq_S, fmap_app. reflexivity. Qed.

Lemma add_all_app a b t : add_all (a ++ b) t = add_all b (add_all a t).
Proof. unfold add_all. apply foldl_app. Qed.

Lemma height_rep st T : rep st T -> height st = Ret (Z.of_nat (depth T) - 1).
Proof.
  intros Hrep. unfold height. rewrite (rep_root _ _ Hrep).
  apply (getHeight_spec _ _ _ None (rep_shape _ _ Hrep)).
  pose proof (depth_le_length T). pose proof (rep_fuel _ _ Hrep). lia.
Qed.

(** Ascending insertion of [1..n]: the tree is the pure shadow [asc_abs],
    and the [k]-th node object holds the key [k]. *)
Lemma ascending_rep sb tp0 bo0 n :
  let st0 := init sb tp0 bo0 in
  let st := add_all (upto n) st0 in
  rep st (asc_abs (top st0) (bottom st0) sb n) /\
  next_ref st = Pos.of_succ_nat n /\
  (forall i, (i < next_ref st)%positive -> data (heap st !!! i) = Z.pos i) /\
  top st = top st0 /\ bottom st = bottom st0 /\ self_balancing st = sb.
Proof.
  cbv zeta. induction n as [|n IH].
  - cbn [upto seq fmap list_fmap add_all foldl asc_abs].
    split; [apply rep_init|]. split; [unfold init; case_decide; reflexivity|].
    split; [intros i Hi; unfold init in Hi; case_decide; cbn in Hi; lia|].
    split; [reflexivity|]. split; [reflexivity|].
    unfold init. case_decide; reflexivity.
  - destruct IH as (Hrep & Hnext & Hdata & Ht & Hb & Hsb).
    rewrite upto_S, add_all_app. cbn [add_all foldl asc_abs]. cbv zeta.
    fold (add_all (upto n) (init sb tp0 bo0)).
    set (st := add_all (upto n) (init sb tp0 bo0)) in *.
    set (T := asc_abs (top (init sb tp0 bo0)) (bottom (init sb tp0 bo0)) sb n) in *.
    assert (Hd : forall i, i ∈ ids T -> data (heap st !!! i) = Z.pos i)
      by (intros i Hi; apply Hdata, (rep_fresh _ _ Hrep), Hi).
    pose proof (add_exact (Z.of_nat n + 1) st T Z.pos Hrep Hd) as Hadd.
    rewrite Ht, Hb, Hsb, Hnext in Hadd.
    destruct (add_abs Z.pos _ _ sb (Pos.of_succ_nat n) T (Z.of_nat n + 1)) as [T'|] eqn:Eabs.
    + destruct Hadd as (st' & E & R' & D' & P1 & P2 & P3 & P4).
      rewrite E. cbn [snd].
      split; [exact R'|]. split; [rewrite P4; cbn [Pos.of_succ_nat]; reflexivity|].
      split; [|rewrite P1, P2, P3; auto].
      intros i Hi. rewrite D'. case_decide as Hi'; [subst i; lia|].
      apply Hdata. rewrite P4 in Hi. lia.
    + exfalso. unfold add_abs in Eabs.
      destruct (find_slot Z.pos (Z.of_nat n + 1) T []) as [[|f F]|] eqn:Efs;
        try discriminate.
      destruct (find_slot_None _ _ _ _ Efs) as (i & Hi & Ei).
      pose proof (rep_fresh _ _ Hrep i Hi) as Hlt. rewrite Hnext in Hlt. lia.
Qed.

Lemma ascending_height sb tp0 bo0 n :
  height (add_all (upto n) (init sb tp0 bo0)) =
  Ret (Z.of_nat (depth (asc_abs (top (init sb tp0 bo0)) (bottom (init sb tp0 bo0)) sb n)) - 1).
Proof. apply height_rep, ascending_rep. Qed.

(** * Removal, indexing, set algebra: general facts *)

Lemma lefts_app a b : lefts (a ++ b) = lefts b ++ lefts a.
Proof.
  induction a as [|[i r|l i] a IH]; cbn [app lefts].
  - now rewrite app_nil_r.
  - exact IH.
  - rewrite IH, <- !app_assoc. reflexivity.
Qed.

(** The path down to the leftmost node turns left at every step. *)
Lemma leftmost_path_lefts s :
  s <> Lf ->
  exists fsm m rm,
    plug fsm (Br Lf m rm) = s /\ head (ids s) = Some m /\ lefts fsm = [].
Proof.
  induction s as [|l IHl i r _]; [congruence|]. intros _.
  destruct l as [|ll j lr].
  - exists [], i, r. repeat split; reflexivity.
  - destruct (IHl ltac:(congruence)) as (fsm & m & rm & E & Hh & Hl).
    exists (fsm ++ [FL i r]), m, rm. split; [|split].
    + rewrite plug_app, E. reflexivity.
    + cbn [ids] in *. destruct (ids ll ++ j :: ids lr); [discriminate|]. exact Hh.
    + rewrite lefts_app, Hl. reflexivity.
Qed.

(** [unlinkNode] takes exactly the key of [n0] out of the ascending
    sequence of keys; every other key stays where it was. *)
Lemma unlinkNode_keys st T n0 :
  linked st T -> n0 ∈ ids T ->
  exists h' T',
    unlinkNode n0 st =
      (Ret tt, set_size (size st + -1) (set_root (top_of T') (set_heap h' st))) /\
    linked (set_size (size st + -1) (set_root (top_of T') (set_heap h' st))) T' /\
    (forall q, parent (heap st !!! n0) = Some q -> q ∈ ids T') /\
    S (length (ids T')) = length (ids T) /\
    exists A B,
      keys (heap st) T = A ++ data (heap st !!! n0) :: B /\
      keys h' T' = A ++ B.
Proof.
  intros Hlk Hin.
  destruct (decompose T n0 Hin) as (fs & s & -> & Ht).
  destruct (top_of_Some _ _ Ht) as (l & r & ->).
  pose proof (lk_shape _ _ Hlk) as Hshape.
  apply shape_plug in Hshape as Hsh. destruct Hsh as (Ss & Cs).
  cbn [shape] in Ss. destruct Ss as (Hp & Hl & Hr & Sl & Sr).
  assert (Hpar : forall F q, par_of fs = Some q -> q ∈ lefts (F ++ fs) ++ rights (F ++ fs)).
  { intros F q Hq. destruct fs as [|f fs']; [discriminate|]. injection Hq as <-.
    pose proof (ids_plug (F ++ f :: fs') Lf) as E. rewrite plug_app, ids_plug in E.
    cbn [ids app] in E.
    assert (X : fid f ∈ ids (plug F Lf) ++ lefts (f :: fs') ++ rights (f :: fs')).
    { apply elem_of_app. right. eapply fid_in. reflexivity. }
    assert (Y : fid f ∈ lefts (f :: fs') ++ ids (plug F Lf) ++ rights (f :: fs')) by set_solver.
    rewrite E in Y. exact Y. }
  unfold unlinkNode.
  erewrite bind_Ret by apply field_eq. rewrite Hl.
  erewrite bind_Ret by apply field_eq. rewrite Hr.
  destruct l as [|ll lj lr]; [|destruct r as [|rl rj rr]].
  - (* no left child *)
    cbn [top_of]. rewrite bool_decide_false by congruence. cbn [andb].
    erewrite bind_Ret by reflexivity.
    destruct (splice_out_spec st fs Lf n0 r (lk_root _ _ Hlk) (lk_shape _ _ Hlk)
                (lk_nodup _ _ Hlk) (or_introl eq_refl)) as (h' & E & Hs' & Hpay).
    cbv zeta in *.
    destruct (linked_splice st fs Lf n0 r h' Hlk (or_introl eq_refl) Hs')
      as (L' & Hsub & Hfr & Hlen).
    exists h', (plug fs r). split; [exact E|]. split; [exact L'|].
    split; [|split; [assumption|]].
    { intros q Hq. apply Hfr. rewrite Hp in Hq. apply (Hpar [] q Hq). }
    exists ((fun i => data (heap st !!! i)) <$> lefts fs),
           (keys (heap st) r ++ ((fun i => data (heap st !!! i)) <$> rights fs)).
    split.
    + rewrite keys_plug, keys_Br. reflexivity.
    + rewrite (keys_ext (heap st) h') by (intros i _; apply Hpay).
      rewrite keys_plug. reflexivity.
  - (* no right child *)
    cbn [top_of]. rewrite (bool_decide_false (None <> None)) by congruence.
    rewrite andb_false_r.
    erewrite bind_Ret by reflexivity.
    destruct (splice_out_spec st fs (Br ll lj lr) n0 Lf (lk_root _ _ Hlk) (lk_shape _ _ Hlk)
                (lk_nodup _ _ Hlk) (or_intror eq_refl)) as (h' & E & Hs' & Hpay).
    cbv zeta in *.
    destruct (linked_splice st fs (Br ll lj lr) n0 Lf h' Hlk (or_intror eq_refl) Hs')
      as (L' & Hsub & Hfr & Hlen).
    exists h', (plug fs (Br ll lj lr)). split; [exact E|]. split; [exact L'|].
    split; [|split; [assumption|]].
    { intros q Hq. apply Hfr. rewrite Hp in Hq. apply (Hpar [] q Hq). }
    exists (((fun i => data (heap st !!! i)) <$> lefts fs) ++ keys (heap st) (Br ll lj lr)),
           ((fun i => data (heap st !!! i)) <$> rights fs).
    split.
    + rewrite keys_plug, (keys_Br _ (Br ll lj lr) n0 Lf).
      unfold keys at 2. cbn [ids fmap list_fmap app]. rewrite <- !app_assoc. reflexivity.
    + rewrite (keys_ext (heap st) h') by (intros i _; apply Hpay).
      rewrite keys_plug, <- !app_assoc. reflexivity.
  - (* two children: the successor is unlinked instead *)
    cbn [top_of]. rewrite !bool_decide_true by congruence. cbn [andb].
    set (R := Br rl rj rr) in *.
    destruct (leftmost_spec R (fuel_of st) st (Some n0) rj eq_refl Sr) as (m & rest & Em & El).
    { pose proof (depth_le_length R). pose proof (lk_fuel _ _ Hlk) as Hf.
      pose proof (length_frames_plug fs (Br (Br ll lj lr) n0 R)) as Hx.
      cbn [ids] in Hx. rewrite ?length_app in Hx. cbn [length] in Hx.
      rewrite ?length_app in Hx. lia. }
    destruct (leftmost_path_lefts R ltac:(discriminate)) as (fsm & m' & rm & Ep & Hh & Hlf).
    rewrite Em in Hh. injection Hh as <-.
    set (F := fsm ++ FR (Br ll lj lr) n0 :: fs).
    assert (EF : plug fs (Br (Br ll lj lr) n0 R) = plug F (Br Lf m rm)).
    { unfold F. rewrite plug_app, Ep. reflexivity. }
    assert (K0 : keys (heap st) (plug fs (Br (Br ll lj lr) n0 R)) =
                 (((fun i => data (heap st !!! i)) <$> lefts fs) ++ keys (heap st) (Br ll lj lr)) ++
                 data (heap st !!! n0) :: data (heap st !!! m) ::
                 (keys (heap st) rm ++ ((fun i => data (heap st !!! i)) <$> rights F))).
    { rewrite EF, keys_plug. unfold F at 1. rewrite lefts_app, Hlf, app_nil_r.
      cbn [lefts]. rewrite !fmap_app, keys_Br. unfold keys at 1. cbn [ids fmap list_fmap app].
      rewrite <- !app_assoc. reflexivity. }
    rewrite EF in *.
    set (d := data (heap st !!! m)).
    set (h1 := <[n0 := with_data d (heap st !!! n0)]> (heap st)).
    assert (L1 : forall i, same_links (h1 !!! i) (heap st !!! i)).
    { intros i. unfold h1. destruct (decide (n0 = i)) as [<-|Hne].
      - rewrite lookup_total_insert_eq. unfold same_links. auto.
      - rewrite lookup_total_insert_ne by exact Hne. unfold same_links. auto. }
    assert (Lk1 : linked (set_heap h1 st) (plug F (Br Lf m rm))).
    { destruct Hlk. constructor; cbn [root heap next_ref size set_heap fuel_of]; try assumption.
      eapply shape_ext; [|eassumption]. intros j _. apply L1. }
    destruct (splice_out_spec (set_heap h1 st) F Lf m rm (lk_root _ _ Lk1) (lk_shape _ _ Lk1)
                (lk_nodup _ _ Lk1) (or_introl eq_refl)) as (h' & E & Hs' & Hpay).
    cbv zeta in *.
    destruct (linked_splice (set_heap h1 st) F Lf m rm h' Lk1 (or_introl eq_refl) Hs')
      as (L' & Hsub & Hfr & Hlen).
    exists h', (plug F rm). split; [|split; [exact L'|]].
    + erewrite bind_Ret.
      2:{ erewrite bind_Ret.
          2:{ unfold successor. erewrite bind_Ret by apply field_eq. rewrite Hr.
              cbn [top_of R]. erewrite bind_Ret by (rewrite with_fuel_eq; exact El).
              reflexivity. }
          cbn [attr]. erewrite bind_Ret by apply field_eq. fold d.
          erewrite bind_Ret by apply update_eq. fold h1. reflexivity. }
      exact E.
    + split; [|split; [assumption|]].
      { intros q Hq. apply Hfr. rewrite Hp in Hq. unfold F.
        change (FR (Br ll lj lr) n0 :: fs) with ([FR (Br ll lj lr) n0] ++ fs).
        rewrite app_assoc. apply (Hpar _ q Hq). }
      eexists _, _. split; [exact K0|].
      (* the keys afterwards *)
      set (X := lefts fs ++ ids (Br ll lj lr)).
      set (Y := ids rm ++ rights F).
      assert (EL : lefts F = X ++ [n0]).
      { unfold F, X. rewrite lefts_app, Hlf, app_nil_r. cbn [lefts].
        rewrite <- !app_assoc. reflexivity. }
      pose proof (lk_nodup _ _ Hlk) as Hnd.
      rewrite ids_plug, EL in Hnd. cbn [ids app] in Hnd. fold Y in Hnd.
      rewrite <- app_assoc in Hnd. cbn [app] in Hnd.
      apply NoDup_app in Hnd. destruct Hnd as (_ & DX & Hnd).
      apply NoDup_cons in Hnd. destruct Hnd as (DY & _).
      assert (Hd' : forall i, data (h' !!! i) =
                      if decide (i = n0) then d else data (heap st !!! i)).
      { intros i. destruct (Hpay i) as (-> & _). cbn [heap set_heap]. unfold h1.
        case_decide as Hi.
        - subst i. rewrite lookup_total_insert_eq. reflexivity.
        - rewrite lookup_total_insert_ne by congruence. reflexivity. }
      assert (Hext : forall l : list ref, n0 ∉ l ->
                (fun i => data (h' !!! i)) <$> l = (fun i => data (heap st !!! i)) <$> l).
      { intros l0 Hl0. apply list_fmap_ext. intros k i Hk. rewrite Hd'.
        rewrite decide_False; [reflexivity|]. intros ->.
        apply Hl0. eapply list_elem_of_lookup_2. exact Hk. }
      rewrite keys_plug, EL. fold (ids rm ++ rights F).
      rewrite fmap_app. cbn [fmap list_fmap]. rewrite Hd', decide_True by reflexivity.
      rewrite <- app_assoc. cbn [app].
      rewrite (Hext X) by (intros HX; apply (DX n0 HX); set_solver).
      unfold X. rewrite fmap_app. f_equal. f_equal.
      unfold keys.
      rewrite (Hext (ids rm)) by (intros HY; apply DY; unfold Y; set_solver).
      rewrite (Hext (rights F)) by (intros HY; apply DY; unfold Y; set_solver).
      reflexivity.
Qed.

(** What [remove] does, in terms of the node [findEntry] returns. *)
Lemma remove_found key st T :
  rep st T ->
  exists r,
    with_fuel (fun fuel => findEntry fuel key (root st)) st = (Ret r, st) /\
    match r with
    | None =>
      remove key st = (Ret false, st) /\
      (key ∉ keys (heap st) T \/ ~ StronglySorted Z.lt (keys (heap st) T))
    | Some n =>
      n ∈ ids T /\ data (heap st !!! n) = key /\
      exists st' T' A B,
        remove key st =
          (if self_balancing st && bool_decide (parent (heap st !!! n) = None) &&
              bool_decide (root st' <> None)
           then Raise AttributeError else Ret true, st') /\
        rep st' T' /\
        keys (heap st) T = A ++ key :: B /\ keys (heap st') T' = A ++ B /\
        top st' = top st /\ bottom st' = bottom st /\
        self_balancing st' = self_balancing st /\ next_ref st' = next_ref st
    end.
Proof.
  intros Hrep.
  destruct (findEntry_spec key T (fuel_of st) st None (rep_shape _ _ Hrep)) as (r & E & Hr).
  { pose proof (depth_le_length T). pose proof (rep_fuel _ _ Hrep). lia. }
  rewrite <- (rep_root _ _ Hrep) in E.
  exists r. split; [rewrite with_fuel_eq; exact E|].
  unfold remove. erewrite bind_Ret by reflexivity.
  erewrite bind_Ret by (rewrite with_fuel_eq; exact E).
  destruct r as [n|]; [|split; [reflexivity|exact Hr]].
  destruct Hr as (Hn & Hkey). split; [exact Hn|]. split; [exact Hkey|].
  erewrite bind_Ret by apply field_eq.
  destruct (unlinkNode_keys st T n (rep_linked _ _ Hrep) Hn)
    as (h1 & T' & E1 & Lk1 & Hpar & Hlen & A & B & KA & KB).
  rewrite Hkey in KA.
  erewrite bind_Ret by exact E1.
  set (st1 := set_size (size st + -1) (set_root (top_of T') (set_heap h1 st))) in *.
  destruct (recount st1 T' Lk1) as (h2 & E2 & R2 & D2).
  erewrite bind_Ret by reflexivity.
  erewrite bind_Ret by (rewrite with_fuel_eq; exact E2).
  set (st2 := set_heap h2 st1) in *.
  assert (K2 : keys (heap st2) T' = A ++ B).
  { rewrite <- KB. apply keys_ext. intros i _. apply D2. }
  destruct (parent (heap st !!! n)) as [q|] eqn:Hq.
  - destruct (fix_balance_spec st2 T' q R2 (Hpar q eq_refl))
      as (st3 & T3 & E3 & R3 & I3 & D3 & (P1 & P2 & P3 & P4)).
    erewrite bind_Ret by exact E3.
    exists st3, T3, A, B. rewrite (bool_decide_false (Some q = None)) by discriminate.
    rewrite andb_false_r. cbn [andb].
    split; [reflexivity|]. split; [exact R3|]. split; [exact KA|].
    split.
    { rewrite <- K2. unfold keys. rewrite I3. apply list_fmap_ext. intros ? i _. apply D3. }
    rewrite P1, P2, P3, P4. repeat split; reflexivity.
  - unfold mbind, M_bind, bind. rewrite (fix_balance_None st2).
    exists st2, T', A, B.
    rewrite (bool_decide_true (None = None)) by reflexivity. rewrite andb_true_r.
    assert (Q3 : self_balancing st2 = self_balancing st) by reflexivity.
    split.
    { rewrite Q3. destruct (self_balancing st); cbn [andb]; [|reflexivity].
      destruct (root st2) as [c|] eqn:Ert.
      - rewrite bool_decide_true by discriminate. reflexivity.
      - rewrite bool_decide_false by tauto. reflexivity. }
    split; [exact R2|]. split; [exact KA|]. split; [exact K2|].
    repeat split; reflexivity.
Qed.

Lemma sorted_without (A B : list Z) k :
  StronglySorted Z.lt (A ++ k :: B) ->
  StronglySorted Z.lt (A ++ B) /\
  forall x, x ∈ A ++ B <-> x ∈ A ++ k :: B /\ x <> k.
Proof.
  intros Hs. apply StronglySorted_app in Hs. destruct Hs as (HAB & SA & SB).
  apply StronglySorted_cons in SB. destruct SB as (HkB & SB).
  rewrite Forall_forall in HkB.
  split.
  - apply StronglySorted_app. split; [|split; assumption].
    intros a b Ha Hb. apply HAB; [exact Ha|]. set_solver.
  - intros x. split.
    + intros Hx. apply elem_of_app in Hx. destruct Hx as [Hx|Hx].
      * split; [set_solver|]. specialize (HAB x k Hx ltac:(set_solver)). lia.
      * split; [set_solver|]. specialize (HkB x Hx). lia.
    + intros (Hx & Hne). set_solver.
Qed.

Lemma keys_inj h T i j :
  NoDup (keys h T) -> i ∈ ids T -> j ∈ ids T ->
  data (h !!! i) = data (h !!! j) -> i = j.
Proof.
  unfold keys. generalize (ids T). intros l. induction l as [|a l IH]; intros Hnd Hi Hj E.
  - set_solver.
  - cbn [fmap list_fmap] in Hnd. apply NoDup_cons in Hnd. destruct Hnd as (Ha & Hnd).
    apply elem_of_cons in Hi. apply elem_of_cons in Hj.
    destruct Hi as [->|Hi], Hj as [->|Hj]; [reflexivity| | |apply IH; assumption].
    + exfalso. apply Ha. rewrite E. apply (list_elem_of_fmap_2 (fun i => data (h !!! i))). exact Hj.
    + exfalso. apply Ha. rewrite <- E. apply (list_elem_of_fmap_2 (fun i => data (h !!! i))). exact Hi.
Qed.

(** Only the root node has no parent. *)
Lemma parent_None_root st T n :
  rep st T -> n ∈ ids T -> (parent (heap st !!! n) = None <-> root st = Some n).
Proof.
  intros Hrep Hn. destruct (decompose T n Hn) as (fs & s & -> & Ht).
  destruct (top_of_Some _ _ Ht) as (l & r & ->).
  pose proof (rep_shape _ _ Hrep) as Hs. apply shape_plug in Hs. destruct Hs as (Ss & _).
  cbn [shape] in Ss. destruct Ss as (Hp & _). rewrite Hp, (rep_root _ _ Hrep).
  destruct fs as [|f fs].
  - cbn. tauto.
  - split; [discriminate|]. intros E. exfalso.
    destruct (top_of_plug (f :: fs) ltac:(discriminate) (Br l n r)) as (j & Ej & Hj).
    rewrite Ej in E. injection E as ->.
    destruct (NoDup_plug _ _ (rep_nodup _ _ Hrep)) as (_ & _ & Hd).
    apply (Hd n); [cbn; set_solver|exact Hj].
Qed.


(** One mutator on a search tree: the keys change as the set does. *)
Lemma bst_run_op o st T :
  bst st T ->
  exists T',
    bst (run_op o st) T' /\
    forall k, k ∈ keys (heap (run_op o st)) T' <->
              match o with
              | Add key => k = key \/ k ∈ keys (heap st) T
              | Remove key => k ∈ keys (heap st) T /\ k <> key
              end.
Proof.
  intros (Hrep & Hs). destruct o as [key|key]; cbn [run_op].
  - destruct (add_spec key st T Hrep) as (st' & T' & b & E & R' & _ & _ & _ & H).
    destruct (H Hs) as (S' & Hb). rewrite E. cbn [snd].
    exists T'. split; [split; assumption|]. intros k. destruct b.
    + destruct Hb as (_ & P). rewrite P. set_solver.
    + destruct Hb as (Hin & ->).
      assert (EK : keys (heap st) T' = keys (heap st) T).
      { unfold keys. f_equal.
        rewrite <- (tree_nodes_spec st T Hrep), <- (tree_nodes_spec st T' R'). reflexivity. }
      rewrite EK. set_solver.
  - destruct (remove_found key st T Hrep) as ([n|] & _ & Hr).
    + destruct Hr as (Hn & Hd & st' & T' & A & B & E & R' & KA & KB & _).
      rewrite E. cbn [snd]. exists T'. rewrite KA in Hs.
      destruct (sorted_without A B key Hs) as (S' & Hmem).
      split; [split; [exact R'|rewrite KB; exact S']|].
      intros k. rewrite KB, KA. apply Hmem.
    + destruct Hr as (E & [Hr|Hr]); [|contradiction].
      rewrite E. cbn [snd]. exists T. split; [split; assumption|].
      intros k. split; [|tauto]. intros Hk. split; [exact Hk|]. intros ->. contradiction.
Qed.

Lemma bst_run_ops_set ops :
  forall st T (s : gset Z),
    bst st T -> (forall k, k ∈ keys (heap st) T <-> k ∈ s) ->
    exists T',
      bst (run_ops ops st) T' /\
      (forall k, k ∈ keys (heap (run_ops ops st)) T' <->
                 k ∈ foldl (fun s o => match o with
                                       | Add k => {[k]} ∪ s
                                       | Remove k => s ∖ {[k]}
                                       end) s ops).
Proof.
  induction ops as [|o ops IH]; intros st T s Hb Hs.
  - exists T. split; [exact Hb|exact Hs].
  - cbn [run_ops foldl]. fold (run_ops ops (run_op o st)).
    destruct (bst_run_op o st T Hb) as (T' & Hb' & Hk).
    apply (IH _ T'); [exact Hb'|].
    intros k. rewrite Hk. destruct o; rewrite Hs; set_solver.
Qed.

(** [__iter__] of the cursor moves it back to the smallest key and keeps
    [pending]. *)
Lemma it_iter_spec st T it :
  rep st T -> it_iter (st, it) = (Ret tt, (st, mkIter (pending it) (head (ids T)))).
Proof.
  intros Hrep. unfold it_iter. erewrite bind_Ret by reflexivity.
  erewrite bind_Ret.
  2:{ unfold on_tree. cbn [fst snd]. now rewrite (getSmallestValue_spec st T Hrep). }
  reflexivity.
Qed.

Lemma getitem_loop_spec st T ind :
  rep st T ->
  forall rest it i fuel,
    at_pos T it rest -> (length rest < fuel)%nat -> i <= ind ->
    exists it',
      getitem_loop fuel i ind (st, it) =
      (Ret (((fun i => data (heap st !!! i)) <$> rest) !! Z.to_nat (ind - i)), (st, it')).
Proof.
  intros Hrep. induction rest as [|a rest IH]; intros it i fuel Hpos Hf Hi;
    (destruct fuel as [|fuel]; [cbn [length] in Hf; lia|]); cbn [getitem_loop].
  - destruct Hpos as (_ & Hc). cbn [head] in Hc.
    rewrite (it_next_stop st it Hc). exists it. reflexivity.
  - rewrite (it_next_spec st T it a rest Hrep Hpos).
    case_decide as Hd.
    + subst i. eexists. rewrite Z.sub_diag. reflexivity.
    + destruct (IH (mkIter (Some a) (head rest)) (i + 1) fuel) as (it' & E).
      { eapply at_pos_next. exact Hpos. }
      { cbn [length] in Hf. lia. }
      { lia. }
      exists it'. rewrite E. f_equal. f_equal.
      replace (Z.to_nat (ind - i)) with (S (Z.to_nat (ind - (i + 1)))) by lia.
      reflexivity.
Qed.

Lemma getitem_spec ind st T :
  rep st T ->
  getitem ind st =
  if decide (ind < 0 \/ ind >= size st) then Raise IndexError
  else Ret (keys (heap st) T !! Z.to_nat ind).
Proof.
  intros Hrep. unfold getitem. case_decide as Hb; [reflexivity|].
  destruct (iterator_spec st T Hrep) as (it & -> & Hpos).
  erewrite bind_Ret by (apply it_iter_spec; exact Hrep).
  destruct (getitem_loop_spec st T ind Hrep (ids T) (mkIter (pending it) (head (ids T)))
              0 (fuel_of st)) as (it' & E).
  { split; [exists []; reflexivity|reflexivity]. }
  { apply Hrep. }
  { lia. }
  rewrite E. cbn [fst]. rewrite Z.sub_0_r. reflexivity.
Qed.

















Lemma find_slot_rchain key n :
  forall k fs,
    Z.pos k + Z.of_nat n <= key ->
    exists F, find_slot Z.pos key (rchain k n Lf) fs = Some F /\
              forall s, plug F s = plug fs (rchain k n s).
Proof.
  induction n as [|n IH]; intros k fs Hk; cbn [rchain find_slot].
  - exists fs. split; reflexivity.
  - assert (C : (Z.pos k ?= key) = Lt) by (apply Z.compare_lt_iff; lia).
    rewrite C. destruct (IH (Pos.succ k) (FR Lf k :: fs) ltac:(lia)) as (F & E & HF).
    exists F. split; [exact E|]. intros s. rewrite HF. reflexivity.
Qed.

Lemma rchain_snoc n : forall k, rchain k n (leaf (Nat.iter n Pos.succ k)) = rchain k (S n) Lf.
Proof.
  induction n as [|n IH]; intros k; [reflexivity|].
  cbn [rchain]. f_equal. rewrite Nat.iter_succ_r. rewrite IH. reflexivity.
Qed.

Lemma of_succ_nat_iter n : Pos.of_succ_nat n = Nat.iter n Pos.succ 1%positive.
Proof. induction n as [|n IH]; [reflexivity|]. cbn [Pos.of_succ_nat Nat.iter]. now rewrite IH. Qed.

Lemma depth_rchain n : forall k, depth (rchain k n Lf) = n.
Proof.
  induction n as [|n IH]; intros k; [reflexivity|].
  cbn [rchain depth]. rewrite IH. reflexivity.
Qed.

(** Without balancing, ascending keys hang each new node to the right of
    the previous one. *)
Lemma asc_abs_chain tp bo n : asc_abs tp bo false n = rchain 1 n Lf.
Proof.
  induction n as [|n IH]; [reflexivity|].
  cbn [asc_abs]. cbv zeta. rewrite IH. unfold add_abs.
  destruct (find_slot_rchain (Z.of_nat n + 1) n 1%positive []) as (F & E & HF); [lia|].
  rewrite E. rewrite <- rchain_snoc, <- of_succ_nat_iter.
  pose proof (HF (leaf (Pos.of_succ_nat n))) as HFl.
  change (plug [] ?x) with x in HFl. rewrite <- HFl.
  destruct F; reflexivity.
Qed.

(** [BSTIterator.remove] on a pending node of the tree: the node's key is
    taken out, the cursor is repositioned, and the read of the mangled
    attribute raises before the counters are recomputed. *)
Lemma it_remove_spec st T it p :
  rep st T -> pending it = Some p -> p ∈ ids T ->
  exists h' T' A B,
    let st' := set_size (size st + -1) (set_root (top_of T') (set_heap h' st)) in
    it_remove (st, it) =
      (Raise AttributeError,
       (st', mkIter None
               (if bool_decide (left (heap st !!! p) <> None) &&
                   bool_decide (right (heap st !!! p) <> None)
                then Some p else current it))) /\
    linked st' T' /\
    keys (heap st) T = A ++ data (heap st !!! p) :: B /\
    keys h' T' = A ++ B.
Proof.
  intros Hrep Hp Hin.
  destruct (unlinkNode_keys st T p (rep_linked _ _ Hrep) Hin)
    as (h1 & T' & E1 & Lk1 & _ & _ & A & B & KA & KB).
  exists h1, T', A, B. cbv zeta. split; [|split; [exact Lk1|split; assumption]].
  unfold it_remove. erewrite bind_Ret by reflexivity. cbn [snd]. rewrite Hp.
  erewrite bind_Ret by reflexivity.
  erewrite bind_Ret by reflexivity.
  erewrite bind_Ret by reflexivity.
  cbn [fst snd].
  erewrite bind_Ret.
  2:{ instantiate (1 := (st, mkIter (Some p)
         (if bool_decide (left (heap st !!! p) <> None) &&
             bool_decide (right (heap st !!! p) <> None)
          then Some p else current it))).
      instantiate (1 := tt).
      destruct (bool_decide _ && bool_decide _); [|destruct it; cbn in *; subst; reflexivity].
      unfold set_current. cbn [fst snd pending]. rewrite Hp. reflexivity. }
  erewrite bind_Ret.
  2:{ unfold on_tree. cbn [fst snd]. rewrite E1. reflexivity. }
  erewrite bind_Ret by reflexivity.
  cbn [fst snd current pending].
  erewrite bind_Raise; [reflexivity|].
  reflexivity.
Qed.


Lemma keys_rchain m :
  forall k h,
    (forall i, i ∈ ids (rchain k m Lf) -> data (h !!! i) = Z.pos i) ->
    keys h (rchain k m Lf) = (fun i => Z.pos k + Z.of_nat i) <$> seq 0 m.
Proof.
  induction m as [|m IH]; intros k h H; [reflexivity|].
  cbn [rchain]. rewrite keys_Br. unfold keys at 1. cbn [ids fmap list_fmap app seq].
  rewrite (H k) by (cbn [rchain ids]; set_solver).
  rewrite (IH (Pos.succ k)) by (intros i Hi; apply H; cbn [rchain ids]; set_solver).
  rewrite Z.add_0_r. f_equal.
  rewrite <- fmap_S_seq, <- list_fmap_compose. apply list_fmap_ext.
  intros ? i _. cbn. lia.
Qed.

Lemma length_rchain m : forall k, length (ids (rchain k m Lf)) = m.
Proof.
  induction m as [|m IH]; intros k; [reflexivity|].
  cbn [rchain ids length app]. rewrite IH. reflexivity.
Qed.

(** The climb of [find_unbalanced] along a path: which nodes it passes. *)
Lemma first_unbalanced_path tp bo fs :
  forall s i,
    top_of s = Some i ->
    match first_unbalanced tp bo s fs with
    | None =>
      balanced_abs tp bo s = true /\
      forall k f, fs !! k = Some f ->
        balanced_abs tp bo (plug (take (S k) fs) s) = true
    | Some (fs_u, s_u) =>
      balanced_abs tp bo s_u = false /\
      exists k, fs_u = drop k fs /\ s_u = plug (take k fs) s /\ (k <= length fs)%nat /\
        forall j, (j < k)%nat -> balanced_abs tp bo (plug (take j fs) s) = true
    end.
Proof.
  induction fs as [|f fs IH]; intros s i Hi; cbn [first_unbalanced].
  - destruct (balanced_abs tp bo s) eqn:Eb.
    + split; [reflexivity|]. intros k f Hk. discriminate.
    + split; [exact Eb|]. exists O. repeat split; [cbn; lia|]. intros j Hj. lia.
  - destruct (balanced_abs tp bo s) eqn:Eb.
    + specialize (IH (plug1 f s) (fid f) (top_of_plug1 f s)).
      destruct (first_unbalanced tp bo (plug1 f s) fs) as [[fs_u s_u]|].
      * destruct IH as (Hu & k & -> & -> & Hk & Hbal). split; [exact Hu|].
        exists (S k). cbn [drop take length]. rewrite plug_cons.
        repeat split; [lia|]. intros [|j] Hj; [exact Eb|].
        cbn [take]. rewrite plug_cons. apply Hbal. lia.
      * destruct IH as (Hb & Hall). split; [reflexivity|].
        intros [|k] g Hk; cbn [take]; rewrite plug_cons.
        -- cbn [take plug]. exact Hb.
        -- apply (Hall k g). exact Hk.
    + split; [exact Eb|]. exists O. repeat split; [cbn; lia|]. intros j Hj. lia.
Qed.

Lemma path_up_frames h fs :
  forall hole fuel,
    cshape h fs hole -> (length fs < fuel)%nat ->
    path_up fuel h (par_of fs) = fid <$> fs.
Proof.
  induction fs as [|f fs IH]; intros hole fuel Hc Hf;
    (destruct fuel as [|fuel]; [cbn [length] in Hf; lia|]); [reflexivity|].
  cbn [par_of path_up fmap list_fmap]. f_equal.
  destruct f as [i r|l i]; cbn [cshape fid] in *;
    destruct Hc as (_ & _ & -> & _ & Hc);
    apply (IH (Some i)); [exact Hc|cbn [length] in Hf; lia|exact Hc|cbn [length] in Hf; lia].
Qed.

Lemma top_of_plug_take fs s i k f :
  top_of s = Some i -> fs !! k = Some f ->
  top_of (plug (take (S k) fs) s) = Some (fid f).
Proof.
  revert s i k. induction fs as [|g fs IH]; intros s i k Hi Hk; [discriminate|].
  destruct k as [|k].
  - injection Hk as ->. cbn [take]. rewrite plug_cons. cbn [take plug]. apply top_of_plug1.
  - cbn [take]. rewrite plug_cons. apply (IH _ (fid g)); [apply top_of_plug1|exact Hk].
Qed.

Lemma is_balanced_on_path st fs s i k :
  rep st (plug fs s) -> top_of s = Some i -> (k <= length fs)%nat ->
  forall a, top_of (plug (take k fs) s) = Some a ->
    is_balanced (Some a) st =
    (Ret (balanced_abs (top st) (bottom st) (plug (take k fs) s)), st).
Proof.
  intros Hrep Hi Hk a Ha.
  assert (E : plug fs s = plug (drop k fs) (plug (take k fs) s)).
  { rewrite <- plug_app, take_drop. reflexivity. }
  rewrite E in Hrep.
  pose proof (rep_shape _ _ Hrep) as Hs. apply shape_plug in Hs. destruct Hs as (Ss & _).
  pose proof (counted_plug _ _ _ (rep_counted _ _ Hrep)) as Cs.
  exact (is_balanced_exact st _ _ a Ha Ss Cs).
Qed.

Lemma path_nth fs s i j :
  top_of s = Some i -> (j <= length fs)%nat ->
  (i :: (fid <$> fs)) !! j = top_of (plug (take j fs) s).
Proof.
  intros Hi Hj. destruct j as [|k]; [rewrite take_0; cbn [plug]; rewrite Hi; reflexivity|].
  cbn [lookup list_lookup]. change ((fid <$> fs) !! k = top_of (plug (take (S k) fs) s)).
  destruct (lookup_lt_is_Some_2 fs k ltac:(lia)) as (f & Ef).
  rewrite list_lookup_fmap, Ef, (top_of_plug_take fs s i k f Hi Ef). reflexivity.
Qed.

Lemma path_up_plug st fs s i :
  rep st (plug fs s) -> top_of s = Some i ->
  path_up (fuel_of st) (heap st) (Some i) = i :: (fid <$> fs).
Proof.
  intros Hrep Hi. destruct (top_of_Some _ _ Hi) as (l & r & ->).
  pose proof (rep_shape _ _ Hrep) as Hs. apply shape_plug in Hs. destruct Hs as (Ss & Cs).
  cbn [shape] in Ss. destruct Ss as (Hp & _).
  pose proof (rep_fuel _ _ Hrep) as Hf. pose proof (length_frames_plug fs (Br l i r)) as Hl.
  cbn [ids] in Hl. rewrite length_app in Hl. cbn [length] in Hl.
  destruct (fuel_of st) as [|fuel] eqn:Ef; [lia|].
  cbn [path_up]. f_equal. rewrite Hp.
  apply (path_up_frames _ _ _ _ Cs). lia.
Qed.

Lemma str_loop_spec str st T :
  rep st T ->
  forall rest it acc fuel,
    at_pos T it rest -> (length rest < fuel)%nat ->
    exists it',
      str_loop str fuel acc (st, it) =
      (Ret (foldl (fun acc k => acc +:+ str k +:+ " ") acc
              ((fun i => data (heap st !!! i)) <$> rest)), (st, it')).
Proof.
  intros Hrep. induction rest as [|a rest IH]; intros it acc fuel Hpos Hf;
    (destruct fuel as [|fuel]; [cbn [length] in Hf; lia|]); cbn [str_loop].
  - destruct Hpos as (_ & Hc). cbn [head] in Hc.
    rewrite (it_next_stop st it Hc). exists it. reflexivity.
  - rewrite (it_next_spec st T it a rest Hrep Hpos).
    destruct (IH (mkIter (Some a) (head rest)) (acc +:+ str (data (heap st !!! a)) +:+ " ") fuel)
      as (it' & E).
    { eapply at_pos_next. exact Hpos. }
    { cbn [length] in Hf. lia. }
    exists it'. rewrite E. reflexivity.
Qed.

Lemma toStringRec_spec str t :
  forall fuel st par sb d,
    shape (heap st) par t -> (depth t < fuel)%nat ->
    toStringRec str fuel (top_of t) sb d st =
    (Ret (sb ++ draw str (heap st) t d), st).
Proof.
  induction t as [|l IHl i r IHr]; intros fuel st par sb d Hs Hf;
    (destruct fuel as [|fuel]; [cbn [depth] in Hf; lia|]); cbn [toStringRec top_of].
  - cbn [draw]. rewrite <- app_assoc. reflexivity.
  - cbn [shape] in Hs. destruct Hs as (_ & Hl & Hr & Sl & Sr). cbn [depth] in Hf.
    erewrite bind_Ret by apply field_eq. rewrite Hl.
    erewrite bind_Ret by apply field_eq. rewrite Hr.
    erewrite bind_Ret by apply field_eq. unfold id.
    destruct l as [|ll lj lr]; [destruct r as [|rl rj rr]|].
    + cbn [top_of draw]. rewrite !bool_decide_false by tauto. cbn [orb].
      rewrite <- !app_assoc. reflexivity.
    + cbn [top_of]. rewrite (bool_decide_false (None <> None)) by tauto.
      rewrite bool_decide_true by discriminate. cbn [orb].
      erewrite bind_Ret by (apply (IHl fuel st (Some i)); [exact Sl|cbn [depth]; lia]).
      change (Some rj) with (top_of (Br rl rj rr)).
      rewrite (IHr fuel st (Some i)); [|exact Sr|lia].
      cbn [draw]. rewrite <- !app_assoc. reflexivity.
    + cbn [top_of]. rewrite bool_decide_true by discriminate. cbn [orb].
      change (Some lj) with (top_of (Br ll lj lr)).
      erewrite bind_Ret by (apply (IHl fuel st (Some i)); [exact Sl|lia]).
      rewrite (IHr fuel st (Some i)); [|exact Sr|lia].
      cbn [draw]. rewrite <- !app_assoc. reflexivity.
Qed.

(** * Runs under the recursion limit *)

Lemma call_enter {St A} limit depth (body : nat -> M St A) :
  (depth < limit)%nat -> call limit depth body = body (S depth).
Proof. intros H. unfold call. rewrite decide_True by exact H. reflexivity. Qed.

Lemma call_overflow {St A} limit depth (body : nat -> M St A) s :
  ~ (depth < limit)%nat -> call limit depth body s = (Raise RecursionError, s).
Proof. intros H. unfold call. rewrite decide_False by exact H. reflexivity. Qed.

(** With room for the deepest frame, the counted [count_node] is
    [count_node]. *)
Lemma count_node_at_enough limit t :
  forall fuel st par d,
    shape (heap st) par t -> NoDup (ids t) -> (depth t < fuel)%nat ->
    (d + depth t < limit)%nat ->
    count_node_at fuel limit d (top_of t) st = count_node fuel (top_of t) st.
Proof.
  induction t as [|l IHl i r IHr]; intros fuel st par d Hs Hnd Hf Hd;
    (destruct fuel as [|fuel]; [cbn [depth] in Hf; lia|]);
    cbn [count_node_at count_node top_of]; rewrite call_enter by (cbn [depth] in Hd; lia);
    [reflexivity|].
  cbn [shape] in Hs. destruct Hs as (Hp & Hl & Hr & Sl & Sr).
  destruct (NoDup_ids_Br _ _ _ Hnd) as (Nl & Nr & _).
  cbn [depth] in Hf, Hd.
  destruct (count_node_spec l fuel st (Some i) Sl Nl ltac:(lia)) as (h1 & E1 & _ & L1 & _).
  assert (Sr1 : shape h1 (Some i) r).
  { eapply shape_ext; [|exact Sr]. intros j _. apply L1. }
  pose proof (IHl fuel st (Some i) (S d) Sl Nl ltac:(lia) ltac:(lia)) as El.
  pose proof (IHr fuel (set_heap h1 st) (Some i) (S d) Sr1 Nr ltac:(lia) ltac:(lia)) as Er.
  unfold mbind, M_bind, bind. rewrite !field_eq, Hl, El, E1.
  rewrite !field_eq, heap_set_heap.
  destruct (L1 i) as ((_ & R1 & _) & _). rewrite R1, Hr, Er. reflexivity.
Qed.

(** Without room for it, [RecursionError] is raised. *)
Lemma count_node_at_deep limit t :
  forall fuel st par d,
    shape (heap st) par t -> NoDup (ids t) -> (depth t < fuel)%nat ->
    ~ (d + depth t < limit)%nat ->
    exists st', count_node_at fuel limit d (top_of t) st = (Raise RecursionError, st').
Proof.
  induction t as [|l IHl i r IHr]; intros fuel st par d Hs Hnd Hf Hd;
    (destruct fuel as [|fuel]; [cbn [depth] in Hf; lia|]);
    cbn [count_node_at top_of].
  - cbn [depth] in Hd. rewrite call_overflow by lia. eauto.
  - destruct (decide (d < limit)%nat) as [Hdl|Hdl]; [|rewrite call_overflow by exact Hdl; eauto].
    rewrite call_enter by exact Hdl.
    cbn [shape] in Hs. destruct Hs as (Hp & Hl & Hr & Sl & Sr).
    destruct (NoDup_ids_Br _ _ _ Hnd) as (Nl & Nr & _).
    cbn [depth] in Hf, Hd.
    erewrite bind_Ret by apply field_eq. rewrite Hl.
    destruct (decide (S d + depth l < limit)%nat) as [Hdl'|Hdl'].
    + destruct (count_node_spec l fuel st (Some i) Sl Nl ltac:(lia)) as (h1 & E1 & _ & L1 & _).
      assert (Sr1 : shape h1 (Some i) r).
      { eapply shape_ext; [|exact Sr]. intros j _. apply L1. }
      rewrite <- (count_node_at_enough limit l fuel st (Some i) (S d) Sl Nl ltac:(lia) Hdl')
        in E1.
      erewrite bind_Ret by exact E1.
      erewrite bind_Ret by apply field_eq. rewrite heap_set_heap.
      destruct (L1 i) as ((_ & R1 & _) & _). rewrite R1, Hr.
      destruct (IHr fuel (set_heap h1 st) (Some i) (S d) Sr1 Nr ltac:(lia) ltac:(lia))
        as (st' & E).
      exists st'. erewrite bind_Raise by exact E. reflexivity.
    + destruct (IHl fuel st (Some i) (S d) Sl Nl ltac:(lia) Hdl') as (st' & E).
      exists st'. erewrite bind_Raise by exact E. reflexivity.
Qed.

Lemma getHeight_at_spec limit h t :
  forall fuel par d, shape h par t -> (depth t < fuel)%nat ->
    getHeight_at fuel limit d h (top_of t) =
    if decide (d + depth t < limit)%nat then Ret (Z.of_nat (depth t) - 1)
    else Raise RecursionError.
Proof.
  induction t as [|l IHl i r IHr]; intros fuel par d Hs Hf;
    (destruct fuel as [|fuel]; [cbn [depth] in Hf; lia|]); cbn [getHeight_at top_of depth].
  - rewrite Nat.add_0_r. destruct (decide (d < limit)%nat); reflexivity.
  - cbn [shape] in Hs. destruct Hs as (_ & Hl & Hr & Sl & Sr). cbn [depth] in Hf.
    rewrite Hl, Hr, (IHl fuel (Some i) (S d) Sl ltac:(lia)),
      (IHr fuel (Some i) (S d) Sr ltac:(lia)).
    repeat case_decide; try lia; try reflexivity. f_equal. lia.
Qed.

Lemma height_at_rep limit d st T :
  rep st T ->
  height_at limit d st =
  if decide (d + depth T + 1 < limit)%nat then Ret (Z.of_nat (depth T) - 1)
  else Raise RecursionError.
Proof.
  intros Hrep. unfold height_at. rewrite (rep_root _ _ Hrep).
  rewrite (getHeight_at_spec limit _ T _ None (S d) (rep_shape _ _ Hrep)).
  2:{ pose proof (depth_le_length T). pose proof (rep_fuel _ _ Hrep). lia. }
  repeat case_decide; try lia; reflexivity.
Qed.

Lemma depth_plug fs : forall s, (length fs + depth s <= depth (plug fs s))%nat.
Proof.
  induction fs as [|[i r|l i] fs IH]; intros s; cbn [plug length]; [lia| |].
  - specialize (IH (Br s i r)). cbn [depth] in IH.
    pose proof (Nat.le_max_l (depth s) (depth r)). lia.
  - specialize (IH (Br l i s)). cbn [depth] in IH.
    pose proof (Nat.le_max_r (depth l) (depth s)). lia.
Qed.

Lemma hang_shape key st f fs :
  rep st (plug (f :: fs) Lf) ->
  let st1 := hang key (fid f) (set_hole f) st in
  let T1 := plug (f :: fs) (leaf (next_ref st)) in
  shape (heap st1) None T1 /\ NoDup (ids T1) /\ root st1 = top_of T1 /\
  (length (ids T1) < fuel_of st1)%nat.
Proof.
  intros [Hroot Hshape Hnd Hfresh Hfuel Hsize _]. cbv zeta.
  set (new := next_ref st). set (q := fid f).
  set (T1 := plug (f :: fs) (leaf new)).
  assert (Iq : q ∈ ids (plug (f :: fs) Lf)).
  { rewrite ids_plug. cbn [ids app]. eapply fid_in. reflexivity. }
  assert (Hqn : q <> new).
  { intros X. pose proof (Hfresh q Iq). unfold new in X. lia. }
  assert (Hnew : new ∉ ids (plug (f :: fs) Lf)).
  { intros X. pose proof (Hfresh new X). unfold new in *. lia. }
  apply shape_plug in Hshape as Hsh. destruct Hsh as (_ & Cs).
  destruct (NoDup_plug _ _ Hnd) as (_ & Nc & _).
  rewrite ids_plug in Hnew. cbn [ids app] in Hnew.
  unfold hang. cbn [heap root next_ref fuel_of]. fold new q.
  set (h1 := <[new := mkNode key None None (Some q) 0]> (heap st)).
  set (h2 := <[q := set_hole f (Some new) (h1 !!! q)]> h1).
  assert (I1 : ids T1 = lefts (f :: fs) ++ [new] ++ rights (f :: fs)).
  { unfold T1. rewrite ids_plug. reflexivity. }
  split; [|split; [|split]].
  - apply shape_plug. split.
    + cbn [shape leaf par_of]. unfold h2. rewrite lookup_total_insert_ne by exact Hqn.
      unfold h1. rewrite lookup_total_insert_eq. cbn. auto.
    + cbn [top_of leaf]. eapply cshape_set_hole; [exact Nc|].
      eapply cshape_ext; [|exact Cs]. intros j Hj. unfold h1.
      rewrite lookup_total_insert_ne; [unfold same_links; auto|].
      intros <-. contradiction.
  - rewrite I1. rewrite ids_plug in Hnd. cbn [ids app] in Hnd.
    apply NoDup_app in Hnd. destruct Hnd as (A & B & C).
    apply NoDup_app. split; [exact A|]. split.
    + intros x Hx Hx'. apply elem_of_app in Hx'. destruct Hx' as [Hx'|Hx'].
      * apply list_elem_of_singleton in Hx'. subst x. apply Hnew. set_solver.
      * now apply (B x).
    + cbn [app]. apply NoDup_cons. split; [|exact C]. set_solver.
  - rewrite Hroot. unfold T1. apply top_of_plug_indep. congruence.
  - assert (L1 : length (ids T1) = S (length (ids (plug (f :: fs) Lf)))).
    { rewrite I1, ids_plug, !length_app. cbn [length ids]. lia. }
    rewrite L1. unfold fuel_of in *. cbn [next_ref]. fold new in Hfuel. lia.
Qed.

Lemma attach_hang key q setter st :
  attach key q setter st =
  (rt ← get_root;
   with_fuel (fun fuel => count_node fuel rt);;
   fix_balance (Some q);; ret true) (hang key q setter st).
Proof. reflexivity. Qed.

Lemma attach_at_hang limit d key q setter st :
  (S d < limit)%nat ->
  attach_at limit d key q setter st =
  (rt ← get_root;
   with_fuel (fun fuel => count_node_at fuel limit d rt);;
   fix_balance_at limit d (Some q);; ret true) (hang key q setter st).
Proof.
  intros Hd. unfold attach_at, new_node_at.
  rewrite call_enter by lia. rewrite call_enter by lia. reflexivity.
Qed.

Lemma new_node_at_overflow limit d key p st :
  ~ (S d < limit)%nat -> new_node_at limit d key p st = (Raise RecursionError, st).
Proof.
  intros Hd. unfold new_node_at.
  destruct (decide (d < limit)%nat) as [H|H].
  - rewrite call_enter by exact H. apply call_overflow. exact Hd.
  - apply call_overflow. exact H.
Qed.

Lemma fix_balance_off start st :
  self_balancing st = false -> fix_balance start st = (Ret tt, st).
Proof. intros H. unfold fix_balance, mbind, M_bind, bind. rewrite H. reflexivity. Qed.

Lemma fix_balance_at_off limit d start st :
  self_balancing st = false -> fix_balance_at limit d start st = (Ret tt, st).
Proof. intros H. unfold fix_balance_at, mbind, M_bind, bind. rewrite H. reflexivity. Qed.

(** [attach] under the limit, without self-balancing. *)
Lemma attach_at_plain limit d key st f fs :
  rep st (plug (f :: fs) Lf) -> self_balancing st = false ->
  let T1 := plug (f :: fs) (leaf (next_ref st)) in
  ((d + depth T1 < limit)%nat ->
   attach_at limit d key (fid f) (set_hole f) st = attach key (fid f) (set_hole f) st) /\
  (~ (d + depth T1 < limit)%nat ->
   exists st', attach_at limit d key (fid f) (set_hole f) st = (Raise RecursionError, st')).
Proof.
  intros Hrep Hsb. cbv zeta.
  destruct (hang_shape key st f fs Hrep) as (S1 & N1 & R1 & F1). cbv zeta in *.
  set (T1 := plug (f :: fs) (leaf (next_ref st))) in *.
  set (st1 := hang key (fid f) (set_hole f) st) in *.
  assert (Hdep : (2 <= depth T1)%nat).
  { pose proof (depth_plug (f :: fs) (leaf (next_ref st))) as H.
    change (depth (leaf (next_ref st))) with 1%nat in H. cbn [length] in H.
    unfold T1. lia. }
  assert (Hf1 : (depth T1 < fuel_of st1)%nat) by (pose proof (depth_le_length T1); lia).
  assert (Hsb1 : self_balancing st1 = false) by exact Hsb.
  split.
  - intros Hd. rewrite attach_at_hang by lia. rewrite attach_hang. fold st1.
    destruct (count_node_spec T1 (fuel_of st1) st1 None S1 N1 Hf1) as (h' & E & _).
    pose proof (count_node_at_enough limit T1 (fuel_of st1) st1 None d S1 N1 Hf1 Hd) as Eat.
    rewrite E in Eat. rewrite <- R1 in E, Eat.
    rewrite (bind_Ret get_root _ st1 (root st1) st1 eq_refl).
    rewrite (bind_Ret get_root _ st1 (root st1) st1 eq_refl).
    erewrite bind_Ret by (rewrite with_fuel_eq; exact Eat).
    erewrite (bind_Ret (with_fuel _)) by (rewrite with_fuel_eq; exact E).
    rewrite (bind_Ret _ _ _ tt (set_heap h' st1)) by (apply fix_balance_at_off; exact Hsb1).
    rewrite (bind_Ret _ _ _ tt (set_heap h' st1)) by (apply fix_balance_off; exact Hsb1).
    reflexivity.
  - intros Hd. destruct (decide (S d < limit)%nat) as [Hd2|Hd2].
    + destruct (count_node_at_deep limit T1 (fuel_of st1) st1 None d S1 N1 Hf1 Hd) as (st' & E).
      exists st'. rewrite attach_at_hang by exact Hd2. fold st1.
      erewrite bind_Ret by reflexivity.
      erewrite bind_Raise; [reflexivity|]. rewrite with_fuel_eq, R1. exact E.
    + exists st. unfold attach_at. erewrite bind_Raise; [reflexivity|].
      apply new_node_at_overflow. exact Hd2.
Qed.

(** The descent of [add] under the limit: every comparison is a call. *)
Lemma add_loop_at_exact limit d key s :
  (d < limit)%nat ->
  forall fs st fuel c,
    top_of s = Some c ->
    shape (heap st) (par_of fs) s ->
    (depth s <= fuel)%nat ->
    match find_slot (fun i => data (heap st !!! i)) key s fs with
    | None => add_loop_at fuel limit d key c st = (Ret false, st)
    | Some F =>
      exists f F', F = f :: F' /\ plug F Lf = plug fs s /\
                   add_loop_at fuel limit d key c st =
                   attach_at limit d key (fid f) (set_hole f) st
    end.
Proof.
  intros Hd.
  induction s as [|l IHl i r IHr]; intros fs st fuel c Ht Hs Hf; [discriminate|].
  cbn [top_of] in Ht. injection Ht as <-.
  destruct fuel as [|fuel]; [cbn [depth] in Hf; lia|]. cbn [depth] in Hf.
  cbn [shape] in Hs. destruct Hs as (Hp & Hl & Hr & Sl & Sr).
  cbn [add_loop_at find_slot]. erewrite bind_Ret by apply field_eq.
  unfold compareTo_at. rewrite call_enter by exact Hd.
  erewrite bind_Ret by reflexivity. unfold id, compareTo.
  destruct (data (heap st !!! i) ?= key).
  - reflexivity.
  - rewrite Hr. destruct r as [|rl j rr].
    + cbn [find_slot top_of]. exists (FR l i), fs. repeat split.
    + apply (IHr (FR l i :: fs) st fuel j eq_refl Sr). lia.
  - rewrite Hl. destruct l as [|ll j lr].
    + cbn [find_slot top_of]. exists (FL i r), fs. repeat split.
    + apply (IHl (FL i r :: fs) st fuel j eq_refl Sl). lia.
Qed.

(** [add] under the limit, without self-balancing, of a key that no node
    holds: it is [add] when the recount of the new tree fits below the
    limit, and raises [RecursionError] otherwise. *)
Lemma add_at_plain limit depth0 key st T F :
  rep st T -> self_balancing st = false ->
  find_slot (fun i => data (heap st !!! i)) key T [] = Some F ->
  let T1 := plug F (leaf (next_ref st)) in
  ((depth0 + depth T1 + 1 < limit)%nat -> add_at limit depth0 key st = add key st) /\
  (~ (depth0 + depth T1 + 1 < limit)%nat ->
   exists st', add_at limit depth0 key st = (Raise RecursionError, st')).
Proof.
  intros Hrep Hsb EF. cbv zeta.
  destruct T as [|l c r].
  - cbn [find_slot] in EF. injection EF as <-. cbn [plug].
    change (depth (leaf (next_ref st))) with 1%nat.
    pose proof (rep_root _ _ Hrep) as Hroot. cbn [top_of] in Hroot.
    set (new := next_ref st).
    set (h1 := <[new := mkNode key None None None 0]> (heap st)).
    set (st1 := mkTree h1 (Pos.succ new) (Some new) (size st + 1) (top st) (bottom st)
                  (self_balancing st)).
    assert (S1 : shape (heap st1) None (leaf new)).
    { unfold leaf. cbn [shape]. unfold st1, h1. cbn [heap].
      rewrite lookup_total_insert_eq. cbn. auto. }
    assert (N1 : NoDup (ids (leaf new))) by (cbn; apply NoDup_singleton).
    assert (F1 : (depth (leaf new) < fuel_of st1)%nat).
    { unfold st1, fuel_of. cbn [next_ref]. change (depth (leaf new)) with 1%nat. lia. }
    split.
    + intros Hd. unfold add_at, add. rewrite call_enter by lia.
      erewrite !(bind_Ret get_root) by reflexivity. rewrite Hroot.
      unfold new_node_at. rewrite call_enter by lia. rewrite call_enter by lia.
      erewrite !(bind_Ret (new_node _ _)) by apply new_node_eq.
      erewrite !(bind_Ret (put_root _)) by reflexivity.
      erewrite !(bind_Ret (add_size _)) by reflexivity.
      erewrite !(bind_Ret get_root) by reflexivity.
      cbn [root set_size set_root]. fold new h1.
      change (set_size _ (set_root _ _)) with st1.
      pose proof (count_node_at_enough limit (leaf new) (fuel_of st1) st1 None (S depth0)
                    S1 N1 F1) as Ec.
      change (top_of (leaf new)) with (Some new) in Ec.
      unfold mbind, M_bind, bind. rewrite !with_fuel_eq, Ec; [reflexivity|].
      change (depth (leaf new)) with 1%nat. lia.
    + intros Hd. unfold add_at.
      destruct (decide (depth0 < limit)%nat) as [H0|H0];
        [|exists st; apply call_overflow; exact H0].
      rewrite call_enter by exact H0.
      erewrite bind_Ret by reflexivity. rewrite Hroot.
      exists st. erewrite bind_Raise; [reflexivity|].
      apply new_node_at_overflow. lia.
  - pose proof (add_loop_exact key (Br l c r) [] st (fuel_of st) c eq_refl
                  (rep_shape _ _ Hrep)) as Hloop.
    assert (Hfuel : (depth (Br l c r) <= fuel_of st)%nat).
    { pose proof (depth_le_length (Br l c r)). pose proof (rep_fuel _ _ Hrep). lia. }
    specialize (Hloop Hfuel). rewrite EF in Hloop.
    destruct Hloop as (f & F' & -> & Ep & E). cbn [plug] in Ep.
    change (plug (f :: F') Lf = Br l c r) in Ep.
    assert (Hadd : add key st = add_loop (fuel_of st) key c st).
    { unfold add. erewrite bind_Ret by reflexivity.
      rewrite (rep_root _ _ Hrep). reflexivity. }
    assert (Hrep' : rep st (plug (f :: F') Lf)) by (rewrite Ep; exact Hrep).
    destruct (attach_at_plain limit (S depth0) key st f F' Hrep' Hsb) as (Hok & Hko).
    cbv zeta in Hok, Hko.
    split.
    + intros Hd.
      assert (Hdl : (S depth0 < limit)%nat) by lia.
      pose proof (add_loop_at_exact limit (S depth0) key (Br l c r) Hdl [] st (fuel_of st) c
                    eq_refl (rep_shape _ _ Hrep) Hfuel) as Hat.
      rewrite EF in Hat. destruct Hat as (f2 & F2 & EF2 & _ & Eat).
      injection EF2 as <- <-.
      unfold add_at. rewrite call_enter by lia.
      erewrite bind_Ret by reflexivity. rewrite (rep_root _ _ Hrep). cbn [top_of].
      rewrite with_fuel_eq, Eat, Hadd, E. apply Hok. lia.
    + intros Hd. unfold add_at.
      destruct (decide (depth0 < limit)%nat) as [H0|H0];
        [|exists st; apply call_overflow; exact H0].
      rewrite call_enter by exact H0.
      erewrite bind_Ret by reflexivity. rewrite (rep_root _ _ Hrep). cbn [top_of].
      rewrite with_fuel_eq.
      destruct (decide (S depth0 < limit)%nat) as [Hdl|Hdl].
      * pose proof (add_loop_at_exact limit (S depth0) key (Br l c r) Hdl [] st (fuel_of st) c
                      eq_refl (rep_shape _ _ Hrep) Hfuel) as Hat.
        rewrite EF in Hat. destruct Hat as (f2 & F2 & EF2 & _ & Eat).
        injection EF2 as <- <-. rewrite Eat. apply Hko. lia.
      * exists st. destruct (fuel_of st) as [|fuel] eqn:Ef; [unfold fuel_of in Ef; lia|].
        cbn [add_loop_at]. erewrite bind_Ret by apply field_eq.
        erewrite bind_Raise; [reflexivity|]. apply call_overflow. exact Hdl.
Qed.

Lemma add_all_at_app limit d a b st :
  add_all_at limit d (a ++ b) st = (add_all_at limit d a;; add_all_at limit d b) st.
Proof.
  revert st. induction a as [|k a IH]; intros st; cbn [app add_all_at]; [reflexivity|].
  unfold mbind, M_bind, bind in *.
  destruct (add_at limit d k st) as [[x|e|] st1]; [|reflexivity..].
  rewrite IH. reflexivity.
Qed.

(** The state reached by ascending insertion without balancing. *)
Lemma ascending_state tp bo n :
  let st := add_all (upto n) (init false tp bo) in
  rep st (rchain 1 n Lf) /\ self_balancing st = false /\
  exists F,
    find_slot (fun i => data (heap st !!! i)) (Z.of_nat n + 1) (rchain 1 n Lf) [] = Some F /\
    plug F (leaf (next_ref st)) = rchain 1 (S n) Lf.
Proof.
  cbv zeta. destruct (ascending_rep false tp bo n) as (R & Hn & Hd & _ & _ & Hsb).
  cbv zeta in R, Hn, Hd, Hsb. rewrite asc_abs_chain in R.
  split; [exact R|]. split; [exact Hsb|].
  destruct (find_slot_rchain (Z.of_nat n + 1) n 1%positive []) as (F & E & HF); [lia|].
  exists F. split.
  - rewrite <- E. apply find_slot_ext. intros i Hi. apply Hd, (rep_fresh _ _ R), Hi.
  - rewrite HF, Hn, of_succ_nat_iter. cbn [plug]. apply rchain_snoc.
Qed.

(** Ascending insertion without balancing, run at depth [d] under the
    limit: the chain of [n] keys is built exactly when the recount of [n]
    nodes fits, that is when [d + n + 1 < limit]. *)
Lemma ascending_build_at limit d tp bo n :
  let st0 := init false tp bo in
  ((n = 0 \/ d + n + 1 < limit)%nat ->
   add_all_at limit d (upto n) st0 = (Ret tt, add_all (upto n) st0)) /\
  (n <> 0%nat -> ~ (d + n + 1 < limit)%nat ->
   exists st', add_all_at limit d (upto n) st0 = (Raise RecursionError, st')).
Proof.
  cbv zeta. induction n as [|n (IH1 & IH2)].
  - split; [reflexivity|congruence].
  - rewrite upto_S.
    destruct (ascending_state tp bo n) as (R & Hsb & F & EF & EP). cbv zeta in R, Hsb, EF, EP.
    set (st := add_all (upto n) (init false tp bo)) in *.
    destruct (add_at_plain limit d (Z.of_nat n + 1) st _ F R Hsb EF) as (Hok & Hko).
    cbv zeta in Hok, Hko. rewrite EP, depth_rchain in Hok, Hko.
    split.
    + intros Hc. assert (Hd : (d + S n + 1 < limit)%nat) by lia.
      rewrite add_all_at_app. erewrite bind_Ret by (apply IH1; lia). fold st.
      cbn [add_all_at]. rewrite add_all_app. fold st. cbn [add_all foldl].
      destruct (add_spec (Z.of_nat n + 1) st _ R) as (st' & T' & b & E & _).
      erewrite bind_Ret by (rewrite (Hok Hd); exact E). rewrite E. reflexivity.
    + intros _ Hd. rewrite add_all_at_app.
      destruct (decide (n = 0 \/ d + n + 1 < limit)%nat) as [Hc|Hc].
      * erewrite bind_Ret by (apply IH1; exact Hc). fold st. cbn [add_all_at].
        destruct (Hko Hd) as (st' & E). exists st'.
        erewrite bind_Raise by exact E. reflexivity.
      * destruct (IH2 ltac:(lia) ltac:(lia)) as (st' & E). exists st'.
        erewrite bind_Raise by exact E. reflexivity.
Qed.

(** ** The counted functions against the uncounted ones *)

Lemma agrees_refl {A} (x : res A * Tree) : agrees x x.
Proof. left. reflexivity. Qed.

Lemma agrees_bind {A B} (m1 m2 : TM A) (k1 k2 : A -> TM B) st :
  agrees (m1 st) (m2 st) ->
  (forall a s, agrees (k1 a s) (k2 a s)) ->
  agrees ((m1 ≫= k1) st) ((m2 ≫= k2) st).
Proof.
  intros [E|(st' & E)] Hk; unfold mbind, M_bind, bind.
  - rewrite E. destruct (m2 st) as [[a|e|] s]; [apply Hk|apply agrees_refl..].
  - right. exists st'. rewrite E. reflexivity.
Qed.

Lemma agrees_call {A} limit d (body : nat -> TM A) st y :
  ((d < limit)%nat -> agrees (body (S d) st) y) -> agrees (call limit d body st) y.
Proof.
  intros H. unfold call. case_decide as Hd; [apply H, Hd|]. right. exists st. reflexivity.
Qed.

Lemma count_node_agrees limit fuel :
  forall d cur st, agrees (count_node_at fuel limit d cur st) (count_node fuel cur st).
Proof.
  induction fuel as [|fuel IH]; intros d cur st; [apply agrees_refl|].
  cbn [count_node_at count_node]. apply agrees_call. intros _.
  destruct cur as [c|]; [|apply agrees_refl].
  apply agrees_bind; [apply agrees_refl|]. intros l s1.
  apply agrees_bind; [apply IH|]. intros a s2.
  apply agrees_bind; [apply agrees_refl|]. intros r s3.
  apply agrees_bind; [apply IH|]. intros b s4. apply agrees_refl.
Qed.

Lemma inOrder_agrees limit fuel :
  forall d node arr st,
    agrees (inOrder_at fuel limit d node arr st) (inOrder fuel node arr st).
Proof.
  induction fuel as [|fuel IH]; intros d node arr st; [apply agrees_refl|].
  cbn [inOrder_at inOrder]. apply agrees_call. intros _.
  destruct node as [n|]; [|apply agrees_refl].
  apply agrees_bind; [apply agrees_refl|]. intros l s1.
  apply agrees_bind; [apply IH|]. intros a s2.
  apply agrees_bind; [apply agrees_refl|]. intros r s3. apply IH.
Qed.

Lemma rebuild_tree_agrees limit nodes fuel :
  forall d start end_ par st,
    agrees (rebuild_tree_at fuel limit d nodes start end_ par st)
           (rebuild_tree fuel nodes start end_ par st).
Proof.
  induction fuel as [|fuel IH]; intros d start end_ par st; [apply agrees_refl|].
  cbn [rebuild_tree_at rebuild_tree]. apply agrees_call. intros _.
  case_decide; [apply agrees_refl|]. cbv zeta.
  destruct (nodes !! Z.to_nat (midpoint start end_)) as [node|]; [|apply agrees_refl].
  apply agrees_bind; [apply agrees_refl|]. intros _ s1.
  apply agrees_bind; [apply IH|]. intros l s2.
  apply agrees_bind; [apply agrees_refl|]. intros _ s3.
  apply agrees_bind; [apply IH|]. intros r s4. apply agrees_refl.
Qed.

Lemma find_unbalanced_agrees limit fuel :
  forall d n st,
    agrees (find_unbalanced_at fuel limit d n st) (find_unbalanced fuel n st).
Proof.
  intros d n st. unfold find_unbalanced_at. apply agrees_call. intros _.
  revert n st. generalize (S d). clear d. intros d.
  induction fuel as [|fuel IH]; intros n st; [apply agrees_refl|].
  cbn [find_unbalanced_loop find_unbalanced].
  apply agrees_bind.
  { unfold is_balanced_at. apply agrees_call. intros _. apply agrees_refl. }
  intros [|] s1; [|apply agrees_refl].
  apply agrees_bind; [apply agrees_refl|]. intros r s2.
  case_decide; [apply agrees_refl|].
  apply agrees_bind; [apply agrees_refl|]. intros p s3. apply IH.
Qed.

Lemma rebalance_agrees limit d u st :
  agrees (rebalance_at limit d u st) (rebalance u st).
Proof.
  unfold rebalance_at, rebalance. apply agrees_call. intros _.
  destruct u as [b|]; [|apply agrees_refl].
  apply agrees_bind; [apply agrees_refl|]. intros np s1.
  apply agrees_bind; [unfold with_fuel; apply inOrder_agrees|]. intros nl s2.
  apply agrees_bind; [unfold with_fuel; apply rebuild_tree_agrees|]. intros sr s3.
  apply agrees_bind; [apply agrees_refl|]. intros sp s4.
  apply agrees_bind; [apply agrees_refl|]. intros _ s5.
  apply agrees_bind; [apply agrees_refl|]. intros rt s6.
  apply agrees_bind; [unfold with_fuel; apply count_node_agrees|]. intros _ s7.
  apply agrees_refl.
Qed.

Lemma fix_balance_agrees limit d start st :
  agrees (fix_balance_at limit d start st) (fix_balance start st).
Proof.
  unfold fix_balance_at, fix_balance.
  apply agrees_bind; [apply agrees_refl|]. intros [|] s1; [|apply agrees_refl].
  apply agrees_bind; [unfold with_fuel; apply find_unbalanced_agrees|]. intros [u|] s2;
    [apply rebalance_agrees|apply agrees_refl].
Qed.

Lemma new_node_agrees limit d key p st :
  agrees (new_node_at limit d key p st) (new_node key p st).
Proof.
  unfold new_node_at. apply agrees_call. intros _. apply agrees_call. intros _.
  apply agrees_refl.
Qed.

Lemma attach_agrees limit d key q setter st :
  agrees (attach_at limit d key q setter st) (attach key q setter st).
Proof.
  unfold attach_at, attach.
  apply agrees_bind; [apply new_node_agrees|]. intros i s1.
  apply agrees_bind; [apply agrees_refl|]. intros _ s2.
  apply agrees_bind; [apply agrees_refl|]. intros _ s3.
  apply agrees_bind; [apply agrees_refl|]. intros rt s4.
  apply agrees_bind; [unfold with_fuel; apply count_node_agrees|]. intros _ s5.
  apply agrees_bind; [apply fix_balance_agrees|]. intros _ s6. apply agrees_refl.
Qed.

Lemma add_loop_agrees limit d key fuel :
  forall c st, agrees (add_loop_at fuel limit d key c st) (add_loop fuel key c st).
Proof.
  induction fuel as [|fuel IH]; intros c st; [apply agrees_refl|].
  cbn [add_loop_at add_loop].
  unfold mbind at 1 3, M_bind, bind at 1 3. rewrite !field_eq. unfold id.
  set (n := heap st !!! c).
  unfold compareTo_at, call. case_decide as Hd.
  2:{ right. exists st. reflexivity. }
  unfold mbind at 1, M_bind, bind at 1. unfold ret at 1.
  destruct (compareTo n key).
  - apply agrees_refl.
  - destruct (right n); [apply IH|apply attach_agrees].
  - destruct (left n); [apply IH|apply attach_agrees].
Qed.

Lemma add_agrees limit d key st : agrees (add_at limit d key st) (add key st).
Proof.
  unfold add_at, add. apply agrees_call. intros _.
  apply agrees_bind; [apply agrees_refl|]. intros [c|] s1.
  - unfold with_fuel. apply add_loop_agrees.
  - apply agrees_bind; [apply new_node_agrees|]. intros i s2.
    apply agrees_bind; [apply agrees_refl|]. intros _ s3.
    apply agrees_bind; [apply agrees_refl|]. intros _ s4.
    apply agrees_bind; [apply agrees_refl|]. intros rt s5.
    apply agrees_bind; [unfold with_fuel; apply count_node_agrees|]. intros _ s6.
    apply agrees_refl.
Qed.

Lemma getHeight_agrees limit h fuel :
  forall d r,
    getHeight_at fuel limit d h r = getHeight fuel h r \/
    getHeight_at fuel limit d h r = Raise RecursionError.
Proof.
  induction fuel as [|fuel IH]; intros d r; [left; reflexivity|].
  cbn [getHeight_at getHeight]. case_decide; [|right; reflexivity].
  destruct r as [n|]; [|left; reflexivity].
  destruct (IH (S d) (left (h !!! n))) as [-> | ->]; [|right; reflexivity].
  destruct (IH (S d) (right (h !!! n))) as [-> | ->].
  - left. reflexivity.
  - destruct (getHeight fuel h (left (h !!! n))) as [a|e|];
      [right; reflexivity|left; reflexivity..].
Qed.

Lemma height_agrees limit d st :
  height_at limit d st = height st \/ height_at limit d st = Raise RecursionError.
Proof.
  unfold height_at, height. case_decide; [apply getHeight_agrees|right; reflexivity].
Qed.

(** * Evaluation on concrete trees *)

(** Splitting conjunctions only, then evaluating each closed equation. *)
Ltac split_ands := repeat match goal with |- _ /\ _ => split end.
Ltac by_evaluation := split_ands; vm_compute; first [reflexivity | discriminate].

(** Evaluating [rep] on a concrete tree. *)
Ltac concrete_rep :=
  constructor;
  [ vm_compute; reflexivity
  | vm_compute; repeat split
  | vm_compute; repeat (apply NoDup_cons_2; [set_solver|]); apply NoDup_nil_2
  | intros i Hi; vm_compute in Hi; set_unfold in Hi; vm_compute;
    intuition (subst; reflexivity)
  | vm_compute; lia
  | vm_compute; reflexivity
  | vm_compute; repeat split ].

Lemma chain4_rep : rep chain4 chain4_bt.
Proof. concrete_rep. Defined.

Lemma chain4_balancing_rep : rep chain4_balancing chain4_bt.
Proof. concrete_rep. Defined.

Lemma second7_rep : rep second7 second7_bt.
Proof. concrete_rep. Defined.

Lemma second7_bst : bst second7 second7_bt.
Proof.
  split; [exact second7_rep|]. vm_compute.
  repeat (apply SSorted_cons; [|repeat (apply Forall_cons_2; [reflexivity|]); apply Forall_nil_2]).
  apply SSorted_nil.
Defined.

Ltac concrete_sorted :=
  vm_compute;
  repeat (apply SSorted_cons; [|repeat (apply Forall_cons_2; [reflexivity|]); apply Forall_nil_2]);
  apply SSorted_nil.

(** Deciding a closed proposition by evaluation. *)
Ltac by_decide :=
  match goal with |- ?P => apply (@bool_decide_unpack P _); vm_compute; exact I end.



Lemma three_bst : bst three three_bt.
Proof. split; [concrete_rep|concrete_sorted]. Defined.

(** * The claims *)

(** C1.  For every sequence of adds of distinct keys, in either balancing
    mode and for any balance ratio, iterating the tree yields the inserted
    keys in strictly ascending order: the result is sorted and a permutation
    of the keys, so nothing is duplicated or omitted. *)
Theorem iteration_after_adds (ks : list Z) (sb : bool) (tp bt : Z) :
  NoDup ks ->
  exists l,
    to_list (add_all ks (init sb tp bt)) = Ret l /\
    StronglySorted Z.lt l /\ l ≡ₚ ks.
Proof.
  intros Hnd.
  destruct (bst_add_all ks (init sb tp bt) Lf (rep_init sb tp bt))
    as (T' & R' & S' & Pm & _).
  { unfold keys. cbn. constructor. }
  { exact Hnd. }
  { intros k _. unfold keys. cbn. set_solver. }
  exists (keys (heap (add_all ks (init sb tp bt))) T').
  split; [apply to_list_spec; exact R'|]. split; [exact S'|].
  rewrite Pm. unfold keys at 1. cbn [ids fmap list_fmap]. now rewrite app_nil_r.
Qed.

Lemma iteration_after_adds_witness :
  NoDup [5; 4; 2; 16; 10; 7; 20; 14; 15; 12] /\
  exists l,
    to_list (add_all [5; 4; 2; 16; 10; 7; 20; 14; 15; 12] (init true 0 0)) = Ret l /\
    StronglySorted Z.lt l /\ l ≡ₚ [5; 4; 2; 16; 10; 7; 20; 14; 15; 12].
Proof.
  assert (H : NoDup [5; 4; 2; 16; 10; 7; 20; 14; 15; 12]).
  { repeat (apply NoDup_cons_2; [set_solver|]). apply NoDup_nil_2. }
  split; [exact H|].
  exact (iteration_after_adds [5; 4; 2; 16; 10; 7; 20; 14; 15; 12] true 0 0 H).
Defined.

(** C3.  After every add or remove (whether it returns or raises), in either
    balancing mode, every node of the tree has
    [counter = 1 + counter(left) + counter(right)] with an absent child
    counting 0, and the size field is the root's counter (0 when empty). *)
Theorem counters_after_ops (ops : list op) (sb : bool) (tp bt : Z) :
  let st := run_ops ops (init sb tp bt) in
  (forall i, i ∈ tree_nodes st ->
     counter (heap st !!! i) =
     1 + counter_of (heap st) (left (heap st !!! i)) +
         counter_of (heap st) (right (heap st !!! i))) /\
  size st = counter_of (heap st) (root st).
Proof.
  cbv zeta.
  destruct (rep_run_ops ops (init sb tp bt) Lf (rep_init sb tp bt)) as (T & R).
  split.
  - intros i Hi. rewrite (tree_nodes_spec _ T R) in Hi.
    exact (counted_local _ None T (rep_shape _ _ R) (rep_counted _ _ R) i Hi).
  - rewrite (rep_size _ _ R), (rep_root _ _ R).
    symmetry. apply counted_top. exact (rep_counted _ _ R).
Qed.

(** C2, as stated, fails.  Ten adds into a self-balancing tree with the
    default ratio 2/3: the last one rebuilds the subtree of the nearest
    unbalanced ancestor (7 nodes) and leaves the root, which now carries 10
    nodes with 7 of them on its left, unbalanced: 7 * 3 > 10 * 2. *)
Lemma weight_balance_broken_above_rebuild :
  let before := nine in
  let st := snd (add 5 before) in
  self_balancing st = true /\ fst (add 5 before) = Ret true /\
  ~ weight_balanced st.
Proof.
  cbv zeta. split; [vm_compute; reflexivity|]. split; [vm_compute; reflexivity|].
  intros H. specialize (H 4%positive 1%positive).
  assert (E1 : tree_nodes (snd (add 5 nine)) = [10; 9; 7; 4; 8; 2; 5; 1; 3; 6]%positive)
    by (vm_compute; reflexivity).
  assert (E2 : parent (heap (snd (add 5 nine)) !!! 4%positive) = Some 1%positive)
    by (vm_compute; reflexivity).
  assert (E3 : counter (heap (snd (add 5 nine)) !!! 4%positive) *
               bottom (snd (add 5 nine)) = 21) by (vm_compute; reflexivity).
  assert (E4 : counter (heap (snd (add 5 nine)) !!! 1%positive) *
               top (snd (add 5 nine)) = 20) by (vm_compute; reflexivity).
  rewrite E1, E3, E4 in H. specialize (H ltac:(clear; set_solver) E2). lia.
Qed.

(** C2, amended.  In self-balancing mode with [0 < bottom <= 2 * top], when
    the conditional rebalance that ends [add] and [remove] finds an
    unbalanced node [u] above its starting point, it returns normally and
    afterwards every node [n] whose parent [p] lies in the rebuilt subtree
    (the nodes that were under [u]) has
    [counter(n) * bottom <= counter(p) * top]. *)
Theorem rebuilt_subtree_weight_balanced (st : Tree) (T : bt) (start u : ref) :
  rep st T -> start ∈ ids T ->
  self_balancing st = true -> 0 < bottom st -> bottom st <= 2 * top st ->
  with_fuel (fun fuel => find_unbalanced fuel (Some start)) st = (Ret (Some u), st) ->
  exists st',
    fix_balance (Some start) st = (Ret tt, st') /\
    forall n p,
      n ∈ subtree_nodes st (Some u) -> p ∈ subtree_nodes st (Some u) ->
      parent (heap st' !!! n) = Some p ->
      counter (heap st' !!! n) * bottom st' <= counter (heap st' !!! p) * top st'.
Proof.
  intros Hrep Hstart Hsb Hb Hbt Hfind.
  assert (Hu : u ∈ ids T).
  { destruct (decompose T start Hstart) as (fs0 & s0 & E0 & Ht0).
    destruct (find_unbalanced_spec fs0 s0 st (fuel_of st) start Ht0) as (r & Er & Hr).
    { rewrite <- E0. apply Hrep. } { rewrite <- E0. apply Hrep. }
    { rewrite <- E0. apply Hrep. }
    { pose proof (length_frames_plug fs0 s0). pose proof (rep_fuel _ _ Hrep).
      rewrite E0 in *. lia. }
    rewrite with_fuel_eq in Hfind. rewrite Hfind in Er. injection Er as <-.
    rewrite E0. apply Hr. }
  destruct (decompose T u Hu) as (fs & s & -> & Ht).
  destruct (rebalance_spec st fs s u Hrep Ht) as (h' & Hreb).
  cbv zeta in Hreb. destruct Hreb as (Ereb & Hrep' & Hdata).
  set (s' := rebuilt (ids s)) in *.
  set (st' := set_root (top_of (plug fs s')) (set_heap h' st)) in *.
  exists st'. split.
  { unfold fix_balance. erewrite bind_Ret by reflexivity. rewrite Hsb.
    erewrite bind_Ret by exact Hfind. exact Ereb. }
  assert (Hsn : subtree_nodes st (Some u) = ids s)
    by (rewrite <- Ht; apply (subtree_nodes_spec st fs s Hrep)).
  rewrite Hsn.
  intros n p Hn Hp Hpar.
  pose proof (rep_shape _ _ Hrep') as Hsh. apply shape_plug in Hsh.
  destruct Hsh as (Ss' & _).
  pose proof (counted_plug _ _ _ (rep_counted _ _ Hrep')) as Cs'.
  assert (Is' : ids s' = ids s) by apply rebuilt_ids.
  destruct (NoDup_plug _ _ (rep_nodup _ _ Hrep')) as (_ & _ & Hdisj).
  eapply (halved_weights (heap st') (par_of fs) s' (top st') (bottom st'));
    try eassumption.
  - apply rebuilt_halved.
  - now rewrite Is'.
  - intros Htop. destruct (top_of_Some _ _ Htop) as (l' & r' & E').
    rewrite E' in Ss'. cbn [shape] in Ss'. destruct Ss' as (Hpn & _).
    rewrite Hpn in Hpar. destruct fs as [|f fs']; [discriminate|].
    injection Hpar as <-. apply (Hdisj (fid f)); [now rewrite Is'|].
    eapply fid_in. reflexivity.
Qed.

Lemma rebuilt_subtree_weight_balanced_witness :
  exists st',
    fix_balance (Some 3%positive) chain4_balancing = (Ret tt, st') /\
    forall n p,
      n ∈ subtree_nodes chain4_balancing (Some 1%positive) ->
      p ∈ subtree_nodes chain4_balancing (Some 1%positive) ->
      parent (heap st' !!! n) = Some p ->
      counter (heap st' !!! n) * bottom st' <= counter (heap st' !!! p) * top st'.
Proof.
  apply (rebuilt_subtree_weight_balanced chain4_balancing chain4_bt 3%positive 1%positive).
  - exact chain4_balancing_rep.
  - vm_compute. clear. set_solver.
  - reflexivity.
  - vm_compute. reflexivity.
  - vm_compute. discriminate.
  - vm_compute. reflexivity.
Defined.

(** C4 (the code departs from the claim).  In a self-balancing tree, removing
    the key held by the root while other nodes remain raises
    [AttributeError]: the search for an unbalanced ancestor starts at the
    removed node's parent, which is [None].  The node has been unlinked and
    the size decremented when the exception leaves [remove]. *)
Theorem remove_root_raises :
  let two := add_all [1; 2] (init true 0 0) in
  fst (remove 1 two) = Raise AttributeError /\
  len (snd (remove 1 two)) = 1 /\
  to_list (snd (remove 1 two)) = Ret [2] /\
  fst (remove 100 nine) = Raise AttributeError /\
  fst (remove 7 two) = Ret false /\
  fst (remove 1 (add_all [1; 2] (init false 0 0))) = Ret true.
Proof. cbv zeta. by_evaluation. Qed.

(** C5 (the code departs from the claim).  The iterator's [remove] never
    returns normally: with no pending node it raises [IndexError], and
    otherwise it unlinks the node and then reads [self.__tree.__root], a name
    that inside [class BSTIterator] denotes [_BSTIterator__root], which a
    tree does not have.  In the example the key 1 is unlinked and [len]
    drops to 2, but [AttributeError] is raised before the counters are
    recomputed: the root still carries counter 3. *)
Theorem iterator_remove_raises :
  (forall s u, fst (it_remove s) <> Ret u) /\
  let st := add_all [2; 1; 3] (init false 0 0) in
  exists it k it1 st' it',
    iterator st = Ret it /\
    it_next (st, it) = (Ret k, (st, it1)) /\ k = 1 /\
    it_remove (st, it1) = (Raise AttributeError, (st', it')) /\
    len st' = 2 /\ to_list st' = Ret [2; 3] /\
    pending it' = None /\ current it' = current it1 /\
    counter_of (heap st') (root st') = 3.
Proof.
  split.
  - assert (Hattr : forall t, tree_getattr (mangle "BSTIterator" "__root") t =
                               (Raise AttributeError, t)) by (intros; reflexivity).
    intros [t it] u. unfold it_remove.
    unfold mbind, M_bind, bind, get_iter, raise. cbn [snd fst].
    destruct (pending it) as [p|]; [|cbn; discriminate].
    unfold on_tree, field, set_current, set_pending, ret. cbn [fst snd].
    destruct (bool_decide _ && bool_decide _); cbn [fst snd];
      (destruct (unlinkNode p t) as [[v|e|] t']; cbn [fst snd];
       [rewrite Hattr|..]; cbn [fst snd]; discriminate).
  - cbv zeta. do 5 eexists.
    split; [vm_compute; reflexivity|].
    split; [vm_compute; reflexivity|].
    split; [reflexivity|].
    split; [vm_compute; reflexivity|].
    by_evaluation.
Qed.

(** C6 (the code departs from the claim).  [remove] starts the search at the
    parent of the node found by key, also when that node has two children
    and its successor is the node spliced out.  In [twelve], removing 50
    finds node 2 (parent: node 1, the root); the successor is node 9 (key
    60), whose parent is node 5 (key 80).  After the removal node 5 is
    unbalanced (counter 4, right child 3: 3 * 3 > 4 * 2) and a search from
    node 5 finds it, but [remove] searched from node 1, found nothing and
    rebuilt nothing: the tree it leaves is the one produced by the unlink
    and the recount alone. *)
Theorem remove_searches_from_found_parent :
  let st := twelve in
  fst (with_fuel (fun fuel => findEntry fuel 50 (root st)) st) = Ret (Some 2%positive) /\
  left (heap st !!! 2%positive) <> None /\ right (heap st !!! 2%positive) <> None /\
  fst (successor (Some 2%positive) st) = Ret (Some 9%positive) /\
  parent (heap st !!! 9%positive) = Some 5%positive /\
  parent (heap st !!! 2%positive) = Some 1%positive /\
  fst (remove 50 st) = Ret true /\
  let st' := snd (remove 50 st) in
  st' = snd ((unlinkNode 2%positive;;
              rt ← get_root;
              with_fuel (fun fuel => count_node fuel rt)) st) /\
  fst (with_fuel (fun fuel => find_unbalanced fuel (Some 1%positive)) st') = Ret None /\
  fst (with_fuel (fun fuel => find_unbalanced fuel (Some 5%positive)) st') =
    Ret (Some 5%positive) /\
  fst (is_balanced (Some 5%positive) st') = Ret false.
Proof.
  cbv zeta. by_evaluation.
Qed.

(** C7.  For every node [u] of a well-formed tree, [rebalance(u)] returns
    normally and replaces the subtree of [u], in the same slot of the same
    path [fs] (the root slot when the path is empty), by the tree that
    ceil-midpoint selection builds over the in-order node list of that
    subtree.  The in-order sequence of node objects and of keys is unchanged,
    no node is created, the rebuilt subtree is as shallow as any binary tree
    over that many nodes, and all counters are consistent afterwards. *)
Theorem rebalance_rebuilds (st : Tree) (T : bt) (u : ref) :
  rep st T -> u ∈ ids T ->
  let nodes := subtree_nodes st (Some u) in
  exists st' fs s,
    rebalance (Some u) st = (Ret tt, st') /\
    T = plug fs s /\ top_of s = Some u /\ ids s = nodes /\
    rep st' (plug fs (rebuilt nodes)) /\
    ids (rebuilt nodes) = nodes /\
    tree_nodes st' = tree_nodes st /\
    to_list st' = to_list st /\
    (forall i, data (heap st' !!! i) = data (heap st !!! i)) /\
    next_ref st' = next_ref st /\ size st' = size st /\
    (forall t, length (ids t) = length nodes -> (depth (rebuilt nodes) <= depth t)%nat) /\
    getHeight (fuel_of st') (heap st') (top_of (rebuilt nodes)) =
      Ret (Z.of_nat (depth (rebuilt nodes)) - 1) /\
    (forall i, i ∈ tree_nodes st' ->
       counter (heap st' !!! i) =
       1 + counter_of (heap st') (left (heap st' !!! i)) +
           counter_of (heap st') (right (heap st' !!! i))).
Proof.
  intros Hrep Hu. cbv zeta.
  destruct (decompose T u Hu) as (fs & s & -> & Ht).
  destruct (rebalance_spec st fs s u Hrep Ht) as (h' & Hreb).
  cbv zeta in Hreb. destruct Hreb as (Ereb & Hrep' & Hdata).
  assert (Hn : subtree_nodes st (Some u) = ids s)
    by (rewrite <- Ht; apply (subtree_nodes_spec st fs s Hrep)).
  rewrite Hn.
  set (s' := rebuilt (ids s)) in *.
  set (st' := set_root (top_of (plug fs s')) (set_heap h' st)) in *.
  assert (Is' : ids s' = ids s) by apply rebuilt_ids.
  assert (Ids : ids (plug fs s') = ids (plug fs s)) by (now rewrite !ids_plug, Is').
  exists st', fs, s.
  split; [exact Ereb|]. split; [reflexivity|]. split; [exact Ht|]. split; [reflexivity|].
  split; [exact Hrep'|].
  split; [exact Is'|].
  split; [now rewrite (tree_nodes_spec _ _ Hrep'), (tree_nodes_spec _ _ Hrep)|].
  split.
  { rewrite (to_list_spec _ _ Hrep'), (to_list_spec _ _ Hrep). f_equal.
    unfold keys. rewrite Ids. apply list_fmap_ext. intros ? i _. apply Hdata. }
  split; [exact Hdata|]. do 2 (split; [reflexivity|]).
  split; [intros t Hlen; apply rebuilt_min_depth; exact Hlen|].
  split.
  { pose proof (rep_shape _ _ Hrep') as Hsh. apply shape_plug in Hsh.
    destruct Hsh as (Ss' & _).
    apply (getHeight_spec _ _ _ _ Ss').
    pose proof (depth_le_length s'). pose proof (rep_fuel _ _ Hrep').
    pose proof (length_frames_plug fs s'). lia. }
  intros i Hi. rewrite (tree_nodes_spec _ _ Hrep') in Hi.
  exact (counted_local _ None _ (rep_shape _ _ Hrep') (rep_counted _ _ Hrep') i Hi).
Qed.

Lemma rebalance_rebuilds_witness :
  let nodes := subtree_nodes chain4 (Some 2%positive) in
  exists st' fs s,
    rebalance (Some 2%positive) chain4 = (Ret tt, st') /\
    chain4_bt = plug fs s /\ top_of s = Some 2%positive /\ ids s = nodes /\
    rep st' (plug fs (rebuilt nodes)) /\
    ids (rebuilt nodes) = nodes /\
    tree_nodes st' = tree_nodes chain4 /\
    to_list st' = to_list chain4 /\
    (forall i, data (heap st' !!! i) = data (heap chain4 !!! i)) /\
    next_ref st' = next_ref chain4 /\ size st' = size chain4 /\
    (forall t, length (ids t) = length nodes -> (depth (rebuilt nodes) <= depth t)%nat) /\
    getHeight (fuel_of st') (heap st') (top_of (rebuilt nodes)) =
      Ret (Z.of_nat (depth (rebuilt nodes)) - 1) /\
    (forall i, i ∈ tree_nodes st' ->
       counter (heap st' !!! i) =
       1 + counter_of (heap st') (left (heap st' !!! i)) +
           counter_of (heap st') (right (heap st' !!! i))).
Proof.
  apply (rebalance_rebuilds chain4 chain4_bt 2%positive).
  - exact chain4_rep.
  - vm_compute. clear. set_solver.
Defined.



(** C9, as stated, fails in its second half.  Without balancing every
    [add] recounts the whole chain recursively, one frame per node: at
    CPython's default recursion limit of 1000 the insertion of [1..1000]
    does not complete, from whatever depth it is run (depth 1 is a script's
    top level); an [add] raises [RecursionError]. *)
Lemma ascending_1000_hits_recursion_limit :
  (exists st',
     add_all_at 1000 1 (upto 1000) (init false 0 0) = (Raise RecursionError, st')) /\
  (forall d, exists st',
     add_all_at 1000 d (upto 1000) (init false 0 0) = (Raise RecursionError, st')).
Proof.
  assert (H : forall d, exists st',
            add_all_at 1000 d (upto 1000) (init false 0 0) = (Raise RecursionError, st')).
  { intros d. apply (ascending_build_at 1000 d 0 0 1000); lia. }
  split; [apply H|exact H].
Qed.

(** C9, amended.  Inserting [1..1000] in ascending order into a
    self-balancing tree with the default ratio gives height 12, below
    [2 * ceil(log2 1000)]; without balancing, when the recursion limit
    leaves room for 1001 frames below the calling one, the insertion
    completes and the height is 999. *)
Theorem ascending_1000_heights (limit d : nat) :
  (d + 1001 < limit)%nat ->
  height (add_all (upto 1000) (init true 0 0)) = Ret 12 /\
  12 <= 2 * Z.log2_up 1000 /\
  add_all_at limit d (upto 1000) (init false 0 0) =
    (Ret tt, add_all (upto 1000) (init false 0 0)) /\
  height_at limit d (add_all (upto 1000) (init false 0 0)) = Ret 999.
Proof.
  intros Hd. split_ands.
  - rewrite ascending_height.
    change (top (init true 0 0)) with 2. change (bottom (init true 0 0)) with 3.
    assert (E : depth (asc_abs 2 3 true 1000) = 13%nat) by (vm_compute; reflexivity).
    rewrite E. reflexivity.
  - vm_compute. discriminate.
  - apply (ascending_build_at limit d 0 0 1000). lia.
  - destruct (ascending_state 0 0 1000) as (R & _). cbv zeta in R.
    rewrite (height_at_rep limit d _ _ R), depth_rchain.
    rewrite decide_True by lia. reflexivity.
Qed.

Lemma ascending_1000_heights_witness :
  height (add_all (upto 1000) (init true 0 0)) = Ret 12 /\
  12 <= 2 * Z.log2_up 1000 /\
  add_all_at 1100 1 (upto 1000) (init false 0 0) =
    (Ret tt, add_all (upto 1000) (init false 0 0)) /\
  height_at 1100 1 (add_all (upto 1000) (init false 0 0)) = Ret 999.
Proof. apply (ascending_1000_heights 1100 1). lia. Defined.

(** C10.  For a cursor over a well-formed tree with the nodes [rest] still
    to be yielded: [hasNext] holds exactly when [rest] is not empty; when it
    does not hold, [peek] returns [None] and [next] raises [StopIteration],
    both leaving tree and cursor as they are; when it holds, [peek] returns
    the key that [next] then yields. *)
Theorem cursor_hasNext_peek (st : Tree) (T : bt) (it : BSTIterator) (rest : list ref) :
  rep st T -> at_pos T it rest ->
  (hasNext it = true <-> rest <> []) /\
  (hasNext it = false ->
     peek st it = None /\ it_next (st, it) = (Raise StopIteration, (st, it))) /\
  (hasNext it = true ->
     exists k it', peek st it = Some k /\ it_next (st, it) = (Ret k, (st, it')) /\
                   at_pos T it' (tail rest)).
Proof.
  intros Hrep Hpos. rewrite (hasNext_at T it rest Hpos).
  destruct rest as [|a rest].
  - rewrite bool_decide_false by congruence.
    split; [split; [discriminate|congruence]|]. split; [|discriminate].
    intros _. destruct Hpos as (_ & Hc). cbn [head] in Hc. split.
    + unfold peek. now rewrite Hc.
    + now apply it_next_stop.
  - rewrite bool_decide_true by congruence.
    split; [split; [congruence|reflexivity]|]. split; [discriminate|].
    intros _. exists (data (heap st !!! a)), (mkIter (Some a) (head rest)).
    split; [exact (peek_at st T it a rest Hpos)|].
    split; [exact (it_next_spec st T it a rest Hrep Hpos)|].
    eapply at_pos_next. exact Hpos.
Qed.

Lemma cursor_hasNext_peek_witness :
  (let it := mkIter (Some 4%positive) None in
   (hasNext it = true <-> @nil ref <> []) /\
   (hasNext it = false ->
      peek chain4 it = None /\ it_next (chain4, it) = (Raise StopIteration, (chain4, it))) /\
   (hasNext it = true ->
      exists k it', peek chain4 it = Some k /\ it_next (chain4, it) = (Ret k, (chain4, it')) /\
                    at_pos chain4_bt it' (tail []))) /\
  (let it := mkIter None (Some 1%positive) in
   (hasNext it = true <-> [1; 2; 3; 4]%positive <> []) /\
   (hasNext it = false ->
      peek chain4 it = None /\ it_next (chain4, it) = (Raise StopIteration, (chain4, it))) /\
   (hasNext it = true ->
      exists k it', peek chain4 it = Some k /\ it_next (chain4, it) = (Ret k, (chain4, it')) /\
                    at_pos chain4_bt it' (tail [1; 2; 3; 4]%positive))).
Proof.
  split.
  - apply (cursor_hasNext_peek chain4 chain4_bt (mkIter (Some 4%positive) None) []).
    + exact chain4_rep.
    + split; [exists [1; 2; 3; 4]%positive; reflexivity|reflexivity].
  - apply (cursor_hasNext_peek chain4 chain4_bt (mkIter None (Some 1%positive))
             [1; 2; 3; 4]%positive).
    + exact chain4_rep.
    + split; [exists []; reflexivity|reflexivity].
Defined.

(** * Further properties of the operations *)



(** X2.  [add] of a key that a search tree already holds returns [False]
    and changes nothing: no node, link, counter or size. *)
Theorem add_existing_key (key : Z) (st : Tree) (T : bt) :
  bst st T -> key ∈ keys (heap st) T -> add key st = (Ret false, st).
Proof.
  intros (Hrep & Hs) Hk.
  destruct (add_spec key st T Hrep) as (st' & T' & b & E & R' & _ & _ & _ & H).
  destruct (H Hs) as (S' & Hb). destruct b.
  - destruct Hb as (Hn & _). contradiction.
  - destruct Hb as (_ & ->). exact E.
Qed.

Lemma add_existing_key_witness : add 9 second7 = (Ret false, second7).
Proof.
  apply (add_existing_key 9 second7 second7_bt).
  - exact second7_bst.
  - by_decide.
Defined.

(** X3.  [remove] of a key that a search tree does not hold returns [False]
    and changes nothing. *)
Theorem remove_absent_key (key : Z) (st : Tree) (T : bt) :
  bst st T -> key ∉ keys (heap st) T -> remove key st = (Ret false, st).
Proof.
  intros (Hrep & Hs) Hk.
  destruct (remove_found key st T Hrep) as ([n|] & _ & Hr).
  - destruct Hr as (Hn & Hd & _). exfalso. apply Hk. rewrite <- Hd.
    apply (list_elem_of_fmap_2 (fun i => data (heap st !!! i))). exact Hn.
  - apply Hr.
Qed.

Lemma remove_absent_key_witness : remove 20 second7 = (Ret false, second7).
Proof.
  apply (remove_absent_key 20 second7 second7_bt).
  - exact second7_bst.
  - by_decide.
Defined.

(** X4.  [remove] of a key that a search tree holds takes exactly that key
    out: the tree left behind is a well-formed search tree with consistent
    counters over the other keys, and [len] has dropped by one.  The call
    returns [True], except in self-balancing mode when the key sits in the
    root node and other keys remain: then the search for an unbalanced
    ancestor starts from [None] and [AttributeError] is raised (after the
    tree has been updated). *)
Theorem remove_present_key (key : Z) (st : Tree) (T : bt) :
  bst st T -> key ∈ keys (heap st) T ->
  exists T',
    let st' := snd (remove key st) in
    bst st' T' /\
    (forall k, k ∈ keys (heap st') T' <-> k ∈ keys (heap st) T /\ k <> key) /\
    len st' = len st - 1 /\
    fst (remove key st) =
      if self_balancing st && bool_decide (root_key st = Some key) &&
         bool_decide (1 < len st)
      then Raise AttributeError else Ret true.
Proof.
  intros (Hrep & Hs) Hk.
  destruct (remove_found key st T Hrep) as ([n|] & _ & Hr).
  2:{ destruct Hr as (_ & [Hr|Hr]); contradiction. }
  destruct Hr as (Hn & Hd & st' & T' & A & B & E & R' & KA & KB & _).
  exists T'. rewrite E. cbn [fst snd]. cbv zeta.
  rewrite KA in Hs. destruct (sorted_without A B key Hs) as (S' & Hmem).
  assert (Hsz : size st' = size st - 1).
  { rewrite (rep_size _ _ R'), (rep_size _ _ Hrep).
    assert (L : length (keys (heap st) T) = S (length (keys (heap st') T'))).
    { rewrite KA, KB, !length_app. cbn [length]. lia. }
    unfold keys in L. rewrite !length_fmap in L. lia. }
  split; [split; [exact R'|rewrite KB; exact S']|].
  split; [intros k; rewrite KB, KA; apply Hmem|].
  split; [exact Hsz|].
  assert (E1 : bool_decide (parent (heap st !!! n) = None) =
               bool_decide (root_key st = Some key)).
  { apply bool_decide_ext. rewrite (parent_None_root st T n Hrep Hn).
    unfold root_key. split.
    - intros ->. cbn. rewrite Hd. reflexivity.
    - intros Hrk. destruct (root st) as [r|] eqn:Er; [|discriminate].
      cbn in Hrk. injection Hrk as Hrk. f_equal.
      apply (keys_inj (heap st) T r n).
      + rewrite KA. apply StronglySorted_lt_NoDup. exact Hs.
      + rewrite (rep_root _ _ Hrep) in Er. destruct T; [discriminate|].
        cbn in Er. injection Er as ->. cbn [ids]. set_solver.
      + exact Hn.
      + congruence. }
  assert (E2 : bool_decide (root st' <> None) = bool_decide (1 < len st)).
  { apply bool_decide_ext. unfold len. rewrite (rep_root _ _ R').
    rewrite (rep_size _ _ R') in Hsz. destruct T'; cbn [top_of ids length] in *.
    - split; [congruence|lia].
    - rewrite length_app in Hsz. cbn [length] in Hsz. split; [lia|discriminate]. }
  rewrite E1, E2. reflexivity.
Qed.

Lemma remove_present_key_witness :
  exists T',
    let st' := snd (remove 2 three) in
    bst st' T' /\
    (forall k, k ∈ keys (heap st') T' <-> k ∈ keys (heap three) three_bt /\ k <> 2) /\
    len st' = len three - 1 /\
    fst (remove 2 three) =
      if self_balancing three && bool_decide (root_key three = Some 2) &&
         bool_decide (1 < len three)
      then Raise AttributeError else Ret true.
Proof.
  apply (remove_present_key 2 three three_bt).
  - exact three_bst.
  - by_decide.
Defined.

(** X5.  The tree is a set: after any sequence of [add] and [remove] calls
    on a new tree, in either balancing mode and for any ratio (and whether
    or not some [remove] raised), iteration yields, in strictly ascending
    order, exactly the keys added and not removed since; [len] is their
    number and [isEmpty] holds exactly when there is none. *)
Theorem mutators_implement_a_set (ops : list op) (sb : bool) (tp bo : Z) :
  let st := run_ops ops (init sb tp bo) in
  exists l,
    to_list st = Ret l /\ StronglySorted Z.lt l /\
    (forall k, k ∈ l <-> k ∈ set_of ops) /\
    len st = Z.of_nat (length l) /\
    (isEmpty st = true <-> l = []).
Proof.
  cbv zeta.
  destruct (bst_run_ops_set ops (init sb tp bo) Lf ∅) as (T & (R & S') & Hk).
  { split; [apply rep_init|]. unfold keys. cbn. constructor. }
  { intros k. unfold keys. cbn. set_solver. }
  exists (keys (heap (run_ops ops (init sb tp bo))) T).
  split; [apply to_list_spec; exact R|]. split; [exact S'|]. split; [exact Hk|].
  split.
  - unfold len, keys. rewrite length_fmap. apply (rep_size _ _ R).
  - unfold isEmpty. rewrite bool_decide_eq_true, (rep_root _ _ R).
    unfold keys. destruct T as [|l i r]; cbn [top_of ids].
    + tauto.
    + split; [discriminate|]. intros E. apply fmap_nil_inv in E.
      destruct (ids l); discriminate.
Qed.

(** X6.  Indexing: [t[ind]] raises [IndexError] when [ind] is negative or
    not below [len(t)]; otherwise it returns the key at position [ind] of
    the ascending iteration (and never falls off its loop). *)
Theorem getitem_nth (ind : Z) (st : Tree) (T : bt) :
  rep st T ->
  exists l,
    to_list st = Ret l /\
    if decide (0 <= ind < len st)
    then exists k, l !! Z.to_nat ind = Some k /\ getitem ind st = Ret (Some k)
    else getitem ind st = Raise IndexError.
Proof.
  intros Hrep. exists (keys (heap st) T). split; [apply to_list_spec; exact Hrep|].
  rewrite (getitem_spec ind st T Hrep). unfold len.
  case_decide as Hin.
  - rewrite decide_False by lia.
    destruct (lookup_lt_is_Some_2 (keys (heap st) T) (Z.to_nat ind)) as (k & Ek).
    { unfold keys. rewrite length_fmap. rewrite (rep_size _ _ Hrep) in Hin. lia. }
    exists k. rewrite Ek. split; reflexivity.
  - rewrite decide_True by lia. reflexivity.
Qed.

Lemma getitem_nth_witness :
  exists l,
    to_list second7 = Ret l /\
    if decide (0 <= 2 < len second7)
    then exists k, l !! Z.to_nat 2 = Some k /\ getitem 2 second7 = Ret (Some k)
    else getitem 2 second7 = Raise IndexError.
Proof. apply (getitem_nth 2 second7 second7_bt). exact second7_rep. Defined.

(** X7.  [BSTIterator.remove]: with nothing pending it raises [IndexError]
    and changes nothing.  With a pending node of the tree it unlinks that
    node (its key leaves the ascending sequence, the size drops by one, the
    links stay well formed), clears [pending], moves [current] back to the
    pending node when that node had two children, and then raises
    [AttributeError] at the read of [self.__tree.__root]: the counters are
    not recomputed and no rebalancing happens. *)
Theorem iterator_remove_effect (st : Tree) (T : bt) (it : BSTIterator) :
  rep st T -> (forall p, pending it = Some p -> p ∈ ids T) ->
  match pending it with
  | None => it_remove (st, it) = (Raise IndexError, (st, it))
  | Some p =>
    exists st' T' A B,
      it_remove (st, it) =
        (Raise AttributeError,
         (st', mkIter None
                 (if bool_decide (left (heap st !!! p) <> None) &&
                     bool_decide (right (heap st !!! p) <> None)
                  then Some p else current it))) /\
      linked st' T' /\ len st' = len st - 1 /\
      keys (heap st) T = A ++ data (heap st !!! p) :: B /\
      keys (heap st') T' = A ++ B
  end.
Proof.
  intros Hrep Hp. destruct (pending it) as [p|] eqn:Ep.
  - destruct (it_remove_spec st T it p Hrep Ep (Hp p eq_refl))
      as (h' & T' & A & B & E & Lk & KA & KB).
    cbv zeta in E, Lk. eexists _, T', A, B. split; [exact E|].
    split; [exact Lk|]. split; [|split; [exact KA|exact KB]].
    unfold len. cbn [size set_size]. lia.
  - unfold it_remove. erewrite bind_Ret by reflexivity. cbn [snd]. rewrite Ep.
    reflexivity.
Qed.

Lemma iterator_remove_effect_witness :
  exists st' T' A B,
    it_remove (three, mkIter (Some 1%positive) (Some 3%positive)) =
      (Raise AttributeError,
       (st', mkIter None
               (if bool_decide (left (heap three !!! 1%positive) <> None) &&
                   bool_decide (right (heap three !!! 1%positive) <> None)
                then Some 1%positive else Some 3%positive))) /\
    linked st' T' /\ len st' = len three - 1 /\
    keys (heap three) three_bt = A ++ data (heap three !!! 1%positive) :: B /\
    keys (heap st') T' = A ++ B.
Proof.
  apply (iterator_remove_effect three three_bt (mkIter (Some 1%positive) (Some 3%positive))).
  - apply three_bst.
  - intros p Hp. injection Hp as <-. by_decide.
Defined.







(** X11.  Without self-balancing, adding [1..n] in ascending order gives a
    right chain, and every [add] recounts it with one frame per node: run
    from a frame at depth [d] under recursion limit [limit], the insertion
    completes exactly when [d + n + 1 < limit] (or [n = 0]) and raises
    [RecursionError] otherwise.  The chain of [n] keys has [len] [n],
    iterates as [1..n], and its [height], asked from depth [d], is [n - 1]
    when [d + n + 1 < limit] and [RecursionError] otherwise. *)
Theorem ascending_chain_height (n : nat) (tp bo : Z) (limit d : nat) :
  let st := add_all (upto n) (init false tp bo) in
  (if decide (n = 0 \/ d + n + 1 < limit)%nat
   then add_all_at limit d (upto n) (init false tp bo) = (Ret tt, st)
   else exists st',
       add_all_at limit d (upto n) (init false tp bo) = (Raise RecursionError, st')) /\
  height_at limit d st =
    (if decide (d + n + 1 < limit)%nat then Ret (Z.of_nat n - 1)
     else Raise RecursionError) /\
  to_list st = Ret (upto n) /\ len st = Z.of_nat n.
Proof.
  cbv zeta.
  destruct (ascending_build_at limit d tp bo n) as (Hok & Hko). cbv zeta in Hok, Hko.
  destruct (ascending_state tp bo n) as (R & _). cbv zeta in R.
  split; [|split; [|split]].
  - case_decide as Hc; [apply Hok, Hc|]. apply Hko; lia.
  - rewrite (height_at_rep limit d _ _ R), depth_rchain. reflexivity.
  - destruct (ascending_rep false tp bo n) as (_ & _ & Hd & _). cbv zeta in Hd.
    rewrite (to_list_spec _ _ R). f_equal. rewrite keys_rchain.
    + unfold upto. apply list_fmap_ext. intros ? i _. lia.
    + intros i Hi. apply Hd. exact (rep_fresh _ _ R i Hi).
  - unfold len. rewrite (rep_size _ _ R), length_rchain. reflexivity.
Qed.

(** X12.  [height] of a well-formed tree with [n] nodes is some [h] with
    [h < n < 2 ^ (h + 1)]: [-1] for the empty tree, at most [n - 1], and at
    least [log2 (n + 1) - 1]. *)
Theorem height_bounds (st : Tree) (T : bt) :
  rep st T ->
  exists h, height st = Ret h /\ -1 <= h /\ h < len st /\ len st < 2 ^ (h + 1).
Proof.
  intros Hrep. exists (Z.of_nat (depth T) - 1).
  split; [apply height_rep; exact Hrep|].
  unfold len. rewrite (rep_size _ _ Hrep).
  pose proof (depth_le_length T). pose proof (size_lt_pow T) as Hp.
  split; [lia|]. split; [lia|].
  replace (Z.of_nat (depth T) - 1 + 1) with (Z.of_nat (depth T)) by lia.
  apply Nat2Z.inj_lt in Hp. rewrite Nat2Z.inj_pow in Hp. exact Hp.
Qed.

Lemma height_bounds_witness :
  exists h, height second7 = Ret h /\ -1 <= h /\ h < len second7 /\
            len second7 < 2 ^ (h + 1).
Proof. apply (height_bounds second7 second7_bt). exact second7_rep. Defined.

(** X13.  [findEntry] on a search tree never changes the tree and never
    raises; it returns a node of the tree holding the key when the key is
    among the tree's keys, and [None] exactly when it is not. *)
Theorem findEntry_contains (key : Z) (st : Tree) (T : bt) :
  bst st T ->
  exists r,
    with_fuel (fun fuel => findEntry fuel key (root st)) st = (Ret r, st) /\
    (r = None <-> key ∉ keys (heap st) T) /\
    (forall n, r = Some n -> n ∈ tree_nodes st /\ data (heap st !!! n) = key).
Proof.
  intros (Hrep & Hs).
  destruct (findEntry_spec key T (fuel_of st) st None (rep_shape _ _ Hrep)) as (r & E & Hr).
  { pose proof (depth_le_length T). pose proof (rep_fuel _ _ Hrep). lia. }
  exists r. rewrite with_fuel_eq, (rep_root _ _ Hrep).
  split; [exact E|]. rewrite (tree_nodes_spec st T Hrep). destruct r as [n|].
  - destruct Hr as (Hn & Hd). split.
    + split; [discriminate|]. intros Hk. exfalso. apply Hk. rewrite <- Hd.
      apply (list_elem_of_fmap_2 (fun i => data (heap st !!! i))). exact Hn.
    + intros ? [= <-]. split; assumption.
  - split; [|discriminate]. split; [|reflexivity]. intros _. destruct Hr; tauto.
Qed.

Lemma findEntry_contains_witness :
  exists r,
    with_fuel (fun fuel => findEntry fuel 9 (root second7)) second7 = (Ret r, second7) /\
    (r = None <-> 9 ∉ keys (heap second7) second7_bt) /\
    (forall n, r = Some n -> n ∈ tree_nodes second7 /\ data (heap second7 !!! n) = 9).
Proof. apply (findEntry_contains 9 second7 second7_bt). exact second7_bst. Defined.

(** X14.  [count_node] at the root of a tree whose links are well formed,
    whatever its counters hold, returns the number of nodes and leaves
    every counter equal to the size of its subtree; keys, links, root and
    size are not touched. *)
Theorem count_node_recounts (st : Tree) (T : bt) :
  linked st T ->
  exists st',
    with_fuel (fun fuel => count_node fuel (root st)) st = (Ret (len st), st') /\
    rep st' T /\ root st' = root st /\ len st' = len st /\
    forall i, data (heap st' !!! i) = data (heap st !!! i) /\
              left (heap st' !!! i) = left (heap st !!! i) /\
              right (heap st' !!! i) = right (heap st !!! i) /\
              parent (heap st' !!! i) = parent (heap st !!! i).
Proof.
  intros Hlk.
  destruct (count_node_spec T (fuel_of st) st None (lk_shape _ _ Hlk) (lk_nodup _ _ Hlk))
    as (h' & E & _ & L & C).
  { pose proof (depth_le_length T). pose proof (lk_fuel _ _ Hlk). lia. }
  exists (set_heap h' st). rewrite with_fuel_eq. unfold len.
  split; [rewrite (lk_root _ _ Hlk), (lk_size _ _ Hlk); exact E|].
  split; [|split; [reflexivity|split; [reflexivity|]]].
  - destruct Hlk. constructor; cbn [root heap set_heap size next_ref fuel_of]; try assumption.
    eapply shape_ext; [|eassumption]. intros j _. apply L.
  - intros i. destruct (L i) as ((L1 & L2 & L3) & D). cbn [heap set_heap]. auto.
Qed.

Lemma count_node_recounts_witness :
  exists st',
    with_fuel (fun fuel => count_node fuel (root chain4)) chain4 = (Ret (len chain4), st') /\
    rep st' chain4_bt /\ root st' = root chain4 /\ len st' = len chain4 /\
    forall i, data (heap st' !!! i) = data (heap chain4 !!! i) /\
              left (heap st' !!! i) = left (heap chain4 !!! i) /\
              right (heap st' !!! i) = right (heap chain4 !!! i) /\
              parent (heap st' !!! i) = parent (heap chain4 !!! i).
Proof.
  apply (count_node_recounts chain4 chain4_bt). apply rep_linked. exact chain4_rep.
Defined.

(** X15.  [__inOrder] from the root appends to [arr] the node objects of
    the tree, leaves the tree as it is, and lists the nodes in the order in
    which the iterator yields their keys. *)
Theorem inOrder_agrees_with_iteration (st : Tree) (T : bt) (arr : list ref) :
  rep st T ->
  exists nodes,
    with_fuel (fun fuel => inOrder fuel (root st) arr) st = (Ret (arr ++ nodes), st) /\
    to_list st = Ret ((fun n => data (heap st !!! n)) <$> nodes) /\
    Z.of_nat (length nodes) = len st /\ NoDup nodes.
Proof.
  intros Hrep. exists (ids T). rewrite with_fuel_eq, (rep_root _ _ Hrep).
  split.
  - apply (inOrder_spec T (fuel_of st) st None arr (rep_shape _ _ Hrep)).
    pose proof (depth_le_length T). pose proof (rep_fuel _ _ Hrep). lia.
  - split; [apply to_list_spec; exact Hrep|].
    split; [symmetry; apply (rep_size _ _ Hrep)|apply (rep_nodup _ _ Hrep)].
Qed.

Lemma inOrder_agrees_with_iteration_witness :
  exists nodes,
    with_fuel (fun fuel => inOrder fuel (root second7) []) second7 =
      (Ret ([] ++ nodes), second7) /\
    to_list second7 = Ret ((fun n => data (heap second7 !!! n)) <$> nodes) /\
    Z.of_nat (length nodes) = len second7 /\ NoDup nodes.
Proof. apply (inOrder_agrees_with_iteration second7 second7_bt []). exact second7_rep. Defined.

(** X16.  [is_balanced] reads the counters only: on a well-formed tree it
    changes nothing, and for a node with [N] nodes in its subtree, [L] in
    the left and [R] in the right one, it answers whether
    [L * bottom <= N * top] and [R * bottom <= N * top]. *)
Theorem is_balanced_by_sizes (st : Tree) (T : bt) (i : ref) :
  rep st T -> i ∈ ids T ->
  let N := Z.of_nat (length (subtree_nodes st (Some i))) in
  let L := Z.of_nat (length (subtree_nodes st (left (heap st !!! i)))) in
  let R := Z.of_nat (length (subtree_nodes st (right (heap st !!! i)))) in
  is_balanced (Some i) st =
  (Ret (bool_decide (L * bottom st <= N * top st /\ R * bottom st <= N * top st)), st).
Proof.
  intros Hrep Hi. cbv zeta.
  destruct (decompose T i Hi) as (fs & s & -> & Ht).
  destruct (top_of_Some _ _ Ht) as (l & r & ->).
  pose proof (rep_shape _ _ Hrep) as Hs. apply shape_plug in Hs. destruct Hs as (Ss & _).
  pose proof (counted_plug _ _ _ (rep_counted _ _ Hrep)) as Cs.
  rewrite (is_balanced_exact st (par_of fs) (Br l i r) i eq_refl Ss Cs).
  cbn [shape] in Ss. destruct Ss as (_ & Hl & Hr & _).
  change (Some i) with (top_of (Br l i r)).
  rewrite (subtree_nodes_spec st fs (Br l i r) Hrep), Hl, Hr.
  rewrite (subtree_nodes_spec st (FL i r :: fs) l Hrep).
  rewrite (subtree_nodes_spec st (FR l i :: fs) r Hrep).
  f_equal. f_equal. unfold balanced_abs.
  repeat case_decide; symmetry;
    first [apply bool_decide_eq_true; lia | apply bool_decide_eq_false; lia].
Qed.

Lemma is_balanced_by_sizes_witness :
  let N := Z.of_nat (length (subtree_nodes chain4_balancing (Some 1%positive))) in
  let L := Z.of_nat (length (subtree_nodes chain4_balancing
                               (left (heap chain4_balancing !!! 1%positive)))) in
  let R := Z.of_nat (length (subtree_nodes chain4_balancing
                               (right (heap chain4_balancing !!! 1%positive)))) in
  is_balanced (Some 1%positive) chain4_balancing =
  (Ret (bool_decide (L * bottom chain4_balancing <= N * top chain4_balancing /\
                     R * bottom chain4_balancing <= N * top chain4_balancing)),
   chain4_balancing).
Proof.
  apply (is_balanced_by_sizes chain4_balancing chain4_bt 1%positive).
  - exact chain4_balancing_rep.
  - by_decide.
Defined.

(** X17.  [BSTIterator.__iter__] restarts the cursor: wherever the cursor
    stands, calling it and then [__next__] until [StopIteration] yields all
    keys of the tree in ascending order, and leaves the tree as it is. *)
Theorem iterator_restart (st : Tree) (T : bt) (it : BSTIterator) :
  rep st T ->
  exists l it',
    to_list st = Ret l /\
    (it_iter;; drain (fuel_of st) []) (st, it) = (Ret l, (st, it')).
Proof.
  intros Hrep.
  destruct (drain_spec st T Hrep (ids T) (mkIter (pending it) (head (ids T))) [] (fuel_of st))
    as (it' & E).
  { split; [exists []; reflexivity|reflexivity]. }
  { apply Hrep. }
  exists (keys (heap st) T), it'. split; [apply to_list_spec; exact Hrep|].
  erewrite bind_Ret by (apply it_iter_spec; exact Hrep).
  exact E.
Qed.

Lemma iterator_restart_witness :
  exists l it',
    to_list chain4 = Ret l /\
    (it_iter;; drain (fuel_of chain4) []) (chain4, mkIter (Some 2%positive) None) =
    (Ret l, (chain4, it')).
Proof.
  apply (iterator_restart chain4 chain4_bt (mkIter (Some 2%positive) None)).
  exact chain4_rep.
Defined.





(** X20.  [find_unbalanced] climbs the parent links from its start node:
    on a well-formed tree it changes nothing and returns the first node on
    the way to the root that fails [is_balanced] (every node passed before
    it is balanced), or [None] when every node up to and including the
    root is balanced. *)
Theorem find_unbalanced_nearest (st : Tree) (T : bt) (i : ref) :
  rep st T -> i ∈ ids T ->
  exists r pre post,
    with_fuel (fun fuel => find_unbalanced fuel (Some i)) st = (Ret r, st) /\
    path_up (fuel_of st) (heap st) (Some i) = pre ++ post /\
    (forall a, a ∈ pre -> is_balanced (Some a) st = (Ret true, st)) /\
    match r with
    | None => post = []
    | Some u => head post = Some u /\ is_balanced (Some u) st = (Ret false, st)
    end.
Proof.
  intros Hrep Hi.
  destruct (decompose T i Hi) as (fs & s & -> & Ht).
  pose proof (find_unbalanced_exact fs s st (fuel_of st) i Ht (rep_root _ _ Hrep)
                (rep_shape _ _ Hrep) (rep_counted _ _ Hrep) (rep_nodup _ _ Hrep)) as E.
  rewrite with_fuel_eq, E, (path_up_plug st fs s i Hrep Ht).
  2:{ pose proof (rep_fuel _ _ Hrep). pose proof (length_frames_plug fs s). lia. }
  clear E.
  pose proof (first_unbalanced_path (top st) (bottom st) fs s i Ht) as HP.
  set (path := i :: (fid <$> fs)).
  assert (Hpre : forall k, (k <= S (length fs))%nat ->
            (forall j, (j < k)%nat ->
               balanced_abs (top st) (bottom st) (plug (take j fs) s) = true) ->
            forall a, a ∈ take k path -> is_balanced (Some a) st = (Ret true, st)).
  { intros k Hk Hbal a Ha. apply list_elem_of_lookup in Ha. destruct Ha as (j & Hj).
    apply lookup_take_Some in Hj. destruct Hj as (Hj & Hjk).
    unfold path in Hj. rewrite (path_nth fs s i j Ht ltac:(lia)) in Hj.
    rewrite (is_balanced_on_path st fs s i j Hrep Ht ltac:(lia) a Hj).
    rewrite (Hbal j Hjk). reflexivity. }
  destruct (first_unbalanced (top st) (bottom st) s fs) as [[fs_u s_u]|].
  - destruct HP as (Hu & k & -> & -> & Hk & Hbal).
    destruct (top_of (plug (take k fs) s)) as [u|] eqn:Eu.
    2:{ exfalso. rewrite <- (path_nth fs s i k Ht Hk) in Eu.
        apply lookup_ge_None in Eu. cbn [length] in Eu. rewrite length_fmap in Eu. lia. }
    exists (Some u), (take k path), (drop k path).
    split; [reflexivity|]. split; [symmetry; apply take_drop|].
    split; [apply (Hpre k ltac:(lia) Hbal)|]. split.
    + rewrite <- Eu, <- (path_nth fs s i k Ht Hk). unfold path.
      rewrite head_lookup, lookup_drop, Nat.add_0_r. reflexivity.
    + rewrite (is_balanced_on_path st fs s i k Hrep Ht Hk u Eu), Hu. reflexivity.
  - destruct HP as (Hb & Hall).
    exists None, path, []. split; [reflexivity|]. split; [now rewrite app_nil_r|].
    split; [|reflexivity].
    intros a Ha. apply (Hpre (S (length fs)) ltac:(lia)).
    + intros [|j] Hj; [rewrite take_0; exact Hb|].
      destruct (lookup_lt_is_Some_2 fs j ltac:(lia)) as (f & Ef).
      exact (Hall j f Ef).
    + rewrite take_ge; [exact Ha|]. unfold path. cbn [length]. rewrite length_fmap. lia.
Qed.

Lemma find_unbalanced_nearest_witness :
  exists r pre post,
    with_fuel (fun fuel => find_unbalanced fuel (Some 4%positive)) chain4_balancing =
      (Ret r, chain4_balancing) /\
    path_up (fuel_of chain4_balancing) (heap chain4_balancing) (Some 4%positive) =
      pre ++ post /\
    (forall a, a ∈ pre -> is_balanced (Some a) chain4_balancing = (Ret true, chain4_balancing)) /\
    match r with
    | None => post = []
    | Some u => head post = Some u /\
                is_balanced (Some u) chain4_balancing = (Ret false, chain4_balancing)
    end.
Proof.
  apply (find_unbalanced_nearest chain4_balancing chain4_bt 4%positive).
  - exact chain4_balancing_rep.
  - by_decide.
Defined.

(** X21.  [getSmallestValue] from the root of a search tree changes
    nothing and returns the node holding the smallest key, or [None] when
    the tree is empty. *)
Theorem getSmallestValue_minimum (st : Tree) (T : bt) :
  bst st T ->
  exists r,
    getSmallestValue (root st) st = (Ret r, st) /\
    match r with
    | None => len st = 0
    | Some m =>
      m ∈ tree_nodes st /\
      forall k, k ∈ keys (heap st) T -> data (heap st !!! m) <= k
    end.
Proof.
  intros (Hrep & Hs). exists (head (ids T)).
  split; [apply getSmallestValue_spec; exact Hrep|].
  rewrite (tree_nodes_spec st T Hrep). unfold len. rewrite (rep_size _ _ Hrep).
  unfold keys in *. destruct (ids T) as [|m rest]; [reflexivity|].
  cbn [head fmap list_fmap] in *. split; [set_solver|].
  intros k Hk. apply elem_of_cons in Hk. destruct Hk as [->|Hk]; [lia|].
  apply StronglySorted_cons in Hs. destruct Hs as (Hlt & _).
  rewrite Forall_forall in Hlt. specialize (Hlt k Hk). lia.
Qed.

Lemma getSmallestValue_minimum_witness :
  exists r,
    getSmallestValue (root second7) second7 = (Ret r, second7) /\
    match r with
    | None => len second7 = 0
    | Some m =>
      m ∈ tree_nodes second7 /\
      forall k, k ∈ keys (heap second7) second7_bt -> data (heap second7 !!! m) <= k
    end.
Proof. apply (getSmallestValue_minimum second7 second7_bt). exact second7_bst. Defined.

(** X22.  [unlinkNode] of a node of the tree returns normally, allocates
    nothing, takes exactly that node's key out of the ascending sequence of
    keys (when the node has two children its successor's key is copied into
    it and the successor is unlinked instead), lowers the size by one and
    leaves the links well formed; the counters are left stale. *)
Theorem unlinkNode_takes_one_key (st : Tree) (T : bt) (n : ref) :
  linked st T -> n ∈ ids T ->
  exists st' T' A B,
    unlinkNode n st = (Ret tt, st') /\ linked st' T' /\
    len st' = len st - 1 /\ next_ref st' = next_ref st /\
    keys (heap st) T = A ++ data (heap st !!! n) :: B /\
    keys (heap st') T' = A ++ B.
Proof.
  intros Hlk Hn.
  destruct (unlinkNode_keys st T n Hlk Hn) as (h' & T' & E & Lk & _ & _ & A & B & KA & KB).
  eexists _, T', A, B. split; [exact E|]. split; [exact Lk|].
  split; [unfold len; cbn [size set_size]; lia|].
  split; [reflexivity|]. split; [exact KA|exact KB].
Qed.

Lemma unlinkNode_takes_one_key_witness :
  exists st' T' A B,
    unlinkNode 1%positive three = (Ret tt, st') /\ linked st' T' /\
    len st' = len three - 1 /\ next_ref st' = next_ref three /\
    keys (heap three) three_bt = A ++ data (heap three !!! 1%positive) :: B /\
    keys (heap st') T' = A ++ B.
Proof.
  apply (unlinkNode_takes_one_key three three_bt 1%positive).
  - apply rep_linked, three_bst.
  - by_decide.
Defined.

(** X23.  [__str__] of a well-formed tree returns the keys in the order of
    the ascending iteration, each rendered by [str] and followed by one
    space (the empty string for the empty tree). *)
Theorem str_lists_keys (str : Z -> string) (st : Tree) (T : bt) :
  rep st T ->
  exists l,
    to_list st = Ret l /\
    str_tree str st = Ret (foldl (fun acc k => acc +:+ str k +:+ " ") "" l).
Proof.
  intros Hrep. exists (keys (heap st) T). split; [apply to_list_spec; exact Hrep|].
  unfold str_tree.
  destruct (iterator_spec st T Hrep) as (it & -> & Hpos).
  erewrite bind_Ret.
  2:{ unfold it_iter. erewrite bind_Ret by reflexivity.
      erewrite bind_Ret.
      2:{ unfold on_tree. cbn [fst snd]. now rewrite (getSmallestValue_spec st T Hrep). }
      reflexivity. }
  cbn [fst snd].
  destruct (str_loop_spec str st T Hrep (ids T) (mkIter (pending it) (head (ids T))) ""
              (fuel_of st)) as (it' & E).
  { split; [exists []; reflexivity|reflexivity]. }
  { apply Hrep. }
  rewrite E. reflexivity.
Qed.

Lemma str_lists_keys_witness :
  exists l,
    to_list chain4 = Ret l /\
    str_tree (fun _ => "k") chain4 =
      Ret (foldl (fun acc k => acc +:+ (fun _ => "k") k +:+ " ") "" l).
Proof. apply (str_lists_keys (fun _ => "k") chain4 chain4_bt). exact chain4_rep. Defined.

(** X24.  [__repr__] of a well-formed tree leaves the tree as it is and
    returns the drawing of its link structure in preorder: one line per
    node, indented by two spaces per level, marked [+] when the node has a
    child and [-] when it is a leaf, and one line [-] for each absent child
    of a node that has the other child; the empty tree is drawn as a single
    [-] line.  [str] renders a node object. *)
Theorem repr_draws_tree (str : ref -> Node -> string) (st : Tree) (T : bt) :
  rep st T ->
  repr str st = (Ret (String.concat "" (draw str (heap st) T 0)), st) /\
  (T = Lf -> repr str st = (Ret ("-" +:+ newline), st)).
Proof.
  intros Hrep.
  assert (E : repr str st = (Ret (String.concat "" (draw str (heap st) T 0)), st)).
  { unfold repr. erewrite bind_Ret by reflexivity.
    erewrite bind_Ret.
    2:{ rewrite with_fuel_eq, (rep_root _ _ Hrep).
        apply (toStringRec_spec str T (fuel_of st) st None [] 0%nat (rep_shape _ _ Hrep)).
        pose proof (depth_le_length T). pose proof (rep_fuel _ _ Hrep). lia. }
    reflexivity. }
  split; [exact E|]. intros ->. rewrite E. reflexivity.
Qed.

Lemma repr_draws_tree_witness :
  repr (fun _ _ => "n") chain4 =
    (Ret (String.concat "" (draw (fun _ _ => "n") (heap chain4) chain4_bt 0)), chain4) /\
  (chain4_bt = Lf -> repr (fun _ _ => "n") chain4 = (Ret ("-" +:+ newline), chain4)).
Proof. apply (repr_draws_tree (fun _ _ => "n") chain4 chain4_bt). exact chain4_rep. Defined.

(** X25.  The recursion limit only ever adds [RecursionError]: run from a
    frame at any depth under any limit, [add] (in either mode, on any tree
    object) either does exactly what it does without a limit or raises
    [RecursionError], and so does [height]; on a well-formed tree [height]
    is not affected when the limit leaves room for one frame per level of
    the tree and two more. *)
Theorem recursion_limit_only_raises (limit d : nat) (key : Z) (st : Tree) :
  agrees (add_at limit d key st) (add key st) /\
  (height_at limit d st = height st \/ height_at limit d st = Raise RecursionError) /\
  forall T, rep st T -> (d + depth T + 1 < limit)%nat -> height_at limit d st = height st.
Proof.
  split; [apply add_agrees|]. split; [apply height_agrees|].
  intros T R Hd. rewrite (height_at_rep limit d st T R), decide_True by exact Hd.
  symmetry. apply height_rep. exact R.
Qed.
